(** * The SDWIS translation API database adapter (db.js)

    A shallow embedding of the adapter that lets routes written in
    PostgreSQL-flavoured SQL run against SQL Server, Oracle and PostgreSQL:
    the two dialect translators [translateToOracle] and [translateToMssql],
    the row normaliser [lowercaseKeys], the selection of the backend mode
    from the environment and the life cycle of the [mode] variable.

    Modelling choices.
    - A JavaScript string is a list of code units.  The model covers the
      code units below 256 (Latin-1), written as [ascii]: the SQL templates
      of the routes are ASCII.  The character classes [\s], [\S], [\d], the
      case folding of the [i] flag and [toLowerCase] are given for the whole
      Latin-1 range.
    - A JavaScript number is modelled by an integer [Z]: the model covers
      the integral values of the safe range, on which [+], [parseInt] and the
      conversion to a string are exact.
    - The regular expressions of the source are data ([Regex.regex]) run by a
      backtracking matcher with greedy quantifiers, as the JavaScript engine
      runs them. *)

From Stdlib Require Import List Bool Arith ZArith Lia.
From Stdlib Require Import Ascii String DecimalString.
From Stdlib Require DecimalPos DecimalZ.
Import ListNotations.

(** ** Code units, character classes, case folding *)

Module Chars.

Definition jsstring := list ascii.

(** String literals of the source. *)
Definition lit (s : string) : jsstring := list_ascii_of_string s.
Arguments lit s%_string.

Definition code (c : ascii) : N := N_of_ascii c.

Definition between (lo hi : N) (c : ascii) : bool :=
  ((lo <=? code c) && (code c <=? hi))%N.

(** [\d] *)
Definition is_digit (c : ascii) : bool := between 48 57 c.

(** [\s] on code units below 256: TAB, LF, VT, FF, CR, SPACE, NBSP. *)
Definition is_space (c : ascii) : bool :=
  between 9 13 c || (code c =? 32)%N || (code c =? 160)%N.

(** [\S] *)
Definition is_nonspace (c : ascii) : bool := negb (is_space c).

(** Canonicalisation of a code unit under the [i] flag (no [u] flag):
    the upper-case mapping where it is a single code unit of the same
    range; a-z and the Latin-1 letters U+00E0..U+00FE (not U+00F7). *)
Definition canon (c : ascii) : ascii :=
  if between 97 122 c then ascii_of_N (code c - 32)
  else if between 224 254 c && negb (code c =? 247)%N
       then ascii_of_N (code c - 32)
       else c.

(** [String.prototype.toLowerCase] on a code unit below 256. *)
Definition lower_char (c : ascii) : ascii :=
  if between 65 90 c then ascii_of_N (code c + 32)
  else if between 192 222 c && negb (code c =? 215)%N
       then ascii_of_N (code c + 32)
       else c.

Definition toLowerCase (s : jsstring) : jsstring := map lower_char s.

(** Equality of two code units, under the [i] flag or not. *)
Definition char_eq (ci : bool) (a b : ascii) : bool :=
  if ci then Ascii.eqb (canon a) (canon b) else Ascii.eqb a b.

(** The maximal prefix of [s] whose characters satisfy [p], and the rest. *)
Fixpoint span (p : ascii -> bool) (s : jsstring) : jsstring * jsstring :=
  match s with
  | c :: t => if p c then let (a, b) := span p t in (c :: a, b) else ([], s)
  | [] => ([], [])
  end.

End Chars.

(** ** Regular expressions and the operations of [String.prototype] on them *)

Module Regex.
Import Chars.

Inductive cclass := Space | NonSpace | Digit.

Definition in_class (k : cclass) : ascii -> bool :=
  match k with
  | Space => is_space
  | NonSpace => is_nonspace
  | Digit => is_digit
  end.

(** The pieces the regular expressions of db.js are made of. *)
Inductive item :=
| Lit (l : jsstring)     (* literal characters, escaped or not *)
| Many0 (k : cclass)     (* [k*], greedy *)
| Many1 (k : cclass)     (* [k+], greedy *)
| Cap1 (k : cclass).     (* [(k+)], greedy, capturing *)

(** A pattern: its items in sequence and its [i] flag. *)
Record regex := Re { items : list item; icase : bool }.

(** A successful match: the captures in order and the unread input. *)
Definition result := (list jsstring * jsstring)%type.

(** A literal read off the front of the input. *)
Fixpoint strip (ci : bool) (l s : jsstring) : option jsstring :=
  match l with
  | [] => Some s
  | a :: l' =>
      match s with
      | b :: s' => if char_eq ci a b then strip ci l' s' else None
      | [] => None
      end
  end.

(** A greedy quantifier over a character class: the longest run is tried
    first and the matcher backs off one character at a time while the
    continuation [k] (given the run and what follows it) fails. *)
Fixpoint greedy (p : ascii -> bool) (s : jsstring)
         (k : jsstring -> jsstring -> option result) : option result :=
  match s with
  | c :: t =>
      if p c then
        match greedy p t (fun run rest => k (c :: run) rest) with
        | Some r => Some r
        | None => k [] s
        end
      else k [] s
  | [] => k [] []
  end.

(** Matching the items at the front of [s], captures accumulated. *)
Fixpoint run (ci : bool) (re : list item) (s : jsstring)
         (caps : list jsstring) : option result :=
  match re with
  | [] => Some (caps, s)
  | Lit l :: re' =>
      match strip ci l s with
      | Some rest => run ci re' rest caps
      | None => None
      end
  | Many0 k :: re' =>
      greedy (in_class k) s (fun _ rest => run ci re' rest caps)
  | Many1 k :: re' =>
      greedy (in_class k) s
             (fun taken rest =>
                match taken with
                | [] => None
                | _ :: _ => run ci re' rest caps
                end)
  | Cap1 k :: re' =>
      greedy (in_class k) s
             (fun taken rest =>
                match taken with
                | [] => None
                | _ :: _ => run ci re' rest (caps ++ [taken])
                end)
  end.

(** One attempt of the pattern at the front of [s]. *)
Definition exec (re : regex) (s : jsstring) : option result :=
  run (icase re) (items re) s [].

(** [s.match(re)] for a pattern without the [g] flag: the captures of the
    leftmost match. *)
Fixpoint search (re : regex) (s : jsstring) : option (list jsstring) :=
  match exec re s with
  | Some (caps, _) => Some caps
  | None =>
      match s with
      | _ :: t => search re t
      | [] => None
      end
  end.

(** [s.replace(re, repl)] for a pattern without the [g] flag: the
    leftmost match is replaced, the rest of the text is kept. *)
Fixpoint replace_first (re : regex) (repl : list jsstring -> jsstring)
         (s : jsstring) : jsstring :=
  match exec re s with
  | Some (caps, rest) => repl caps ++ rest
  | None =>
      match s with
      | c :: t => c :: replace_first re repl t
      | [] => []
      end
  end.

(** [s.replace(re, repl)] for a pattern with the [g] flag: matches are
    looked for from left to right, each search starting where the previous
    match ended.  [fuel] bounds the number of steps; the length of the
    text is enough since every pattern of db.js reads at least one
    character (see [replace_all_from_fuel]). *)
Fixpoint replace_all_from (fuel : nat) (re : regex)
         (repl : list jsstring -> jsstring) (s : jsstring) : jsstring :=
  match fuel with
  | O => s
  | S fuel' =>
      match s with
      | [] => []
      | c :: t =>
          match exec re s with
          | Some (caps, rest) => repl caps ++ replace_all_from fuel' re repl rest
          | None => c :: replace_all_from fuel' re repl t
          end
      end
  end.

Definition replace_all (re : regex) (repl : list jsstring -> jsstring)
           (s : jsstring) : jsstring :=
  replace_all_from (List.length s) re repl s.

(** The n-th capture, [$n] of a replacement pattern (1-based). *)
Definition cap (n : nat) (caps : list jsstring) : jsstring :=
  nth (n - 1) caps [].

End Regex.

(** ** JavaScript values, as far as the adapter handles them *)

Module Js.
Import Chars.

(** Bind values and row values.  [JNaN] is the one non-integral number the
    adapter can produce ([undefined + n]). *)
Inductive JsVal :=
| JUndefined
| JNull
| JBool (b : bool)
| JNum (z : Z)
| JNaN
| JStr (s : jsstring).

(** Decimal notation of an integer, as [Number.prototype.toString] gives it
    for the integers a double holds exactly (those below [2^53] in size);
    past them the language rounds the digits and, from [1e21] on, writes an
    exponent.  The theorems that write a number out assume that range. *)
Definition dec (z : Z) : jsstring := lit (NilZero.string_of_int (Z.to_int z)).

(** [ToString], the conversion a template literal applies to [${e}]. *)
Definition ToString (v : JsVal) : jsstring :=
  match v with
  | JUndefined => lit "undefined"
  | JNull => lit "null"
  | JBool true => lit "true"
  | JBool false => lit "false"
  | JNum z => dec z
  | JNaN => lit "NaN"
  | JStr s => s
  end.

(** [ToNumber] on the values that are not strings: [None] is NaN. *)
Definition ToNumber (v : JsVal) : option Z :=
  match v with
  | JUndefined => None
  | JNull => Some 0%Z
  | JBool true => Some 1%Z
  | JBool false => Some 0%Z
  | JNum z => Some z
  | JNaN => None
  | JStr _ => None
  end.

(** The binary [+]: concatenation as soon as one operand is a string,
    addition of the numeric values otherwise.  The sum is the sum of the
    integers, which is the sum of the language as long as the operands and
    the sum are integers a double holds exactly; past that the language
    rounds.  The theorems that add assume that range. *)
Definition js_add (a b : JsVal) : JsVal :=
  match a, b with
  | JStr x, _ => JStr (x ++ ToString b)
  | _, JStr y => JStr (ToString a ++ y)
  | _, _ =>
      match ToNumber a, ToNumber b with
      | Some x, Some y => JNum (x + y)
      | _, _ => JNaN
      end
  end.

Definition digit_value (c : ascii) : Z := Z.of_N (code c) - 48.

(** [parseInt] on a text that starts with decimal digits (every argument it
    gets in db.js is a capture of [\d+]): the value of the leading run of
    digits; [None], NaN, when there is none. *)
Definition parseInt (s : jsstring) : option Z :=
  match fst (span is_digit s) with
  | [] => None
  | ds => Some (fold_left (fun acc c => 10 * acc + digit_value c)%Z ds 0%Z)
  end.

(** [a[i]] for an index that is a number: [undefined] out of range. *)
Definition index (a : list JsVal) (i : option Z) : JsVal :=
  match i with
  | Some z => if (z <? 0)%Z then JUndefined else nth (Z.to_nat z) a JUndefined
  | None => JUndefined
  end.

(** [i !== x] for an array position [i] and a number [x]. *)
Definition differs (i : nat) (x : option Z) : bool :=
  match x with
  | Some z => negb (Z.of_nat i =? z)%Z
  | None => true
  end.

(** [a.filter((_, i) => keep i)], positions counted from [from]. *)
Fixpoint filter_index (keep : nat -> bool) (from : nat) (a : list JsVal)
  : list JsVal :=
  match a with
  | [] => []
  | v :: a' =>
      if keep from then v :: filter_index keep (S from) a'
      else filter_index keep (S from) a'
  end.

(** An object used as a record of named binds: its entries in the order
    [Object.entries] lists them. *)
Definition entries := list (jsstring * JsVal).

(** [a.forEach((val, i) => { o[String(i + 1)] = val; })] on a fresh [o]. *)
Fixpoint number_from (from : nat) (a : list JsVal) : entries :=
  match a with
  | [] => []
  | v :: a' => (dec (Z.of_nat from + 1), v) :: number_from (S from) a'
  end.

End Js.

(** ** The translators of db.js *)

Module Db.
Import Chars Regex Js.

Definition nl : jsstring := ["010"%char].

(** [/\$(\d+)/g] *)
Definition re_placeholder : regex :=
  Re [Lit (lit "$"); Cap1 Digit] false.

(** [/(\S+)\s+ILIKE\s+(\S+)/gi] *)
Definition re_ilike : regex :=
  Re [Cap1 NonSpace; Many1 Space; Lit (lit "ILIKE"); Many1 Space; Cap1 NonSpace]
     true.

(** [/LIMIT\s+:(\d+)\s+OFFSET\s+:(\d+)/i] *)
Definition re_limit_oracle : regex :=
  Re [Lit (lit "LIMIT"); Many1 Space; Lit (lit ":"); Cap1 Digit; Many1 Space;
      Lit (lit "OFFSET"); Many1 Space; Lit (lit ":"); Cap1 Digit] true.

(** [/\s*LIMIT\s+:\d+\s+OFFSET\s+:\d+/i] *)
Definition re_limit_oracle_strip : regex :=
  Re [Many0 Space; Lit (lit "LIMIT"); Many1 Space; Lit (lit ":"); Many1 Digit;
      Many1 Space; Lit (lit "OFFSET"); Many1 Space; Lit (lit ":"); Many1 Digit]
     true.

(** [/COUNT\(\*\)\s+as\s+total/gi] *)
Definition re_count : regex :=
  Re [Lit (lit "COUNT(*)"); Many1 Space; Lit (lit "as"); Many1 Space;
      Lit (lit "total")] true.

(** [/\s*LIMIT\s+@p(\d+)\s+OFFSET\s+@p(\d+)/i] *)
Definition re_limit_mssql : regex :=
  Re [Many0 Space; Lit (lit "LIMIT"); Many1 Space; Lit (lit "@p"); Cap1 Digit;
      Many1 Space; Lit (lit "OFFSET"); Many1 Space; Lit (lit "@p"); Cap1 Digit]
     true.

(** [/\s*LIMIT\s+@p\d+\s+OFFSET\s+@p\d+/i] *)
Definition re_limit_mssql_strip : regex :=
  Re [Many0 Space; Lit (lit "LIMIT"); Many1 Space; Lit (lit "@p"); Many1 Digit;
      Many1 Space; Lit (lit "OFFSET"); Many1 Space; Lit (lit "@p"); Many1 Digit]
     true.

(** What [translateToOracle] returns. *)
Record OracleQuery := {
  o_sql : jsstring;
  o_binds : entries;
  o_filteredParams : option (list JsVal)
}.

(** What [translateToMssql] returns. *)
Record MssqlQuery := {
  m_sql : jsstring;
  m_filteredParams : option (list JsVal)
}.

(** The first two rewrites of [translateToOracle], lines 31 and 34. *)
Definition oracle_placeholders (text : jsstring) : jsstring :=
  replace_all re_placeholder (fun caps => lit ":" ++ cap 1 caps) text.

Definition oracle_ilike (sql : jsstring) : jsstring :=
  replace_all re_ilike
    (fun caps => lit "UPPER(" ++ cap 1 caps ++ lit ") LIKE UPPER("
                 ++ cap 2 caps ++ lit ")") sql.

(** The template literal of lines 44 to 47. *)
Definition rownum_wrap (sql : jsstring) (upper lower : JsVal) : jsstring :=
  lit "SELECT * FROM (" ++ nl
  ++ lit "      SELECT a.*, ROWNUM rn FROM (" ++ sql ++ lit ") a" ++ nl
  ++ lit "      WHERE ROWNUM <= " ++ ToString upper ++ nl
  ++ lit "    ) WHERE rn > " ++ ToString lower.

(** [translateToOracle(text, params)]; [params] is [None] when the caller
    passes no array. *)
Definition translateToOracle (text : jsstring) (params : option (list JsVal))
  : OracleQuery :=
  let sql := text in
  let sql := oracle_placeholders sql in
  let sql := oracle_ilike sql in
  let limitMatch := search re_limit_oracle sql in
  let '(sql, params) :=
    match limitMatch, params with
    | Some caps, Some ps =>
        let limitIdx := option_map (fun z => z - 1)%Z (parseInt (cap 1 caps)) in
        let offsetIdx := option_map (fun z => z - 1)%Z (parseInt (cap 2 caps)) in
        let limit := index ps limitIdx in
        let offset := index ps offsetIdx in
        let sql := replace_first re_limit_oracle_strip (fun _ => []) sql in
        let sql := rownum_wrap sql (js_add offset limit) offset in
        (sql,
         Some (filter_index
                 (fun i => differs i limitIdx && differs i offsetIdx) 0 ps))
    | _, _ => (sql, params)
    end in
  let sql := replace_all re_count (fun _ => lit "COUNT(*) total") sql in
  let binds :=
    match params with
    | Some ps => number_from 0 ps
    | None => []
    end in
  {| o_sql := sql; o_binds := binds; o_filteredParams := params |}.

(** The first two rewrites of [translateToMssql], lines 67 and 70. *)
Definition mssql_placeholders (text : jsstring) : jsstring :=
  replace_all re_placeholder (fun caps => lit "@p" ++ cap 1 caps) text.

Definition mssql_ilike (sql : jsstring) : jsstring :=
  replace_all re_ilike (fun caps => cap 1 caps ++ lit " LIKE " ++ cap 2 caps) sql.

(** [translateToMssql(text, params)]. *)
Definition translateToMssql (text : jsstring) (params : option (list JsVal))
  : MssqlQuery :=
  let sql := text in
  let sql := mssql_placeholders sql in
  let sql := mssql_ilike sql in
  let limitMatch := search re_limit_mssql sql in
  let '(sql, params) :=
    match limitMatch, params with
    | Some caps, Some ps =>
        let limitIdx := option_map (fun z => z - 1)%Z (parseInt (cap 1 caps)) in
        let offsetIdx := option_map (fun z => z - 1)%Z (parseInt (cap 2 caps)) in
        let limit := index ps limitIdx in
        let offset := index ps offsetIdx in
        let sql := replace_first re_limit_mssql_strip (fun _ => []) sql in
        let sql := sql ++ lit " OFFSET " ++ ToString offset
                       ++ lit " ROWS FETCH NEXT " ++ ToString limit
                       ++ lit " ROWS ONLY" in
        (sql,
         Some (filter_index
                 (fun i => differs i limitIdx && differs i offsetIdx) 0 ps))
    | _, _ => (sql, params)
    end in
  {| m_sql := sql; m_filteredParams := params |}.

End Db.

(** ** The row normaliser *)

Module Normalizer.
Import Chars.

(** Equality of two property names. *)
Fixpoint str_eqb (a b : jsstring) : bool :=
  match a, b with
  | [], [] => true
  | x :: a', y :: b' => Ascii.eqb x y && str_eqb a' b'
  | _, _ => false
  end.

(** The name of the accessor that plain objects inherit. *)
Definition proto : jsstring := lit "__proto__".

Section Rows.
Variable V : Type.

(** A row object, by the list [Object.entries] gives for it: its own
    properties in order, no name twice.  ([Object.entries] lists the
    integer-like names first, in ascending order; the loop of
    [lowercaseKeys] meets them first and in that order, so a new property
    going last keeps them there.) *)
Definition Row := list (jsstring * V).

(** An own property defined or updated: an existing property keeps its
    place and takes the new value, a new property goes last. *)
Fixpoint own_set (k : jsstring) (v : V) (o : Row) : Row :=
  match o with
  | [] => [(k, v)]
  | (k', v') :: o' =>
      if str_eqb k k' then (k, v) :: o' else (k', v') :: own_set k v o'
  end.

(** [o[k] = v] on an object made by [{}].  Every name but one defines or
    updates an own property.  The name [__proto__] is an accessor the
    object inherits from [Object.prototype]: the assignment calls its
    setter and the object gets no own property.  For a value that is a
    number, a string, a boolean or [undefined] the setter does nothing
    else, and this is the whole of the assignment.  For an object or [null]
    the setter also replaces the prototype, and what later assignments do
    then depends on the new prototype: the model does not follow that, and
    the theorems on rows in general leave out the rows that have a name
    which is [__proto__] in lower case. *)
Definition obj_set (k : jsstring) (v : V) (o : Row) : Row :=
  if str_eqb k proto then o else own_set k v o.

(** [o[k]] *)
Fixpoint obj_get (k : jsstring) (o : Row) : option V :=
  match o with
  | [] => None
  | (k', v') :: o' => if str_eqb k k' then Some v' else obj_get k o'
  end.

(** The body of the arrow function of [lowercaseKeys]: the loop over
    [Object.entries(row)] that fills [lower], started from [lower]. *)
Definition lower_into (lower : Row) (row : Row) : Row :=
  fold_left (fun lower kv => obj_set (toLowerCase (fst kv)) (snd kv) lower)
            row lower.

Definition lowercaseKeys (rows : list Row) : list Row :=
  map (fun row => lower_into [] row) rows.

(** The names of a row, in order. *)
Definition keys (o : Row) : list jsstring := map fst o.

(** No name of the row is [__proto__] in lower case. *)
Definition no_proto (o : Row) : Prop :=
  ~ In proto (map toLowerCase (keys o)).

(** A row object has no property name twice. *)
Definition row_ok (o : Row) : Prop := NoDup (keys o).

(** The row with each name put in lower case, field by field. *)
Definition lower_fields (o : Row) : Row :=
  map (fun kv => (toLowerCase (fst kv), snd kv)) o.

(** The value of the latest field of [o] whose name is [k] in lower case. *)
Fixpoint latest (k : jsstring) (o : Row) : option V :=
  match o with
  | [] => None
  | (k', v') :: o' =>
      match latest k o' with
      | Some v => Some v
      | None => if str_eqb k (toLowerCase k') then Some v' else None
      end
  end.

End Rows.

Arguments own_set {V} k v o.
Arguments obj_set {V} k v o.
Arguments obj_get {V} k o.
Arguments lower_into {V} lower row.
Arguments lowercaseKeys {V} rows.
Arguments keys {V} o.
Arguments no_proto {V} o.
Arguments row_ok {V} o.
Arguments lower_fields {V} o.
Arguments latest {V} k o.

End Normalizer.

(** ** Backend mode: selection at start-up and life cycle *)

Module Lifecycle.
Import Chars Js Db.

Inductive Mode := demo | mssql | oracle | postgresql.

Definition mode_eqb (a b : Mode) : bool :=
  match a, b with
  | demo, demo | mssql, mssql | oracle, oracle | postgresql, postgresql => true
  | _, _ => false
  end.

(** [process.env]: the value of a variable, when it is defined. *)
Definition Env := string -> option string.

(** [!!v] for a value of the environment: defined and not empty. *)
Definition truthy (v : option string) : bool :=
  match v with
  | Some s => negb (String.eqb s "")
  | None => false
  end.

(** Lines 17 to 19. *)
Definition FORCE_DEMO (env : Env) : bool :=
  match env "DEMO_MODE"%string with
  | Some s => String.eqb s "true"
  | None => false
  end.

Definition USE_MSSQL (env : Env) : bool :=
  negb (FORCE_DEMO env) && truthy (env "MSSQL_SERVER"%string).

Definition USE_ORACLE (env : Env) : bool :=
  negb (FORCE_DEMO env) && negb (USE_MSSQL env)
  && truthy (env "ORACLE_USER"%string).

(** The branch of the [if] chain of lines 106 to 235 that runs, named by
    the value it gives [mode]. *)
Definition selected_mode (env : Env) : Mode :=
  if FORCE_DEMO env then demo
  else if USE_MSSQL env then mssql
  else if USE_ORACLE env then oracle
  else postgresql.

(** How [oracledb.initOracleClient()] ends. *)
Inductive ClientInit :=
| InitDone
| InitAlready      (* throws, the message has 'already initialized' *)
| InitError.       (* throws anything else *)

(** A call [query(text, params)]. *)
Record Call := { c_text : jsstring; c_params : option (list JsVal) }.

(** [params ? [...params] : []] *)
Definition spread (params : option (list JsVal)) : list JsVal :=
  match params with
  | Some ps => ps
  | None => []
  end.

(** What a call of [query] comes to. *)
Inductive Outcome :=
| Empty                                   (* returns [[]] *)
| MssqlRequest (q : MssqlQuery)           (* [pool.request()] and the query *)
| OracleExecute (q : OracleQuery)         (* [pool.getConnection()] and on *)
| PgQuery (text : jsstring) (params : option (list JsVal))
                                          (* [pool.query(text, params)] *)
| NoPool.                                 (* a method of an unset [pool] *)

(** The module-level variables, the promise [poolReady], the calls that
    wait on it, and what the calls made so far came to. *)
Record State := {
  selected : Mode;        (* the branch that ran: it fixes [query] *)
  mode : Mode;
  pool : bool;            (* [pool] holds a pool *)
  poolReady : bool;       (* the promise [poolReady] is settled *)
  probe : bool;           (* the probe [SELECT 1] is settled *)
  waiting : list Call;    (* calls suspended at [await poolReady] *)
  log : list (Call * Outcome)
}.

(** The state when the module has been evaluated; [None] when evaluating
    it throws. *)
Definition load (env : Env) (oci : ClientInit) : option State :=
  match selected_mode env with
  | demo =>
      Some {| selected := demo; mode := demo; pool := false;
              poolReady := true; probe := true; waiting := []; log := [] |}
  | mssql =>
      Some {| selected := mssql; mode := mssql; pool := false;
              poolReady := false; probe := true; waiting := []; log := [] |}
  | oracle =>
      match oci with
      | InitError => None
      | _ =>
          Some {| selected := oracle; mode := oracle; pool := false;
                  poolReady := false; probe := true; waiting := []; log := [] |}
      end
  | postgresql =>
      Some {| selected := postgresql; mode := postgresql; pool := true;
              poolReady := true; probe := false; waiting := []; log := [] |}
  end.

(** The part of [query] after [await poolReady], in the SQL Server and the
    Oracle branch, and the whole of it in the other two. *)
Definition query_body (st : State) (c : Call) : Outcome :=
  match selected st with
  | demo => Empty
  | mssql =>
      if mode_eqb (mode st) demo then Empty
      else if pool st
           then MssqlRequest (translateToMssql (c_text c) (Some (spread (c_params c))))
           else NoPool
  | oracle =>
      if mode_eqb (mode st) demo then Empty
      else if pool st
           then OracleExecute (translateToOracle (c_text c) (Some (spread (c_params c))))
           else NoPool
  | postgresql =>
      if pool st then PgQuery (c_text c) (c_params c) else NoPool
  end.

(** Whether [query] starts with [await poolReady]. *)
Definition awaits_pool (m : Mode) : bool :=
  match m with
  | mssql | oracle => true
  | demo | postgresql => false
  end.

Inductive Event :=
| ConnectOk        (* [sql.connect] or [oracledb.createPool] fulfils *)
| ConnectFail      (* it rejects *)
| ProbeOk          (* [pool.query('SELECT 1')] fulfils *)
| ProbeFail        (* it rejects *)
| Query (c : Call) (* a caller calls [query] *).

(** The calls suspended at [await poolReady] go on, in order. *)
Definition resume (st : State) : State :=
  {| selected := selected st; mode := mode st; pool := pool st;
     poolReady := poolReady st; probe := probe st; waiting := [];
     log := log st ++ map (fun c => (c, query_body st c)) (waiting st) |}.

(** One event; [None] when it cannot happen in [st]. *)
Definition step (st : State) (ev : Event) : option State :=
  match ev with
  | ConnectOk =>
      if awaits_pool (selected st) && negb (poolReady st) then
        Some (resume {| selected := selected st; mode := mode st; pool := true;
                        poolReady := true; probe := probe st;
                        waiting := waiting st; log := log st |})
      else None
  | ConnectFail =>
      if awaits_pool (selected st) && negb (poolReady st) then
        Some (resume {| selected := selected st; mode := demo; pool := pool st;
                        poolReady := true; probe := probe st;
                        waiting := waiting st; log := log st |})
      else None
  | ProbeOk =>
      if mode_eqb (selected st) postgresql && negb (probe st) then
        Some {| selected := selected st; mode := mode st; pool := pool st;
                poolReady := poolReady st; probe := true;
                waiting := waiting st; log := log st |}
      else None
  | ProbeFail =>
      if mode_eqb (selected st) postgresql && negb (probe st) then
        Some {| selected := selected st; mode := demo; pool := pool st;
                poolReady := poolReady st; probe := true;
                waiting := waiting st; log := log st |}
      else None
  | Query c =>
      if awaits_pool (selected st) && negb (poolReady st) then
        Some {| selected := selected st; mode := mode st; pool := pool st;
                poolReady := poolReady st; probe := probe st;
                waiting := waiting st ++ [c]; log := log st |}
      else
        Some {| selected := selected st; mode := mode st; pool := pool st;
                poolReady := poolReady st; probe := probe st;
                waiting := waiting st;
                log := log st ++ [(c, query_body st c)] |}
  end.

(** A sequence of events. *)
Fixpoint steps (st : State) (evs : list Event) : option State :=
  match evs with
  | [] => Some st
  | ev :: evs' =>
      match step st ev with
      | Some st' => steps st' evs'
      | None => None
      end
  end.

End Lifecycle.

(** ** Notions the statements are written with *)

Module Spec.
Import Chars Regex.

(** [m] is the literal [l], up to case under the [i] flag. *)
Definition lit_eq (ci : bool) (l m : jsstring) : Prop :=
  Forall2 (fun a b => char_eq ci a b = true) l m.

(** The texts a sequence of items matches, without the captures. *)
Fixpoint shape (ci : bool) (re : list item) (m : jsstring) : Prop :=
  match re with
  | [] => m = []
  | Lit l :: re' =>
      exists a b, m = a ++ b /\ lit_eq ci l a /\ shape ci re' b
  | Many0 k :: re' =>
      exists a b, m = a ++ b /\ forallb (in_class k) a = true /\ shape ci re' b
  | Many1 k :: re' | Cap1 k :: re' =>
      exists a b, m = a ++ b /\ a <> [] /\ forallb (in_class k) a = true
                  /\ shape ci re' b
  end.

(** A sequence of items that reads at least one character. *)
Definition reads_one (re : list item) : bool :=
  existsb (fun it => match it with
                     | Lit (_ :: _) | Many1 _ | Cap1 _ => true
                     | _ => false
                     end) re.

(** The 256 code units of the model. *)
Definition all_chars : list ascii := map ascii_of_nat (seq 0 256).

(** No character of class [k] can start what the items [re] match: a
    quantifier over [k] followed by [re] never gains by giving a character
    back. *)
Definition rejects (ci : bool) (k : cclass) (re : list item) : bool :=
  match re with
  | Lit (a :: _) :: _ =>
      forallb (fun c => negb (in_class k c && char_eq ci a c)) all_chars
  | Many1 k' :: _ | Cap1 k' :: _ =>
      forallb (fun c => negb (in_class k c && in_class k' c)) all_chars
  | _ => false
  end.

(** Patterns on which the matcher never has to back off: every quantifier
    is last, or followed by something none of its characters can start. *)
Fixpoint backtrack_free (ci : bool) (re : list item) : bool :=
  match re with
  | [] => true
  | Lit _ :: re' => backtrack_free ci re'
  | Many0 k :: re' | Many1 k :: re' | Cap1 k :: re' =>
      (match re' with [] => true | _ => rejects ci k re' end)
      && backtrack_free ci re'
  end.

(** Matching with the longest run taken at every quantifier, no backing
    off. *)
Fixpoint run_max (ci : bool) (re : list item) (s : jsstring)
         (caps : list jsstring) : option result :=
  match re with
  | [] => Some (caps, s)
  | Lit l :: re' =>
      match strip ci l s with
      | Some rest => run_max ci re' rest caps
      | None => None
      end
  | Many0 k :: re' => run_max ci re' (snd (span (in_class k) s)) caps
  | Many1 k :: re' =>
      match fst (span (in_class k) s) with
      | [] => None
      | _ :: _ => run_max ci re' (snd (span (in_class k) s)) caps
      end
  | Cap1 k :: re' =>
      match fst (span (in_class k) s) with
      | [] => None
      | _ :: _ =>
          run_max ci re' (snd (span (in_class k) s))
                  (caps ++ [fst (span (in_class k) s)])
      end
  end.

(** [l] is read at the front of [s]. *)
Fixpoint prefix_of (ci : bool) (l s : jsstring) : bool :=
  match l with
  | [] => true
  | a :: l' =>
      match s with
      | b :: s' => char_eq ci a b && prefix_of ci l' s'
      | [] => false
      end
  end.

(** [l] occurs somewhere in [s]. *)
Fixpoint occurs (ci : bool) (l s : jsstring) : bool :=
  prefix_of ci l s ||
  match s with
  | [] => false
  | _ :: t => occurs ci l t
  end.

(** No character of [l] is one of [pre], up to case under [ci]. *)
Definition apart (ci : bool) (l pre : jsstring) : bool :=
  forallb (fun x => forallb (fun a => negb (char_eq ci a x)) l) pre.

(** The placeholder rewrite in the words of the specification: a [$] that
    a digit follows becomes [pre], every other character stays. *)
Fixpoint ph_spec (pre s : jsstring) : jsstring :=
  match s with
  | [] => []
  | c :: t =>
      if Ascii.eqb c "$" && match t with d :: _ => is_digit d | [] => false end
      then pre ++ ph_spec pre t
      else c :: ph_spec pre t
  end.

(** The characters of a number in decimal notation. *)
Definition plain (c : ascii) : bool := is_digit c || Ascii.eqb c "-".

(** The character of the canonical placeholders. *)
Definition is_dollar (c : ascii) : bool := Ascii.eqb c "$".

(** With the prefix [:] the placeholder rewrite works character by
    character. *)
Definition colon_char (c : ascii) (t : jsstring) : ascii :=
  if Ascii.eqb c "$" && match t with d :: _ => is_digit d | [] => false end
  then ":"%char else c.

(** The next character, if any, is outside the class [p]. *)
Definition stops (p : ascii -> bool) (s : jsstring) : Prop :=
  match s with [] => True | c :: _ => p c = false end.

End Spec.

Module PaginationSpec.
Import Chars Regex Js Db.


(** The template of lines 44 to 47 before and after [${sql}]. *)
Definition wrap_head : jsstring :=
  lit "SELECT * FROM (" ++ nl ++ lit "      SELECT a.*, ROWNUM rn FROM (".

Definition wrap_tail (upper lower : JsVal) : jsstring :=
  lit ") a" ++ nl ++ lit "      WHERE ROWNUM <= " ++ ToString upper ++ nl
  ++ lit "    ) WHERE rn > " ++ ToString lower.

(** The suffixes of a text, the empty one left out. *)
Fixpoint tails (s : jsstring) : list jsstring :=
  match s with
  | [] => []
  | _ :: t => s :: tails t
  end.

(** The literal [l] and the text [u] differ at a position both have. *)
Fixpoint clash (ci : bool) (l u : jsstring) : bool :=
  match l, u with
  | a :: l', b :: u' => if char_eq ci a b then clash ci l' u' else true
  | _, _ => false
  end.

(** The text and the binds of the scenario of the specification. *)
Definition scenario_text : jsstring :=
  lit "SELECT * FROM t WHERE name ILIKE $1 LIMIT $2 OFFSET $3".

Definition scenario_binds : list JsVal :=
  [JStr (lit "%abc%"); JNum 5; JNum 10].

End PaginationSpec.

Module ComparisonSpec.
Import Chars Regex Js Db Spec.

(** The case-insensitive operator of the canonical dialect. *)
Definition kw_ilike : jsstring := lit "ILIKE".

(** [m] is the literal [l], up to case under [ci]. *)
Fixpoint same (ci : bool) (l m : jsstring) : bool :=
  match l, m with
  | [], [] => true
  | a :: l', b :: m' => char_eq ci a b && same ci l' m'
  | _, _ => false
  end.

Definition starts_space (s : jsstring) : bool :=
  match s with
  | c :: _ => is_space c
  | [] => false
  end.

Fixpoint ends_space (s : jsstring) : bool :=
  match s with
  | [] => false
  | c :: t => match t with [] => is_space c | _ :: _ => ends_space t end
  end.

Definition empty (s : jsstring) : bool :=
  match s with [] => true | _ :: _ => false end.

(** A token: a run of characters that are not white space, not empty. *)
Definition token (s : jsstring) : bool := negb (empty s) && forallb is_nonspace s.

(** A run of white space, not empty. *)
Definition blank (s : jsstring) : bool := negb (empty s) && forallb is_space s.

(** One case-insensitive comparison in a text: a token, the operator and a
    token, with the white space that parts them. *)
Record Comparison := {
  left_operand : jsstring;
  gap_before : jsstring;
  operator : jsstring;
  gap_after : jsstring;
  right_operand : jsstring
}.

Definition comparison_text (c : Comparison) : jsstring :=
  left_operand c ++ gap_before c ++ operator c ++ gap_after c ++ right_operand c.

(** The operands are tokens, the operator is [ILIKE] in any case, and the
    left operand is not itself the operator. *)
Definition comparison_ok (c : Comparison) : bool :=
  token (left_operand c) && negb (same true kw_ilike (left_operand c))
  && blank (gap_before c) && same true kw_ilike (operator c)
  && blank (gap_after c) && token (right_operand c).

(** A text with comparisons in it: each comparison, shown by [render], with
    the text that goes before it, and the text after the last one. *)
Fixpoint assemble (render : Comparison -> jsstring)
         (parts : list (jsstring * Comparison)) (post : jsstring) : jsstring :=
  match parts with
  | [] => post
  | (sep, c) :: parts' => sep ++ render c ++ assemble render parts' post
  end.

(** The text before a comparison has no operator in it and sets the
    comparison apart: it ends with white space (before the first
    comparison it may be empty) and, between two comparisons, starts with
    white space. *)
Definition before_ok (first : bool) (sep : jsstring) : bool :=
  negb (occurs true kw_ilike sep)
  && (if first then empty sep || ends_space sep
      else starts_space sep && ends_space sep).

Fixpoint parts_ok (first : bool) (parts : list (jsstring * Comparison)) : bool :=
  match parts with
  | [] => true
  | (sep, c) :: parts' =>
      before_ok first sep && comparison_ok c && parts_ok false parts'
  end.

(** The text after the last comparison. *)
Definition after_ok (post : jsstring) : bool :=
  negb (occurs true kw_ilike post) && (empty post || starts_space post).

(** What line 34 and line 70 make of one comparison. *)
Definition oracle_comparison (c : Comparison) : jsstring :=
  lit "UPPER(" ++ left_operand c ++ lit ") LIKE UPPER(" ++ right_operand c
  ++ lit ")".

Definition mssql_comparison (c : Comparison) : jsstring :=
  left_operand c ++ lit " LIKE " ++ right_operand c.

(** The placeholder rewrite, applied to the operands of a comparison and to
    the text before each comparison. *)
Definition ph_comparison (pre : jsstring) (c : Comparison) : Comparison :=
  {| left_operand := ph_spec pre (left_operand c);
     gap_before := gap_before c;
     operator := operator c;
     gap_after := gap_after c;
     right_operand := ph_spec pre (right_operand c) |}.

Definition ph_parts (pre : jsstring) (parts : list (jsstring * Comparison))
  : list (jsstring * Comparison) :=
  map (fun p => (ph_spec pre (fst p), ph_comparison pre (snd p))) parts.

(** The keyword of the pagination clause and the count aggregate. *)
Definition kw_limit : jsstring := lit "LIMIT".
Definition kw_count : jsstring := lit "COUNT".

(** The comparison of the scenario of the specification, with the text
    before it. *)
Definition scenario_parts : list (jsstring * Comparison) :=
  [(lit "SELECT * FROM t WHERE ",
    {| left_operand := lit "name"; gap_before := lit " ";
       operator := lit "ILIKE"; gap_after := lit " ";
       right_operand := lit "$1" |})].

(** A text with two comparisons. *)
Definition two_comparisons : list (jsstring * Comparison) :=
  [(lit "SELECT * FROM t WHERE ",
    {| left_operand := lit "a"; gap_before := lit " "; operator := lit "ILIKE";
       gap_after := lit " "; right_operand := lit "$1" |});
   (lit " AND ",
    {| left_operand := lit "b"; gap_before := lit " "; operator := lit "ilike";
       gap_after := lit "  "; right_operand := lit "$2" |})].

(** The canonical pagination clause, set apart from the text before it by
    the white space [sp], and the form line 31 gives it. *)
Definition canonical_clause (mark sp w1 d1 w2 w3 d2 : jsstring) : jsstring :=
  sp ++ lit "LIMIT" ++ w1 ++ mark ++ d1 ++ w2 ++ lit "OFFSET" ++ w3 ++ mark ++ d2.

(** A run of decimal digits, not empty. *)
Definition digits (s : jsstring) : bool := negb (empty s) && forallb is_digit s.

End ComparisonSpec.

Module LifecycleSpec.
Import Chars Js Db Lifecycle.

(** The state PostgreSQL mode starts in, and what a failed probe makes of
    it. *)
Definition pg_start : State :=
  {| selected := postgresql; mode := postgresql; pool := true;
     poolReady := true; probe := false; waiting := []; log := [] |}.

Definition pg_demoted : State :=
  {| selected := postgresql; mode := demo; pool := true;
     poolReady := true; probe := true; waiting := []; log := [] |}.

(** The calls among a sequence of events. *)
Fixpoint calls_of (evs : list Event) : list Call :=
  match evs with
  | [] => []
  | Query c :: evs' => c :: calls_of evs'
  | _ :: evs' => calls_of evs'
  end.

(** What holds of the states of the SQL Server and the Oracle branch. *)
Definition waits_inv (st : State) : Prop :=
  if poolReady st
  then waiting st = []
       /\ (mode st = demo -> Forall (fun co => snd co = Empty) (log st))
       /\ (mode st <> demo -> pool st = true)
       /\ Forall (fun co => snd co <> NoPool) (log st)
  else log st = [] /\ mode st <> demo /\ pool st = false.

(** What a call came to is what the body of [query] gives in the final
    state: once [poolReady] is settled, [mode] and [pool] stay as they
    are. *)
Definition log_inv (st : State) : Prop :=
  Forall (fun co => snd co = query_body st (fst co)) (log st).

(** A call in the demoted PostgreSQL state. *)
Definition probe_call : Call :=
  {| c_text := lit "SELECT 1"; c_params := None |}.

(** An environment that selects SQL Server, the state the module starts
    in, and the state after a call made while the connection is pending and
    the connection then failing. *)
Definition mssql_env : Env :=
  fun name => if String.eqb name "MSSQL_SERVER" then Some "db"%string else None.

Definition mssql_start : State :=
  {| selected := mssql; mode := mssql; pool := false;
     poolReady := false; probe := true; waiting := []; log := [] |}.

Definition mssql_failed : State :=
  {| selected := mssql; mode := demo; pool := false;
     poolReady := true; probe := true; waiting := [];
     log := [(probe_call, Empty)] |}.

End LifecycleSpec.

(** ** Notions for the binds *)

Module BindsSpec.
Import Chars Js Spec ComparisonSpec.

(** [l] is [m] with some elements left out, the order kept. *)
Inductive Subseq {A : Type} : list A -> list A -> Prop :=
| Subseq_nil : Subseq [] []
| Subseq_skip x l m : Subseq l m -> Subseq l (x :: m)
| Subseq_keep x l m : Subseq l m -> Subseq (x :: l) (x :: m).

(** The bind position a placeholder number names, for [parseInt] of the
    number: one less. *)
Definition position (n : option Z) : option Z := option_map (fun z => z - 1)%Z n.

(** A bind position that no bind of [ps] has. *)
Definition out_of_range (ps : list JsVal) (n : Z) : Prop :=
  (n < 1 \/ Z.of_nat (List.length ps) < n)%Z.

(** Whether the position [x] is still to come at position [from]. *)
Definition ahead (from : nat) (x : option Z) : nat :=
  match x with
  | Some z => if (Z.of_nat from <=? z)%Z then 1 else 0
  | None => 0
  end.

(** The text after the last comparison of a canonical text; when the text
    has no comparison at all, the whole of it: any text without the
    operator. *)
Definition tail_ok (parts : list (jsstring * Comparison)) (post : jsstring) : bool :=
  match parts with
  | [] => negb (occurs true kw_ilike post)
  | _ :: _ => after_ok post
  end.

(** The count aggregate up to its parenthesis. *)
Definition kw_count_paren : jsstring := lit "COUNT(".

End BindsSpec.

(** ** The bodies of [query], past the mode check *)

Module QueryBody.
Import Chars Js Db Normalizer Lifecycle.

(** How a promise settles. *)
Inductive Settled (A : Type) :=
| Fulfilled (a : A)
| Rejected (reason : jsstring).

Arguments Fulfilled {A} a.
Arguments Rejected {A} reason.

(** The rows of a result: row objects with values of the database. *)
Definition Rows := list (Row JsVal).

(** [result.recordset || []] and [result.rows || []]: the property may be
    missing. *)
Definition or_empty (rows : option Rows) : Rows :=
  match rows with
  | Some r => r
  | None => []
  end.

(** [filteredParams.forEach((val, i) => { request.input(`p${i + 1}`, val); })],
    lines 149 to 151: the calls of [request.input], in order. *)
Fixpoint input_from (from : nat) (a : list JsVal) : entries :=
  match a with
  | [] => []
  | v :: a' => (lit "p" ++ dec (Z.of_nat from + 1), v) :: input_from (S from) a'
  end.

Definition request_inputs (q : MssqlQuery) : entries :=
  match m_filteredParams q with
  | Some fp => input_from 0 fp
  | None => []
  end.

(** The SQL Server branch, lines 145 to 155.  [run] is what
    [request.query] comes to, for a text and the inputs of the request. *)
Definition mssql_query (run : jsstring -> entries -> Settled (option Rows))
           (text : jsstring) (params : option (list JsVal)) : Settled Rows :=
  let q := translateToMssql text (Some (spread params)) in
  match run (m_sql q) (request_inputs q) with
  | Fulfilled recordset => Fulfilled (lowercaseKeys (or_empty recordset))
  | Rejected e => Rejected e
  end.





End QueryBody.

(** ** States of the branches without a pending connection *)

Module PassthroughSpec.
Import Chars Js Db Lifecycle LifecycleSpec.

(** The PostgreSQL branch after a call, the probe failing and a second
    call. *)
Definition pg_after : State :=
  {| selected := postgresql; mode := demo; pool := true;
     poolReady := true; probe := true; waiting := [];
     log := [(probe_call, PgQuery (lit "SELECT 1") None);
             (probe_call, PgQuery (lit "SELECT 1") None)] |}.

(** An environment that forces demo mode, the state the module starts in
    and the state after two calls. *)
Definition demo_env : Env :=
  fun name => if String.eqb name "DEMO_MODE" then Some "true"%string
              else if String.eqb name "MSSQL_SERVER" then Some "db"%string
              else None.

Definition demo_start : State :=
  {| selected := demo; mode := demo; pool := false;
     poolReady := true; probe := true; waiting := []; log := [] |}.

Definition demo_after : State :=
  {| selected := demo; mode := demo; pool := false;
     poolReady := true; probe := true; waiting := [];
     log := [(probe_call, Empty); (probe_call, Empty)] |}.

End PassthroughSpec.

(** ** More of the standard library of the language *)

Module Es.
Import Chars Js.

(** [s.trimStart()], [s.trimEnd()] and [s.trim()]: the white space of
    [trim] is the white space of [\s]. *)
Fixpoint trimStart (s : jsstring) : jsstring :=
  match s with
  | c :: t => if is_space c then trimStart t else s
  | [] => []
  end.

Definition trimEnd (s : jsstring) : jsstring := rev (trimStart (rev s)).

Definition trim (s : jsstring) : jsstring := trimEnd (trimStart s).

(** [s.split(sep)] for a separator of one character. *)
Fixpoint split (sep : ascii) (s : jsstring) : list jsstring :=
  match s with
  | [] => [[]]
  | c :: t =>
      if Ascii.eqb c sep then [] :: split sep t
      else match split sep t with
           | h :: r => (c :: h) :: r
           | [] => [[c]]
           end
  end.

(** [a.join(sep)] for an array of strings. *)
Fixpoint join (sep : jsstring) (a : list jsstring) : jsstring :=
  match a with
  | [] => []
  | [x] => x
  | x :: a' => x ++ sep ++ join sep a'
  end.

(** [s.toUpperCase()], code unit by code unit.  The result is given by its
    code units, three of which leave the range of the model: the sharp s
    becomes [SS], the micro sign and the y with diaeresis have their upper
    case above 255. *)
Definition upper_char (c : ascii) : list N :=
  if between 97 122 c then [(code c - 32)%N]
  else if (code c =? 223)%N then [83%N; 83%N]
  else if (code c =? 181)%N then [924%N]
  else if (code c =? 255)%N then [376%N]
  else if between 224 254 c && negb (code c =? 247)%N then [(code c - 32)%N]
  else [code c].

Definition toUpperCase (s : jsstring) : list N := flat_map upper_char s.

(** [u === 'lit'] for a result of [toUpperCase]. *)
Definition is_text (u : list N) (l : jsstring) : bool :=
  if list_eq_dec N.eq_dec u (map code l) then true else false.

(** The value of a digit in a radix up to 36, if it is one. *)
Definition digit_in (radix : Z) (c : ascii) : option Z :=
  let v := (if is_digit c then Z.of_N (code c) - 48
            else if between 97 122 c then Z.of_N (code c) - 87
            else if between 65 90 c then Z.of_N (code c) - 55
            else radix)%Z in
  if (v <? radix)%Z then Some v else None.

Definition is_digit_in (radix : Z) (c : ascii) : bool :=
  match digit_in radix c with
  | Some _ => true
  | None => false
  end.

(** [parseInt(s)], no radix given: white space at the front is skipped, a
    sign is read, then [0x] or [0X] for radix 16, then the longest run of
    digits of the radix; [None], NaN, when the run is empty.  (A result of
    [-0] is the integer 0; the value is the integer the digits write,
    which is the number of the language up to [isSafeInteger].) *)
Definition parseInt (s : jsstring) : option Z :=
  let s := trimStart s in
  let negative := match s with
                  | c :: _ => Ascii.eqb c "-"
                  | [] => false
                  end in
  let s := match s with
           | c :: t => if Ascii.eqb c "+" || Ascii.eqb c "-" then t else s
           | [] => s
           end in
  let hex := match s with
             | c0 :: c1 :: _ =>
                 Ascii.eqb c0 "0" && (Ascii.eqb c1 "x" || Ascii.eqb c1 "X")
             | _ => false
             end in
  let radix := if hex then 16%Z else 10%Z in
  let s := if hex then skipn 2 s else s in
  match fst (span (is_digit_in radix) s) with
  | [] => None
  | ds =>
      let value :=
        fold_left (fun acc c =>
                     match digit_in radix c with
                     | Some v => radix * acc + v
                     | None => acc
                     end)%Z ds 0%Z in
      Some (if negative then - value else value)%Z
  end.

(** [Number.isSafeInteger(z)]: the integers a double holds exactly.  Up to
    these the integers of the model are the numbers of the language; past
    them [parseInt] and the arithmetic of the language round to a double,
    which the model does not. *)
Definition isSafeInteger (z : Z) : bool := (Z.abs z <? 2 ^ 53)%Z.

(** A value the model writes as the language does: any value that is not a
    number, and among the numbers the integers a double holds exactly (past
    them [Number.prototype.toString] rounds the digits, and from [1e21] on
    it writes an exponent). *)
Definition exact_value (v : JsVal) : bool :=
  match v with
  | JNum z => isSafeInteger z
  | _ => true
  end.

(** [x || d] for a number [x]: [d] when [x] is NaN or zero. *)
Definition or_number (x : option Z) (d : Z) : Z :=
  match x with
  | Some z => if (z =? 0)%Z then d else z
  | None => d
  end.

(** A position given to [slice], brought into the array: counted from the
    end when negative. *)
Definition relative (len i : Z) : Z :=
  if (i <? 0)%Z then Z.max (len + i) 0 else Z.min i len.

(** [a.slice(start, end)] for two integers. *)
Definition slice {A : Type} (a : list A) (start stop : Z) : list A :=
  let len := Z.of_nat (List.length a) in
  let k := relative len start in
  let final := relative len stop in
  firstn (Z.to_nat (final - k)) (skipn (Z.to_nat k) a).

(** [Math.ceil(a / b)] for two integers, [b] positive. *)
Definition ceil_div (a b : Z) : Z := (- ((- a) / b))%Z.

End Es.

(** ** Pages, in both routes *)

Module Paging.
Import Chars Js.

(** A parameter of the query string: given once, a string; not given,
    [undefined]. *)
Definition Param := option jsstring.

(** [ToString] of a parameter. *)
Definition param_text (p : Param) : jsstring :=
  match p with
  | Some s => s
  | None => lit "undefined"
  end.

(** What [parseInt] reads from a parameter is NaN or an integer a double
    holds exactly: the parameters on which the integers of the model are
    the numbers of the handlers. *)
Definition param_exact (p : Param) : bool :=
  match Es.parseInt (param_text p) with
  | Some z => Es.isSafeInteger z
  | None => true
  end.

(** [Math.max(0, parseInt(req.query.pageNumber) || 0)], on the parameters
    of [param_exact]: past them [parseInt] rounds to a double, or gives
    [Infinity], which the model does not. *)
Definition pageNumber (p : Param) : Z :=
  Z.max 0 (Es.or_number (Es.parseInt (param_text p)) 0).

(** [Math.min(100, Math.max(1, parseInt(req.query.pageSize) || 10))], on
    the parameters of [param_exact]. *)
Definition pageSize (p : Param) : Z :=
  Z.min 100 (Z.max 1 (Es.or_number (Es.parseInt (param_text p)) 10)).

(** The [resultSummary] of a list response. *)
Record Summary := {
  totalCount : Z;
  s_pageNumber : Z;
  s_pageSize : Z;
  totalPages : Z
}.

(** The demo branch of the list handlers past filtering and sorting, and
    the summary of the response: the page cut out of the filtered
    records. *)
Definition demo_page {A : Type} (filtered : list A) (number size : Param)
  : Summary * list A :=
  let pageNumber := pageNumber number in
  let pageSize := pageSize size in
  let totalCount := Z.of_nat (List.length filtered) in
  let items := Es.slice filtered (pageNumber * pageSize)
                        ((pageNumber + 1) * pageSize) in
  ({| totalCount := totalCount;
      s_pageNumber := pageNumber;
      s_pageSize := pageSize;
      totalPages := Es.ceil_div totalCount pageSize |}, items).

End Paging.

(** ** The list handler of routes/water-system.js, database branch *)

(** The line numbers of this part are those of routes/water-system.js.  A
    parameter of the query string is a string when the request gives it
    once, which is the case the model covers. *)

Module WaterSystemRoute.
Import Chars Js Db Normalizer Lifecycle Paging.

(** [req.query], the parameters the handler reads. *)
Record Request := {
  q_waterSystemId : Param;
  q_name : Param;
  q_wsStatusCode : Param;
  q_fedWSSourceCode : Param;
  q_fedWSTypeCode : Param;
  q_wsOwnerTypeCode : Param;
  q_fedPopulationFrom : Param;
  q_fedPopulationTo : Param;
  q_pageNumber : Param;
  q_pageSize : Param;
  q_sortColumns : Param;
  q_sortOrders : Param
}.

(** Lines 137 and 138. *)
Definition SCHEMA_PREFIX (env : Env) : jsstring :=
  match env "SDWIS_SCHEMA"%string with
  | Some s => if String.eqb s "" then [] else lit s ++ lit "."
  | None => []
  end.

Definition ST_CODE (env : Env) : jsstring :=
  match env "SDWIS_ST_CODE"%string with
  | Some s => if String.eqb s "" then lit "MS" else lit s
  | None => lit "MS"
  end.

(** [conditions], [params] and [paramIdx]. *)
Record Builder := {
  conditions : list jsstring;
  params : list JsVal;
  paramIdx : Z
}.

(** [conditions.push(cond); params.push(val)], with the [paramIdx++] of the
    template that makes [cond]. *)
Definition push (cond : jsstring) (val : JsVal) (b : Builder) : Builder :=
  {| conditions := conditions b ++ [cond];
     params := params b ++ [val];
     paramIdx := paramIdx b + 1 |}.

(** [if (req.query.x) { ... }]: a parameter that is given and not empty. *)
Definition when (p : Param) (body : jsstring -> Builder -> Builder)
           (b : Builder) : Builder :=
  match p with
  | Some (c :: s) => body (c :: s) b
  | _ => b
  end.

Section Handler.

(** [Number(s)] for a string: the handler hands the result to the driver
    and does nothing else with it. *)
Variable Number : jsstring -> JsVal.

(** What a template makes of [SORT_COLUMNS[name]] for a name that the
    object does not have itself but inherits from [Object.prototype]
    ([constructor], [toString], ...): inherited values are functions or
    objects, all of them truthy.  [None] for every other name. *)
Variable inherited : jsstring -> option jsstring.

(** Lines 286 to 317. *)
Definition filters (q : Request) (b : Builder) : Builder :=
  let b := when (q_waterSystemId q)
             (fun v b => push (lit "TRIM(ws.number0) LIKE $" ++ dec (paramIdx b))
                              (JStr (v ++ lit "%")) b) b in
  let b := when (q_name q)
             (fun v b => push (lit "ws.name ILIKE $" ++ dec (paramIdx b))
                              (JStr (lit "%" ++ v ++ lit "%")) b) b in
  let b := when (q_wsStatusCode q)
             (fun v b => push (lit "ws.activity_status_cd = $" ++ dec (paramIdx b))
                              (JStr v) b) b in
  let b := when (q_fedWSSourceCode q)
             (fun v b => push (lit "TRIM(ws.d_fed_prim_src_cd) = $" ++ dec (paramIdx b))
                              (JStr v) b) b in
  let b := when (q_fedWSTypeCode q)
             (fun v b => push (lit "TRIM(ws.d_pws_fed_type_cd) = $" ++ dec (paramIdx b))
                              (JStr v) b) b in
  let b := when (q_wsOwnerTypeCode q)
             (fun v b => push (lit "TRIM(ws.owner_type_code) = $" ++ dec (paramIdx b))
                              (JStr v) b) b in
  let b := when (q_fedPopulationFrom q)
             (fun v b => push (lit "ws.d_population_count >= $" ++ dec (paramIdx b))
                              (Number v) b) b in
  let b := when (q_fedPopulationTo q)
             (fun v b => push (lit "ws.d_population_count <= $" ++ dec (paramIdx b))
                              (Number v) b) b in
  b.

(** [SORT_COLUMNS[name]], as far as the handler uses it: the text of a
    value that is truthy, [None] for [null] and for [undefined]. *)
Definition SORT_COLUMNS (name : jsstring) : option jsstring :=
  if str_eqb name (lit "name") then Some (lit "name")
  else if str_eqb name (lit "waterSystemId") then Some (lit "number0")
  else if str_eqb name (lit "wsStatusCode") then Some (lit "activity_status_cd")
  else if str_eqb name (lit "fedWSTypeCode") then Some (lit "d_pws_fed_type_cd")
  else if str_eqb name (lit "fedWSSourceCode") then Some (lit "d_fed_prim_src_cd")
  else if str_eqb name (lit "fedPopulation") then Some (lit "d_population_count")
  else if str_eqb name (lit "seasonalInd") then None
  else if str_eqb name (lit "wsOwnerTypeCode") then Some (lit "owner_type_code")
  else if str_eqb name (lit "localName") then Some (lit "local_name")
  else if str_eqb name (lit "createDt") then Some (lit "d_initial_ts")
  else inherited name.

(** The loop of lines 324 to 330: [cols] from position [i] on, and
    [orders] from the same position on. *)
Fixpoint order_parts (cols orders : list jsstring) : list jsstring :=
  match cols with
  | [] => []
  | col :: cols' =>
      let order := match orders with
                   | o :: _ => o        (* [orders[i] || ''] *)
                   | [] => []
                   end in
      let rest := order_parts cols' (tl orders) in
      match SORT_COLUMNS (Es.trim col) with
      | Some ssCol =>
          let dir := if Es.is_text (Es.toUpperCase (Es.trim order)) (lit "DESC")
                     then lit "DESC" else lit "ASC" in
          (lit "ws." ++ ssCol ++ lit " " ++ dir) :: rest
      | None => rest
      end
  end.

(** Lines 319 to 332. *)
Definition orderBy (q : Request) : jsstring :=
  match q_sortColumns q with
  | Some (c :: s) =>
      let cols := Es.split "," (c :: s) in
      let orders := Es.split "," (match q_sortOrders q with
                                  | Some o => o     (* [sortOrders || ''] *)
                                  | None => []
                                  end) in
      match order_parts cols orders with
      | [] => lit "ws.name ASC"
      | parts => Es.join (lit ", ") parts
      end
  | _ => lit "ws.name ASC"
  end.

(** The builder after the filters, line 282 to line 317. *)
Definition built (env : Env) (q : Request) : Builder :=
  filters q {| conditions := [lit "ws.tinwsys_st_code = '" ++ ST_CODE env ++ lit "'"];
               params := [];
               paramIdx := 1 |}.

(** Line 334. *)
Definition where_clause (b : Builder) : jsstring :=
  match conditions b with
  | [] => []
  | _ :: _ => lit "WHERE " ++ Es.join (lit " AND ") (conditions b)
  end.

(** The first call of [db.query], lines 336 to 339. *)
Definition count_call (env : Env) (q : Request) : Call :=
  let b := built env q in
  {| c_text := lit "SELECT COUNT(*) as total FROM " ++ SCHEMA_PREFIX env
               ++ lit "tinwsys ws " ++ where_clause b;
     c_params := Some (params b) |}.

(** The second call, lines 342 to 347. *)
Definition rows_call (env : Env) (q : Request) : Call :=
  let pageNumber := pageNumber (q_pageNumber q) in
  let pageSize := pageSize (q_pageSize q) in
  let b := built env q in
  {| c_text := lit "SELECT * FROM " ++ SCHEMA_PREFIX env ++ lit "tinwsys ws "
               ++ where_clause b ++ nl
               ++ lit "         ORDER BY " ++ orderBy q ++ nl
               ++ lit "         LIMIT $" ++ dec (paramIdx b)
               ++ lit " OFFSET $" ++ dec (paramIdx b + 1);
     c_params := Some (params b ++ [JNum pageSize; JNum (pageNumber * pageSize)%Z]) |}.

End Handler.

(** The call of the handler of one water system, lines 401 to 405; the
    parameter of the path is a string. *)
Definition item_call (env : Env) (waterSystemId : jsstring) : Call :=
  {| c_text := lit "SELECT * FROM " ++ SCHEMA_PREFIX env ++ lit "tinwsys ws" ++ nl
               ++ lit "         WHERE TRIM(ws.number0) = $1 AND ws.tinwsys_st_code = '"
               ++ ST_CODE env ++ lit "'";
     c_params := Some [JStr waterSystemId] |}.

End WaterSystemRoute.

(** ** The queries of the list handler, filter by filter *)

Module WaterSystemSpec.
Import Chars Js Db Normalizer Lifecycle Paging Spec ComparisonSpec BindsSpec.
Import WaterSystemRoute.

(** A filter that a request gives: the text of its condition up to the
    placeholder, whether it is the comparison of the name, and the value it
    binds. *)
Record Filter := {
  f_before : jsstring;
  f_name : bool;
  f_value : JsVal
}.

(** A dialect: the mark of a placeholder, before its number, and the
    comparison of the name with a placeholder. *)
Record Dialect := {
  mark : jsstring;
  name_condition : jsstring -> jsstring
}.

Definition canonical : Dialect :=
  {| mark := lit "$";
     name_condition := fun ph => lit "ws.name ILIKE " ++ ph |}.

Definition sqlserver : Dialect :=
  {| mark := lit "@p";
     name_condition := fun ph => lit "ws.name LIKE " ++ ph |}.

Definition oracle11 : Dialect :=
  {| mark := lit ":";
     name_condition := fun ph => lit "UPPER(ws.name) LIKE UPPER(" ++ ph ++ lit ")" |}.

Section Plan.
Variable Number : jsstring -> JsVal.

Definition given (p : Param) (before : jsstring) (name : bool)
           (value : jsstring -> JsVal) : list Filter :=
  match p with
  | Some (c :: s) =>
      [{| f_before := before; f_name := name; f_value := value (c :: s) |}]
  | _ => []
  end.

(** The filters a request gives, in the order the handler looks at
    them. *)
Definition before_name (q : Request) : list Filter :=
  given (q_waterSystemId q) (lit "TRIM(ws.number0) LIKE ") false
        (fun v => JStr (v ++ lit "%")).

Definition the_name (q : Request) : list Filter :=
  given (q_name q) (lit "ws.name ILIKE ") true
        (fun v => JStr (lit "%" ++ v ++ lit "%")).

Definition after_name (q : Request) : list Filter :=
  given (q_wsStatusCode q) (lit "ws.activity_status_cd = ") false JStr
  ++ given (q_fedWSSourceCode q) (lit "TRIM(ws.d_fed_prim_src_cd) = ") false JStr
  ++ given (q_fedWSTypeCode q) (lit "TRIM(ws.d_pws_fed_type_cd) = ") false JStr
  ++ given (q_wsOwnerTypeCode q) (lit "TRIM(ws.owner_type_code) = ") false JStr
  ++ given (q_fedPopulationFrom q) (lit "ws.d_population_count >= ") false Number
  ++ given (q_fedPopulationTo q) (lit "ws.d_population_count <= ") false Number.

Definition plan (q : Request) : list Filter :=
  before_name q ++ the_name q ++ after_name q.

End Plan.

(** The condition of a filter in a dialect, with the number [i]. *)
Definition condition (d : Dialect) (i : Z) (f : Filter) : jsstring :=
  if f_name f then name_condition d (mark d ++ dec i)
  else f_before f ++ mark d ++ dec i.

(** The conditions of filters, numbered from [i]: as a list, and as they
    stand in the text after a first condition. *)
Fixpoint numbered (d : Dialect) (i : Z) (fs : list Filter) : list jsstring :=
  match fs with
  | [] => []
  | f :: fs' => condition d i f :: numbered d (i + 1) fs'
  end.

Fixpoint and_conditions (d : Dialect) (i : Z) (fs : list Filter) : jsstring :=
  match fs with
  | [] => []
  | f :: fs' => lit " AND " ++ condition d i f ++ and_conditions d (i + 1) fs'
  end.

(** A builder with the filters [fs] added. *)
Definition extend (b : Builder) (fs : list Filter) : Builder :=
  {| conditions := conditions b ++ numbered canonical (paramIdx b) fs;
     params := params b ++ map f_value fs;
     paramIdx := paramIdx b + Z.of_nat (List.length fs) |}.

(** The fixed parts of the texts. *)
Definition state_condition (env : Env) : jsstring :=
  lit "ws.tinwsys_st_code = '" ++ ST_CODE env ++ lit "'".

Definition select_from (what : jsstring) (env : Env) : jsstring :=
  lit "SELECT " ++ what ++ lit " FROM " ++ SCHEMA_PREFIX env ++ lit "tinwsys ws ".

Definition where_text (d : Dialect) (env : Env) (fs : list Filter) : jsstring :=
  lit "WHERE " ++ state_condition env ++ and_conditions d 1 fs.

Definition order_text (order : jsstring) : jsstring :=
  nl ++ lit "         ORDER BY " ++ order.

(** The white space before the pagination clause. *)
Definition clause_gap : jsstring := nl ++ lit "         ".

(** The text of the second call in a dialect, up to the pagination. *)
Definition rows_body (d : Dialect) (env : Env) (fs : list Filter)
           (order : jsstring) : jsstring :=
  select_from (lit "*") env ++ where_text d env fs ++ order_text order.

(** The text around the conditions of the filters: what is selected, the
    table, the condition on the state, and what comes after the
    conditions. *)
Definition framed (sel : jsstring) (env : Env) (tail : jsstring) : jsstring :=
  sel ++ (lit "FROM " ++ SCHEMA_PREFIX env ++ lit "tinwsys") ++ lit " ws "
  ++ lit "WHERE " ++ lit "ws.tinwsys_st_code = "
  ++ (lit "'" ++ ST_CODE env ++ lit "'") ++ tail.

(** The text of the query for one water system in a dialect. *)
Definition item_text (d : Dialect) (env : Env) : jsstring :=
  lit "SELECT * FROM " ++ SCHEMA_PREFIX env ++ lit "tinwsys ws" ++ nl
  ++ lit "         WHERE TRIM(ws.number0) = " ++ mark d ++ lit "1"
  ++ lit " AND ws.tinwsys_st_code = '" ++ ST_CODE env ++ lit "'".

(** The filter on the name, and its comparison in the canonical text. *)
Definition name_filter (v : JsVal) : Filter :=
  {| f_before := lit "ws.name ILIKE "; f_name := true; f_value := v |}.

Definition name_comparison (i : Z) : Comparison :=
  {| left_operand := lit "ws.name"; gap_before := lit " ";
     operator := lit "ILIKE"; gap_after := lit " ";
     right_operand := lit "$" ++ dec i |}.

(** The keywords the translators look for: the operator, the pagination
    clause and the count aggregate. *)
Definition keywords : list jsstring := [kw_ilike; kw_limit; kw_count_paren].

(** What the environment must not do to the texts: bring in a [$] or one
    of the keywords, in the name of the schema or in the code of the
    state. *)
Definition env_ok (env : Env) : bool :=
  forallb (fun c => negb (is_dollar c)) (SCHEMA_PREFIX env ++ ST_CODE env)
  && forallb (fun kw =>
                negb (occurs true kw (lit "FROM " ++ SCHEMA_PREFIX env ++ lit "tinwsys"))
                && negb (occurs true kw (lit "'" ++ ST_CODE env ++ lit "'")))
             keywords.

(** The conditions of the filters, up to the placeholder. *)
Definition known_prefixes : list jsstring :=
  [lit "TRIM(ws.number0) LIKE "; lit "ws.activity_status_cd = ";
   lit "TRIM(ws.d_fed_prim_src_cd) = "; lit "TRIM(ws.d_pws_fed_type_cd) = ";
   lit "TRIM(ws.owner_type_code) = "; lit "ws.d_population_count >= ";
   lit "ws.d_population_count <= "].

(** A filter other than the comparison of the name. *)
Definition plain_filter (f : Filter) : bool :=
  negb (f_name f) && existsb (str_eqb (f_before f)) known_prefixes.

(** The marks of the three dialects. *)
Definition marks : list jsstring := [lit "$"; lit "@p"; lit ":"].

(** The columns a request can sort by and the parts of an [ORDER BY] they
    give. *)
Definition sort_columns : list jsstring :=
  [lit "name"; lit "number0"; lit "activity_status_cd"; lit "d_pws_fed_type_cd";
   lit "d_fed_prim_src_cd"; lit "d_population_count"; lit "owner_type_code";
   lit "local_name"; lit "d_initial_ts"].

Definition sort_parts : list jsstring :=
  flat_map (fun col => [lit "ws." ++ col ++ lit " ASC";
                        lit "ws." ++ col ++ lit " DESC"]) sort_columns.

(** The other fixed parts of the texts of the handlers. *)
Definition fixed_parts : list jsstring :=
  [lit "SELECT * "; lit " ws "; lit "WHERE "; lit "ws.tinwsys_st_code = ";
   lit " AND "; order_text []; lit "ws.name ASC"; lit "ws.name ";
   lit " ws" ++ clause_gap ++ lit "WHERE "; lit "TRIM(ws.number0) = "].

(** What makes a keyword easy to keep track of in the texts of the
    handler: it has no white space in it, it does not start with a digit or
    with a character of a mark, and it is not in any of the fixed parts of
    the texts. *)
Definition kw_fits (kw : jsstring) : bool :=
  forallb (fun c => negb (is_space c)
                    || forallb (fun k => negb (char_eq true k c)) kw) all_chars
  && match kw with
     | [] => false
     | k :: _ =>
         forallb (fun c => negb (char_eq true k c))
                 (lit "$@p:0123456789-)'UPER(")
     end
  && forallb (fun p => negb (occurs true kw p)) (known_prefixes ++ fixed_parts)
  && forallb (fun p => negb (occurs true kw (p ++ lit ", "))) sort_parts.

(** The row bounds of the page of a request are integers a double holds
    exactly. *)
Definition page_exact (q : Request) : bool :=
  Es.isSafeInteger (pageNumber (q_pageNumber q) * pageSize (q_pageSize q)
                    + pageSize (q_pageSize q)).

(** No sort column the request names is a name inherited from
    [Object.prototype]. *)
Definition sort_ok (inherited : jsstring -> option jsstring) (q : Request) : Prop :=
  match q_sortColumns q with
  | Some s => Forall (fun col => inherited (Es.trim col) = None) (Es.split "," s)
  | None => True
  end.

(** A stand-in for [Number] in the examples: the value of a decimal
    numeral, [NaN] for other texts. *)
Definition sample_number (s : jsstring) : JsVal :=
  match parseInt s with
  | Some z => if digits s then JNum z else JNaN
  | None => JNaN
  end.

(** The inherited properties left out: enough for a request that names
    none of them. *)
Definition nothing_inherited : jsstring -> option jsstring := fun _ => None.

(** An environment that names a schema and a state. *)
Definition sample_env : Env :=
  fun name => if String.eqb name "SDWIS_SCHEMA" then Some "msr30"%string
              else if String.eqb name "SDWIS_ST_CODE" then Some "TX"%string
              else None.

(** A request with three filters, a sort order and a page. *)
Definition sample_request : Request :=
  {| q_waterSystemId := Some (lit "MS03");
     q_name := Some (lit "spring");
     q_wsStatusCode := None;
     q_fedWSSourceCode := Some [];
     q_fedWSTypeCode := None;
     q_wsOwnerTypeCode := None;
     q_fedPopulationFrom := Some (lit "100");
     q_fedPopulationTo := None;
     q_pageNumber := Some (lit "2");
     q_pageSize := Some (lit "5");
     q_sortColumns := Some (lit "fedPopulation, name,bogus,seasonalInd");
     q_sortOrders := Some (lit "desc") |}.

End WaterSystemSpec.

(** * Properties *)

(** ** The matcher *)

Module RegexFacts.
Import Chars Regex Spec.

Lemma span_app (p : ascii -> bool) (s : jsstring) :
  s = fst (span p s) ++ snd (span p s).
Proof.
  induction s as [|c t IH]; simpl; auto.
  destruct (p c); simpl; auto.
  destruct (span p t) as [a b]; simpl in *. now f_equal.
Qed.

Lemma span_all (p : ascii -> bool) (s : jsstring) :
  forallb p (fst (span p s)) = true.
Proof.
  induction s as [|c t IH]; simpl; auto.
  destruct (p c) eqn:E; simpl; auto.
  destruct (span p t) as [a b]; simpl in *. now rewrite E.
Qed.

Lemma span_stop (p : ascii -> bool) (s : jsstring) c t :
  snd (span p s) = c :: t -> p c = false.
Proof.
  induction s as [|x s IH]; simpl; [discriminate|].
  destruct (p x) eqn:E.
  - destruct (span p s) as [a b]; simpl in *. auto.
  - simpl. intros H; inversion H; subst; auto.
Qed.

Lemma span_empty (p : ascii -> bool) (s : jsstring) :
  fst (span p s) = [] ->
  match s with c :: _ => p c | [] => false end = false.
Proof.
  destruct s as [|c t]; simpl; auto.
  destruct (p c); auto. destruct (span p t); simpl. discriminate.
Qed.

(** The longest run, computed on a text cut in two: the run is all of
    [a] when [a] is in the class and [b] does not go on. *)
Lemma span_run (p : ascii -> bool) (a b : jsstring) :
  forallb p a = true ->
  match b with [] => True | c :: _ => p c = false end ->
  span p (a ++ b) = (a, b).
Proof.
  intros Ha Hb. induction a as [|x a IH]; simpl in *.
  - destruct b as [|c b]; simpl; auto. now rewrite Hb.
  - apply andb_true_iff in Ha as [Hx Ha]. rewrite Hx, (IH Ha). reflexivity.
Qed.

Lemma strip_inv ci l s rest :
  strip ci l s = Some rest ->
  exists m, s = m ++ rest /\ lit_eq ci l m.
Proof.
  revert s. induction l as [|a l IH]; simpl; intros s H.
  - inversion H; subst. exists []. split; auto. constructor.
  - destruct s as [|b s]; [discriminate|].
    destruct (char_eq ci a b) eqn:E; [|discriminate].
    destruct (IH _ H) as (m & -> & Hm).
    exists (b :: m). split; auto. constructor; auto.
Qed.

Lemma strip_lit ci l m rest :
  lit_eq ci l m -> strip ci l (m ++ rest) = Some rest.
Proof.
  induction 1 as [|a b l m Hab _ IH]; simpl; auto. now rewrite Hab.
Qed.

Lemma lit_eq_length ci l m : lit_eq ci l m -> List.length m = List.length l.
Proof. induction 1; simpl; auto. Qed.

Lemma greedy_inv p s k r :
  greedy p s k = Some r ->
  exists a b, s = a ++ b /\ forallb p a = true /\ k a b = Some r.
Proof.
  revert k. induction s as [|c t IH]; simpl; intros k H.
  - exists [], []. auto.
  - destruct (p c) eqn:E.
    + destruct (greedy p t (fun run rest => k (c :: run) rest)) eqn:G.
      * inversion H; subst.
        destruct (IH _ G) as (a & b & -> & Ha & Hk).
        exists (c :: a), b. simpl. rewrite E, Ha. auto.
      * exists [], (c :: t). auto.
    + exists [], (c :: t). auto.
Qed.

(** The longest run is the only split that can succeed when the
    continuation refuses whatever starts in the class. *)
Lemma greedy_reject p s k :
  (forall taken c t, p c = true -> k taken (c :: t) = None) ->
  greedy p s k = k (fst (span p s)) (snd (span p s)).
Proof.
  revert k. induction s as [|c t IH]; simpl; intros k Hk; auto.
  destruct (p c) eqn:E; simpl; auto.
  rewrite IH by (intros; apply Hk; auto).
  destruct (span p t) as [a b]; simpl.
  destruct (k (c :: a) b) eqn:K; auto.
Qed.

(** The longest run is the split taken when the continuation accepts any
    run that is not empty. *)
Lemma greedy_total p s k :
  (forall taken rest, taken <> [] -> k taken rest <> None) ->
  greedy p s k = k (fst (span p s)) (snd (span p s)).
Proof.
  revert k. induction s as [|c t IH]; simpl; intros k Hk; auto.
  destruct (p c) eqn:E; simpl; auto.
  rewrite IH by (intros; apply Hk; discriminate).
  destruct (span p t) as [a b]; simpl.
  destruct (k (c :: a) b) eqn:K; auto.
  exfalso. apply (Hk (c :: a) b); [discriminate | assumption].
Qed.

Lemma all_chars_in (c : ascii) : In c all_chars.
Proof.
  unfold all_chars. rewrite <- (ascii_nat_embedding c).
  apply in_map, in_seq. pose proof (nat_ascii_bounded c). lia.
Qed.

Lemma rejects_head ci k re c t caps :
  rejects ci k re = true -> in_class k c = true ->
  run ci re (c :: t) caps = None.
Proof.
  intros R Hc.
  destruct re as [|[[|a l]|k'|k'|k'] re']; unfold rejects in R;
    try discriminate;
    rewrite forallb_forall in R; specialize (R c (all_chars_in c));
    rewrite Hc in R; cbn [andb] in R; apply negb_true_iff in R;
    cbn [run strip greedy]; now rewrite R.
Qed.

(** On a pattern that is [backtrack_free] the backtracking matcher does
    what the one that always takes the longest run does. *)
Lemma run_backtrack_free ci re :
  backtrack_free ci re = true ->
  forall s caps, run ci re s caps = run_max ci re s caps.
Proof.
  induction re as [|it re IH]; simpl; intros B s caps; auto.
  destruct it as [l|k|k|k].
  - destruct (strip ci l s); auto.
  - apply andb_true_iff in B as [R B].
    destruct re as [|it' re'].
    + rewrite greedy_total; [reflexivity | intros; simpl; discriminate].
    + rewrite greedy_reject; [apply IH; auto|].
      intros; eapply rejects_head; eauto.
  - apply andb_true_iff in B as [R B].
    destruct re as [|it' re'].
    + rewrite greedy_total.
      * destruct (fst (span (in_class k) s)); auto.
      * intros [|x taken] rest; simpl; [congruence | discriminate].
    + rewrite greedy_reject.
      * destruct (fst (span (in_class k) s)); auto.
      * intros [|x taken] c t Hc; auto. eapply rejects_head; eauto.
  - apply andb_true_iff in B as [R B].
    destruct re as [|it' re'].
    + rewrite greedy_total.
      * destruct (fst (span (in_class k) s)); auto.
      * intros [|x taken] rest; simpl; [congruence | discriminate].
    + rewrite greedy_reject.
      * destruct (fst (span (in_class k) s)); auto.
      * intros [|x taken] c t Hc; auto. eapply rejects_head; eauto.
Qed.

(** What the matcher read has the shape of the pattern. *)
Lemma run_sound ci re :
  forall s caps caps' rest,
    run ci re s caps = Some (caps', rest) ->
    exists m, s = m ++ rest /\ shape ci re m.
Proof.
  induction re as [|it re IH]; simpl; intros s caps caps' rest H.
  - inversion H; subst. exists []. auto.
  - destruct it as [l|k|k|k].
    + destruct (strip ci l s) as [s1|] eqn:S; [|discriminate].
      destruct (strip_inv _ _ _ _ S) as (a & -> & La).
      destruct (IH _ _ _ _ H) as (b & -> & Sb).
      exists (a ++ b). rewrite app_assoc. split; auto. exists a, b. auto.
    + apply greedy_inv in H as (a & s1 & -> & Ha & H).
      destruct (IH _ _ _ _ H) as (b & -> & Sb).
      exists (a ++ b). rewrite app_assoc. split; auto. exists a, b. auto.
    + apply greedy_inv in H as (a & s1 & -> & Ha & H).
      destruct a as [|x a]; [discriminate|].
      destruct (IH _ _ _ _ H) as (b & -> & Sb).
      exists ((x :: a) ++ b). rewrite app_assoc. split; auto.
      exists (x :: a), b. repeat split; auto. discriminate.
    + apply greedy_inv in H as (a & s1 & -> & Ha & H).
      destruct a as [|x a]; [discriminate|].
      destruct (IH _ _ _ _ H) as (b & -> & Sb).
      exists ((x :: a) ++ b). rewrite app_assoc. split; auto.
      exists (x :: a), b. repeat split; auto. discriminate.
Qed.

Lemma shape_reads_one ci re m :
  reads_one re = true -> shape ci re m -> m <> [].
Proof.
  revert m. induction re as [|it re IH]; simpl; intros m R S; [discriminate|].
  destruct it as [l|k|k|k]; simpl in R.
  - destruct S as (a & b & -> & La & Sb).
    destruct l as [|x l].
    + inversion La; subst. simpl. apply IH; auto.
    + inversion La; subst. discriminate.
  - destruct S as (a & b & -> & _ & Sb).
    intros E. apply app_eq_nil in E as [_ E]. revert E. apply IH; auto.
  - destruct S as (a & b & -> & Na & _).
    intros E. apply app_eq_nil in E as [E _]. auto.
  - destruct S as (a & b & -> & Na & _).
    intros E. apply app_eq_nil in E as [E _]. auto.
Qed.

Lemma exec_sound re s caps rest :
  exec re s = Some (caps, rest) ->
  exists m, s = m ++ rest /\ shape (icase re) (items re) m.
Proof. apply run_sound. Qed.

Lemma exec_shorter re s caps rest :
  reads_one (items re) = true ->
  exec re s = Some (caps, rest) ->
  List.length rest < List.length s.
Proof.
  intros R H. destruct (exec_sound _ _ _ _ H) as (m & -> & S).
  apply (shape_reads_one _ _ _ R) in S.
  rewrite length_app. destruct m; [congruence | simpl; lia].
Qed.

(** The fuel [replace_all] starts with is never used up: more of it
    changes nothing. *)
Lemma replace_all_from_fuel re repl :
  reads_one (items re) = true ->
  forall f1 f2 s,
    List.length s <= f1 -> List.length s <= f2 ->
    replace_all_from f1 re repl s = replace_all_from f2 re repl s.
Proof.
  intros R. induction f1 as [|f1 IH]; intros f2 s H1 H2.
  - destruct s; [|simpl in H1; lia]. destruct f2; reflexivity.
  - destruct s as [|c t]; [destruct f2; reflexivity|].
    destruct f2 as [|f2]; [simpl in H2; lia|].
    simpl in *. destruct (exec re (c :: t)) as [[caps rest]|] eqn:E.
    + apply (exec_shorter _ _ _ _ R) in E. simpl in E.
      f_equal. apply IH; lia.
    + f_equal. apply IH; lia.
Qed.

Lemma replace_all_nil re repl : replace_all re repl [] = [].
Proof. reflexivity. Qed.

(** The step of a global replacement. *)
Lemma replace_all_cons re repl c t :
  reads_one (items re) = true ->
  replace_all re repl (c :: t) =
  match exec re (c :: t) with
  | Some (caps, rest) => repl caps ++ replace_all re repl rest
  | None => c :: replace_all re repl t
  end.
Proof.
  intros R. unfold replace_all. simpl.
  destruct (exec re (c :: t)) as [[caps rest]|] eqn:E; auto.
  f_equal. apply replace_all_from_fuel; auto.
  apply (exec_shorter _ _ _ _ R) in E. simpl in E. lia.
Qed.

End RegexFacts.

(** ** Global and first-match replacement *)

Module ScanFacts.
Import Chars Regex Spec RegexFacts.

Section Scan.
Variable re : regex.
Variable repl : list jsstring -> jsstring.
Hypothesis Hre : reads_one (items re) = true.

(** A text no part of which the pattern matches is left as it is. *)
Lemma replace_all_id s :
  (forall a b, s = a ++ b -> exec re b = None) ->
  replace_all re repl s = s.
Proof.
  induction s as [|c t IH]; intros H; [reflexivity|].
  rewrite replace_all_cons by assumption.
  rewrite (H [] (c :: t) eq_refl). f_equal. apply IH.
  intros a b ->. apply (H (c :: a) b). reflexivity.
Qed.

Lemma search_none s :
  (forall a b, s = a ++ b -> exec re b = None) ->
  search re s = None.
Proof.
  induction s as [|c t IH]; intros H; simpl.
  - now rewrite (H [] [] eq_refl).
  - rewrite (H [] (c :: t) eq_refl). apply IH.
    intros a b ->. apply (H (c :: a) b). reflexivity.
Qed.

Lemma replace_first_id s :
  (forall a b, s = a ++ b -> exec re b = None) ->
  replace_first re repl s = s.
Proof.
  induction s as [|c t IH]; intros H; simpl.
  - now rewrite (H [] [] eq_refl).
  - rewrite (H [] (c :: t) eq_refl). f_equal. apply IH.
    intros a b ->. apply (H (c :: a) b). reflexivity.
Qed.

(** A stretch of text in which no match starts is copied. *)
Lemma replace_all_skip pre x :
  (forall a b, pre = a ++ b -> b <> [] -> exec re (b ++ x) = None) ->
  replace_all re repl (pre ++ x) = pre ++ replace_all re repl x.
Proof.
  induction pre as [|c t IH]; intros H; [reflexivity|].
  pose proof (H [] (c :: t) eq_refl) as E. simpl in E.
  simpl. rewrite replace_all_cons by assumption.
  rewrite E by discriminate. f_equal. apply IH.
  intros a b -> Hb. apply (H (c :: a) b); auto.
Qed.

Lemma search_skip pre x :
  (forall a b, pre = a ++ b -> b <> [] -> exec re (b ++ x) = None) ->
  search re (pre ++ x) = search re x.
Proof.
  induction pre as [|c t IH]; intros H; [reflexivity|].
  pose proof (H [] (c :: t) eq_refl) as E. simpl in E.
  simpl. rewrite E by discriminate. apply IH.
  intros a b -> Hb. apply (H (c :: a) b); auto.
Qed.



End Scan.
End ScanFacts.

(** ** Occurrences of a keyword *)

Module OccursFacts.
Import Chars Regex Spec RegexFacts.

Lemma prefix_of_lit ci l m x : lit_eq ci l m -> prefix_of ci l (m ++ x) = true.
Proof. induction 1 as [|a b l m Hab _ IH]; simpl; auto. now rewrite Hab. Qed.

Lemma prefix_of_app ci l a b :
  prefix_of ci l a = true -> prefix_of ci l (a ++ b) = true.
Proof.
  revert a. induction l as [|x l IH]; intros [|y a]; simpl; auto; try discriminate.
  intros H. apply andb_true_iff in H as [H1 H2]. now rewrite H1, IH.
Qed.

Lemma occurs_prefix ci l s : prefix_of ci l s = true -> occurs ci l s = true.
Proof. intros H. destruct s; simpl in *; now rewrite H. Qed.

Lemma occurs_cons ci l c s : occurs ci l s = true -> occurs ci l (c :: s) = true.
Proof. intros H. simpl. rewrite H. apply orb_true_r. Qed.

Lemma occurs_app_r ci l a b : occurs ci l b = true -> occurs ci l (a ++ b) = true.
Proof. induction a; simpl; auto. intros H. rewrite IHa; auto. apply orb_true_r. Qed.

Lemma occurs_app_l ci l a b : occurs ci l a = true -> occurs ci l (a ++ b) = true.
Proof.
  induction a as [|c a IH]; simpl.
  - rewrite orb_false_r. intros H. apply occurs_prefix.
    destruct l; [reflexivity | discriminate].
  - intros H. apply orb_true_iff in H as [H|H].
    + change (c :: a ++ b) with ((c :: a) ++ b).
      rewrite (prefix_of_app _ _ _ b H). reflexivity.
    + rewrite IH; auto. apply orb_true_r.
Qed.

(** What a pattern matches has every literal of the pattern in it. *)
Lemma shape_occurs ci re l m :
  In (Lit l) re -> shape ci re m -> occurs ci l m = true.
Proof.
  revert m. induction re as [|it re IH]; intros m HIn S; [destruct HIn|].
  destruct HIn as [->|HIn].
  - destruct S as (a & b & -> & La & _).
    apply occurs_prefix, prefix_of_lit, La.
  - destruct it as [l0|k|k|k]; simpl in S.
    + destruct S as (a & b & -> & _ & Sb). apply occurs_app_r; auto.
    + destruct S as (a & b & -> & _ & Sb). apply occurs_app_r; auto.
    + destruct S as (a & b & -> & _ & _ & Sb). apply occurs_app_r; auto.
    + destruct S as (a & b & -> & _ & _ & Sb). apply occurs_app_r; auto.
Qed.

(** A pattern matches nowhere in a text that lacks one of its literals. *)
Lemma no_occurrence_no_match re l s :
  In (Lit l) (items re) -> occurs (icase re) l s = false ->
  forall a b, s = a ++ b -> exec re b = None.
Proof.
  intros HIn Hocc a b ->.
  destruct (exec re b) as [[caps rest]|] eqn:E; auto.
  destruct (exec_sound _ _ _ _ E) as (m & -> & S).
  apply (shape_occurs _ _ _ _ HIn) in S.
  rewrite occurs_app_r in Hocc; [discriminate|].
  apply occurs_app_l; auto.
Qed.

(** A keyword that shares no character with [pre] does not start inside
    [pre]. *)
Lemma occurs_skip ci l pre x :
  l <> [] -> apart ci l pre = true ->
  occurs ci l (pre ++ x) = true -> occurs ci l x = true.
Proof.
  intros Hl. induction pre as [|y pre IH]; simpl; auto.
  intros A H. apply andb_true_iff in A as [Ay A].
  destruct l as [|a l]; [congruence|].
  simpl in Ay. apply andb_true_iff in Ay as [Ay _].
  simpl in H. apply negb_true_iff in Ay. rewrite Ay in H. simpl in H. auto.
Qed.

Lemma prefix_of_ph ci l x pre s :
  apart ci l (x :: pre) = true ->
  prefix_of ci l (ph_spec (x :: pre) s) = true -> prefix_of ci l s = true.
Proof.
  intros A. simpl in A. apply andb_true_iff in A as [Ax _].
  revert s Ax. induction l as [|a l IH]; intros s Ax; auto.
  simpl in Ax. apply andb_true_iff in Ax as [Aa Ax].
  destruct s as [|c t]; simpl; auto.
  destruct (Ascii.eqb c "$" && match t with d :: _ => is_digit d | [] => false end).
  - simpl. apply negb_true_iff in Aa. rewrite Aa. discriminate.
  - simpl. intros H. apply andb_true_iff in H as [H1 H2].
    rewrite H1. simpl. apply IH; auto.
Qed.

(** The placeholder rewrite brings no keyword in that was not there. *)
Lemma occurs_ph ci l x pre s :
  l <> [] -> apart ci l (x :: pre) = true ->
  occurs ci l s = false -> occurs ci l (ph_spec (x :: pre) s) = false.
Proof.
  intros Hl A. induction s as [|c t IH]; intros H.
  - simpl in *. exact H.
  - simpl in H. apply orb_false_iff in H as [H1 H2].
    destruct (occurs ci l (ph_spec (x :: pre) (c :: t))) eqn:O; auto.
    exfalso. simpl in O.
    destruct (Ascii.eqb c "$" && match t with d :: _ => is_digit d | [] => false end) eqn:P.
    + apply (occurs_skip _ _ _ _ Hl A) in O. rewrite IH in O; auto. discriminate.
    + simpl in O. apply orb_true_iff in O as [O|O].
      * assert (prefix_of ci l (ph_spec (x :: pre) (c :: t)) = true) as O'
          by (simpl; rewrite P; exact O).
        apply (prefix_of_ph _ _ _ _ _ A) in O'. congruence.
      * rewrite IH in O; auto. discriminate.
Qed.

End OccursFacts.

(** ** The translators *)

Module TranslateFacts.
Import Chars Regex Js Db Spec PaginationSpec RegexFacts ScanFacts OccursFacts.

(** The patterns of db.js read at least one character and never make the
    matcher back off. *)
Lemma patterns_read_one :
  forallb (fun re => reads_one (items re))
          [re_placeholder; re_ilike; re_limit_oracle; re_limit_oracle_strip;
           re_count; re_limit_mssql; re_limit_mssql_strip] = true.
Proof. reflexivity. Qed.

Lemma patterns_backtrack_free :
  forallb (fun re => backtrack_free (icase re) (items re))
          [re_placeholder; re_ilike; re_limit_oracle; re_limit_oracle_strip;
           re_count; re_limit_mssql; re_limit_mssql_strip] = true.
Proof. vm_compute. reflexivity. Qed.

Lemma exec_max re s :
  backtrack_free (icase re) (items re) = true ->
  exec re s = run_max (icase re) (items re) s [].
Proof. intros B. unfold exec. now apply run_backtrack_free. Qed.

Lemma digit_not_dollar d : is_digit d = true -> Ascii.eqb d "$" = false.
Proof.
  intros H. destruct (Ascii.eqb_spec d "$") as [E|];
    [subst d; vm_compute in H; discriminate | reflexivity].
Qed.

Lemma ph_spec_digits pre ds rest :
  forallb is_digit ds = true ->
  ph_spec pre (ds ++ rest) = ds ++ ph_spec pre rest.
Proof.
  induction ds as [|d ds IH]; simpl; auto.
  intros H. apply andb_true_iff in H as [Hd H].
  rewrite (digit_not_dollar _ Hd). simpl. now rewrite IH.
Qed.

Lemma exec_placeholder c t :
  exec re_placeholder (c :: t) =
  if Ascii.eqb c "$" then
    match fst (span is_digit t) with
    | [] => None
    | _ :: _ => Some ([fst (span is_digit t)], snd (span is_digit t))
    end
  else None.
Proof.
  rewrite exec_max by reflexivity.
  cbn [run_max re_placeholder items icase lit list_ascii_of_string strip
       char_eq in_class app].
  rewrite Ascii.eqb_sym. destruct (Ascii.eqb c "$"); reflexivity.
Qed.

(** The global replacement of line 31 (and of line 67) is the placeholder
    rewrite of the specification. *)
Lemma placeholders_spec pre s :
  replace_all re_placeholder (fun caps => pre ++ cap 1 caps) s = ph_spec pre s.
Proof.
  remember (List.length s) as n eqn:Hn. revert s Hn.
  induction n as [n IH] using lt_wf_ind. intros [|c t] Hn; [reflexivity|].
  rewrite replace_all_cons by reflexivity. rewrite exec_placeholder.
  cbn [ph_spec]. destruct (Ascii.eqb c "$") eqn:Ec; cbn [andb].
  - pose proof (span_app is_digit t) as Ht.
    pose proof (span_all is_digit t) as Hd.
    pose proof (span_empty is_digit t) as He.
    destruct (span is_digit t) as [ds rest]. cbn [fst snd] in *.
    destruct ds as [|d ds].
    + rewrite (He eq_refl).
      f_equal. apply (IH (List.length t)); subst; simpl; auto.
    + subst t. cbn [app]. simpl in Hd. apply andb_true_iff in Hd as [Hd1 Hd2].
      rewrite Hd1. unfold cap. cbn [Nat.sub nth].
      rewrite <- app_assoc. f_equal.
      change (d :: ds ++ rest) with ((d :: ds) ++ rest).
      rewrite ph_spec_digits by (simpl; now rewrite Hd1).
      f_equal. apply (IH (List.length rest)); auto.
      subst n. simpl. rewrite length_app. lia.
  - f_equal. apply (IH (List.length t)); subst; simpl; auto.
Qed.

Lemma oracle_placeholders_spec text :
  oracle_placeholders text = ph_spec (lit ":") text.
Proof. apply placeholders_spec. Qed.

Lemma mssql_placeholders_spec text :
  mssql_placeholders text = ph_spec (lit "@p") text.
Proof. apply placeholders_spec. Qed.

(** A text without the keyword [ILIKE] goes through line 34 and line 70
    unchanged; without [LIMIT], the pagination clause is not found;
    without "COUNT(*)", line 52 changes nothing. *)
Lemma oracle_ilike_id s :
  occurs true (lit "ILIKE") s = false -> oracle_ilike s = s.
Proof.
  intros H. apply replace_all_id; [reflexivity|].
  apply (no_occurrence_no_match re_ilike (lit "ILIKE")); simpl; auto.
Qed.

Lemma mssql_ilike_id s :
  occurs true (lit "ILIKE") s = false -> mssql_ilike s = s.
Proof.
  intros H. apply replace_all_id; [reflexivity|].
  apply (no_occurrence_no_match re_ilike (lit "ILIKE")); simpl; auto.
Qed.

Lemma oracle_limit_none s :
  occurs true (lit "LIMIT") s = false -> search re_limit_oracle s = None.
Proof.
  intros H. apply search_none.
  apply (no_occurrence_no_match re_limit_oracle (lit "LIMIT")); simpl; auto.
Qed.

Lemma mssql_limit_none s :
  occurs true (lit "LIMIT") s = false -> search re_limit_mssql s = None.
Proof.
  intros H. apply search_none.
  apply (no_occurrence_no_match re_limit_mssql (lit "LIMIT")); simpl; auto.
Qed.

Lemma count_id s :
  occurs true (lit "COUNT(*)") s = false ->
  replace_all re_count (fun _ => lit "COUNT(*) total") s = s.
Proof.
  intros H. apply replace_all_id; [reflexivity|].
  apply (no_occurrence_no_match re_count (lit "COUNT(*)")); simpl; auto.
Qed.

(** *** Line 52 after line 31 *)

Lemma ph_colon_cons c t :
  ph_spec (lit ":") (c :: t) = colon_char c t :: ph_spec (lit ":") t.
Proof.
  unfold colon_char. cbn [ph_spec].
  destruct (Ascii.eqb c "$" && match t with d :: _ => is_digit d | [] => false end);
    reflexivity.
Qed.

Lemma colon_char_cases c t :
  colon_char c t = c \/ (c = "$"%char /\ colon_char c t = ":"%char).
Proof.
  unfold colon_char. destruct (Ascii.eqb_spec c "$") as [->|]; simpl; auto.
  destruct (match t with d :: _ => is_digit d | [] => false end); auto.
Qed.

Lemma colon_char_space c t : is_space (colon_char c t) = is_space c.
Proof. destruct (colon_char_cases c t) as [->|[-> ->]]; reflexivity. Qed.

(** A literal without [$] and without [:] is read off the rewritten text
    where it is read off the text. *)
Lemma strip_ph_colon l : forall s,
  forallb (fun a => negb (char_eq true a "$") && negb (char_eq true a ":")) l = true ->
  strip true l (ph_spec (lit ":") s)
  = option_map (ph_spec (lit ":")) (strip true l s).
Proof.
  induction l as [|a l IH]; intros s F; [reflexivity|].
  cbn [forallb] in F. apply andb_true_iff in F as [Fa F].
  apply andb_true_iff in Fa as [F1 F2].
  apply negb_true_iff in F1. apply negb_true_iff in F2.
  destruct s as [|c t]; [reflexivity|].
  rewrite ph_colon_cons. cbn [strip].
  destruct (colon_char_cases c t) as [->|[-> ->]].
  - destruct (char_eq true a c); auto.
  - now rewrite F1, F2.
Qed.

Lemma span_space_ph_colon s :
  span is_space (ph_spec (lit ":") s)
  = (fst (span is_space s), ph_spec (lit ":") (snd (span is_space s))).
Proof.
  induction s as [|c t IH]; [reflexivity|].
  rewrite ph_colon_cons. cbn [span]. rewrite colon_char_space.
  destruct (is_space c) eqn:Ec.
  - rewrite IH. destruct (span is_space t) as [a b]. cbn [fst snd].
    destruct (colon_char_cases c t) as [->|[-> _]]; [reflexivity|].
    discriminate.
  - cbn [fst snd]. now rewrite ph_colon_cons.
Qed.

Lemma exec_count_ph s :
  exec re_count (ph_spec (lit ":") s)
  = option_map (fun r => (fst r, ph_spec (lit ":") (snd r))) (exec re_count s).
Proof.
  rewrite !exec_max by reflexivity.
  cbn [run_max re_count items icase in_class].
  rewrite strip_ph_colon by reflexivity.
  destruct (strip true (lit "COUNT(*)") s) as [s1|]; [|reflexivity].
  cbn [option_map]. rewrite span_space_ph_colon. cbn [fst snd].
  destruct (fst (span is_space s1)); [reflexivity|].
  rewrite strip_ph_colon by reflexivity.
  destruct (strip true (lit "as") (snd (span is_space s1))) as [s2|]; [|reflexivity].
  cbn [option_map]. rewrite span_space_ph_colon. cbn [fst snd].
  destruct (fst (span is_space s2)); [reflexivity|].
  rewrite strip_ph_colon by reflexivity.
  destruct (strip true (lit "total") (snd (span is_space s2))); reflexivity.
Qed.

(** The count alias is nowhere in the rewritten text if it is nowhere in
    the text. *)
Lemma search_count_ph s :
  search re_count s = None -> search re_count (ph_spec (lit ":") s) = None.
Proof.
  induction s as [|c t IH]; intros H.
  - exact H.
  - rewrite ph_colon_cons. cbn [search] in *. rewrite <- ph_colon_cons.
    rewrite exec_count_ph.
    destruct (exec re_count (c :: t)) as [[caps rest]|]; [discriminate|].
    cbn [option_map]. auto.
Qed.

Lemma search_none_inv re s :
  search re s = None -> forall a b, s = a ++ b -> exec re b = None.
Proof.
  induction s as [|c t IH]; intros H a b E.
  - symmetry in E. apply app_eq_nil in E as [_ ->]. simpl in H.
    destruct (exec re []) as [[? ?]|]; [discriminate | reflexivity].
  - cbn [search] in H.
    destruct (exec re (c :: t)) as [[? ?]|] eqn:X; [discriminate|].
    destruct a as [|x a]; simpl in E.
    + now subst b.
    + inversion E; subst. eapply IH; eauto.
Qed.

(** C4, as amended.  On a canonical text that has neither the keyword of
    the pagination clause ([LIMIT]) nor the case-insensitive operator
    ([ILIKE]), in any letter case, [translateToMssql] changes the
    placeholders and nothing else: the text it returns is the text with
    every [$] that a digit follows turned into [@p], every other character
    (numerals without a [$] before them too) as it was, and the binds come
    back as they were.  [translateToOracle] does the same with [:], on the
    texts in which the count alias of line 52 is nowhere to be found
    either. *)
Theorem C4_placeholders_only text params :
  occurs true (lit "ILIKE") text = false ->
  occurs true (lit "LIMIT") text = false ->
  (m_sql (translateToMssql text params) = ph_spec (lit "@p") text
   /\ m_filteredParams (translateToMssql text params) = params)
  /\ (search re_count text = None ->
      o_sql (translateToOracle text params) = ph_spec (lit ":") text
      /\ o_filteredParams (translateToOracle text params) = params
      /\ o_binds (translateToOracle text params)
         = match params with Some ps => number_from 0 ps | None => [] end).
Proof.
  intros HI HL. split; [|intros HC].
  - unfold translateToMssql.
    rewrite mssql_placeholders_spec.
    rewrite mssql_ilike_id by (apply occurs_ph; [discriminate | reflexivity | exact HI]).
    rewrite mssql_limit_none by (apply occurs_ph; [discriminate | reflexivity | exact HL]).
    split; reflexivity.
  - unfold translateToOracle.
    rewrite oracle_placeholders_spec.
    rewrite oracle_ilike_id by (apply occurs_ph; [discriminate | reflexivity | exact HI]).
    rewrite oracle_limit_none by (apply occurs_ph; [discriminate | reflexivity | exact HL]).
    cbn iota beta.
    rewrite replace_all_id;
      [repeat split; reflexivity | reflexivity
       | apply search_none_inv, search_count_ph, HC].
Qed.

(** *** The decimal notation *)

Lemma uint_plain d :
  forallb plain (list_ascii_of_string (NilEmpty.string_of_uint d)) = true.
Proof. induction d; simpl; auto. Qed.

Lemma dec_plain z : forallb plain (dec z) = true.
Proof.
  unfold dec, lit. destruct (Z.to_int z) as [d|d]; simpl.
  - destruct d; try apply (uint_plain (Decimal.D0 d)); try reflexivity;
      simpl; apply uint_plain.
  - destruct d; simpl; try reflexivity; apply uint_plain.
Qed.


(** *** The row-number wrapping and line 52 *)

Lemma rownum_wrap_split sql upper lower :
  rownum_wrap sql upper lower = wrap_head ++ sql ++ wrap_tail upper lower.
Proof.
  unfold rownum_wrap, wrap_head, wrap_tail. now rewrite <- !app_assoc.
Qed.

Lemma in_tails s a b : s = a ++ b -> b <> [] -> In b (tails s).
Proof.
  revert s. induction a as [|x a IH]; intros s -> Hb; simpl.
  - destruct b; [congruence | simpl; auto].
  - right. apply IH; auto.
Qed.

Lemma strip_clash ci l u x : clash ci l u = true -> strip ci l (u ++ x) = None.
Proof.
  revert u. induction l as [|a l IH]; intros [|b u]; simpl; try discriminate.
  destruct (char_eq ci a b); auto.
Qed.

Lemma exec_count_clash b x :
  clash true (lit "COUNT(*)") b = true -> exec re_count (b ++ x) = None.
Proof.
  intros H. unfold exec, re_count. cbn [items icase run].
  now rewrite (strip_clash _ _ _ x H).
Qed.

(** No match of line 52 starts in the head of the template. *)
Lemma count_head repl x :
  replace_all re_count repl (wrap_head ++ x)
  = wrap_head ++ replace_all re_count repl x.
Proof.
  apply replace_all_skip; [reflexivity|].
  intros a b Hab Hb. apply exec_count_clash.
  assert (forallb (clash true (lit "COUNT(*)")) (tails wrap_head) = true) as F
    by (vm_compute; reflexivity).
  rewrite forallb_forall in F. apply F. eapply in_tails; eauto.
Qed.




(** *** Dropping the two binds of the pagination clause *)

Lemma filter_last_two n a from :
  from + List.length a = n ->
  filter_index (fun i => differs i (Some (Z.of_nat n - 1 - 1)%Z)
                         && differs i (Some (Z.of_nat n - 1)%Z)) from a
  = firstn (List.length a - 2) a.
Proof.
  revert from. induction a as [|v a IH]; intros from H; [reflexivity|].
  cbn [filter_index]. simpl in H.
  rewrite (IH (S from)) by lia.
  destruct a as [|w a].
  - simpl in H. unfold differs.
    replace (Z.of_nat from =? Z.of_nat n - 1)%Z with true
      by (symmetry; apply Z.eqb_eq; lia).
    rewrite andb_false_r. reflexivity.
  - destruct a as [|x a].
    + simpl in H. unfold differs.
      replace (Z.of_nat from =? Z.of_nat n - 1 - 1)%Z with true
        by (symmetry; apply Z.eqb_eq; lia).
      reflexivity.
    + simpl in H. unfold differs.
      replace (Z.of_nat from =? Z.of_nat n - 1 - 1)%Z with false
        by (symmetry; apply Z.eqb_neq; lia).
      replace (Z.of_nat from =? Z.of_nat n - 1)%Z with false
        by (symmetry; apply Z.eqb_neq; lia).
      cbn [negb andb List.length Nat.sub firstn]. rewrite Nat.sub_0_r.
      reflexivity.
Qed.



(** *** The scenario of the specification *)

(** C2, as stated, at the input of the scenario: the text returned has no
    [rn <= 15] in it. *)
Lemma C2_counterexample :
  ~ (o_filteredParams (translateToOracle scenario_text (Some scenario_binds))
     = Some [JStr (lit "%abc%")]
     /\ occurs false (lit "WHERE UPPER(name) LIKE UPPER(:1)")
          (o_sql (translateToOracle scenario_text (Some scenario_binds))) = true
     /\ occurs false (lit "rn <= 15")
          (o_sql (translateToOracle scenario_text (Some scenario_binds))) = true
     /\ occurs false (lit "rn > 10")
          (o_sql (translateToOracle scenario_text (Some scenario_binds))) = true).
Proof. intros (_ & _ & H & _). vm_compute in H. discriminate. Qed.

(** C2, as amended.  On the text and the binds of the scenario
    [translateToOracle] returns the one bind ['%abc%'], bound to the name
    [1], and the text below: the comparison [WHERE UPPER(name) LIKE
    UPPER(:1)] inside a subquery bounded by [ROWNUM <= 15] (the column that
    the subquery names [rn]), itself inside a query bounded by [rn > 10]. *)
Theorem C2_oracle_scenario :
  o_filteredParams (translateToOracle scenario_text (Some scenario_binds))
  = Some [JStr (lit "%abc%")]
  /\ o_binds (translateToOracle scenario_text (Some scenario_binds))
     = [(lit "1", JStr (lit "%abc%"))]
  /\ o_sql (translateToOracle scenario_text (Some scenario_binds))
     = lit "SELECT * FROM (" ++ nl
       ++ lit "      SELECT a.*, ROWNUM rn FROM ("
       ++ lit "SELECT * FROM t WHERE UPPER(name) LIKE UPPER(:1)"
       ++ lit ") a" ++ nl
       ++ lit "      WHERE ROWNUM <= 15" ++ nl
       ++ lit "    ) WHERE rn > 10"
  /\ occurs false (lit "WHERE UPPER(name) LIKE UPPER(:1)")
       (o_sql (translateToOracle scenario_text (Some scenario_binds))) = true
  /\ occurs false (lit "ROWNUM <= 15")
       (o_sql (translateToOracle scenario_text (Some scenario_binds))) = true
  /\ occurs false (lit "rn > 10")
       (o_sql (translateToOracle scenario_text (Some scenario_binds))) = true.
Proof. vm_compute. repeat split. Qed.

(** C3.  On the same input [translateToMssql] returns the one bind
    ['%abc%'] and a text that has [@p1] where [$1] was (no [$] is left),
    that has [name LIKE @p1], and that ends with
    [OFFSET 10 ROWS FETCH NEXT 5 ROWS ONLY]. *)
Theorem C3_mssql_scenario :
  m_filteredParams (translateToMssql scenario_text (Some scenario_binds))
  = Some [JStr (lit "%abc%")]
  /\ m_sql (translateToMssql scenario_text (Some scenario_binds))
     = lit "SELECT * FROM t WHERE name LIKE @p1"
       ++ lit " OFFSET 10 ROWS FETCH NEXT 5 ROWS ONLY"
  /\ occurs false (lit "@p1")
       (m_sql (translateToMssql scenario_text (Some scenario_binds))) = true
  /\ occurs false (lit "$")
       (m_sql (translateToMssql scenario_text (Some scenario_binds))) = false
  /\ occurs false (lit "name LIKE @p1")
       (m_sql (translateToMssql scenario_text (Some scenario_binds))) = true.
Proof. vm_compute. repeat split. Qed.

(** C4, as stated, at a text with the count alias: it has no pagination
    clause and no case-insensitive operator, and [translateToOracle] changes
    more than the placeholders. *)
Lemma C4_counterexample :
  occurs true (lit "ILIKE") (lit "SELECT COUNT(*) as total FROM t") = false
  /\ occurs true (lit "LIMIT") (lit "SELECT COUNT(*) as total FROM t") = false
  /\ o_sql (translateToOracle (lit "SELECT COUNT(*) as total FROM t") (Some []))
     = lit "SELECT COUNT(*) total FROM t"
  /\ o_sql (translateToOracle (lit "SELECT COUNT(*) as total FROM t") (Some []))
     <> ph_spec (lit ":") (lit "SELECT COUNT(*) as total FROM t").
Proof. vm_compute. repeat split. discriminate. Qed.

Lemma C4_witness :
  (m_sql (translateToMssql (lit "SELECT * FROM t WHERE id = $1 AND n = 25")
                           (Some [JNum 7]))
   = lit "SELECT * FROM t WHERE id = @p1 AND n = 25"
   /\ m_filteredParams
        (translateToMssql (lit "SELECT * FROM t WHERE id = $1 AND n = 25")
                          (Some [JNum 7]))
      = Some [JNum 7])
  /\ (o_sql (translateToOracle (lit "SELECT * FROM t WHERE id = $1 AND n = 25")
                               (Some [JNum 7]))
      = lit "SELECT * FROM t WHERE id = :1 AND n = 25"
      /\ o_filteredParams
           (translateToOracle (lit "SELECT * FROM t WHERE id = $1 AND n = 25")
                              (Some [JNum 7]))
         = Some [JNum 7]
      /\ o_binds
           (translateToOracle (lit "SELECT * FROM t WHERE id = $1 AND n = 25")
                              (Some [JNum 7]))
         = [(lit "1", JNum 7)]).
Proof.
  destruct (C4_placeholders_only
              (lit "SELECT * FROM t WHERE id = $1 AND n = 25") (Some [JNum 7])
              eq_refl eq_refl) as [M Oh].
  split; [exact M | exact (Oh eq_refl)].
Defined.

End TranslateFacts.

(** ** Mode selection and life cycle *)

Module LifecycleFacts.
Import Chars Js Db Lifecycle LifecycleSpec.

(** C9.  The branch that runs at start-up is fixed by three signals, in
    this order: [DEMO_MODE] being ['true'] selects demo; otherwise a
    [MSSQL_SERVER] that is set (and not empty) selects SQL Server; otherwise
    an [ORACLE_USER] that is set (and not empty) selects Oracle; otherwise
    PostgreSQL.  When the module loads, [mode] holds the selected mode; it
    fails to load in one case only, the Oracle client refusing to
    start. *)
Theorem C9_mode_selection (env : Env) (oci : ClientInit) :
  selected_mode env
  = (if match env "DEMO_MODE"%string with
        | Some s => String.eqb s "true"
        | None => false
        end
     then demo
     else if truthy (env "MSSQL_SERVER"%string) then mssql
     else if truthy (env "ORACLE_USER"%string) then oracle
     else postgresql)
  /\ match load env oci with
     | Some st => mode st = selected_mode env /\ selected st = selected_mode env
     | None => selected_mode env = oracle /\ oci = InitError
     end.
Proof.
  unfold selected_mode, USE_ORACLE, USE_MSSQL, FORCE_DEMO, load.
  unfold selected_mode, USE_ORACLE, USE_MSSQL, FORCE_DEMO.
  destruct (env "DEMO_MODE"%string) as [s|]; [destruct (String.eqb s "true")|];
    destruct (truthy (env "MSSQL_SERVER"%string));
    destruct (truthy (env "ORACLE_USER"%string));
    destruct oci; cbn; auto.
Qed.

Lemma step_selected st ev st' : step st ev = Some st' -> selected st' = selected st.
Proof.
  destruct ev; simpl;
    try (destruct (awaits_pool (selected st) && negb (poolReady st)));
    try (destruct (mode_eqb (selected st) postgresql && negb (probe st)));
    intros H; inversion H; reflexivity.
Qed.

Lemma step_mode st ev st' :
  step st ev = Some st' ->
  (mode st = demo -> mode st' = demo)
  /\ (mode st' <> mode st ->
      mode st' = demo /\ mode st <> demo /\ (ev = ConnectFail \/ ev = ProbeFail)).
Proof.
  destruct ev; simpl;
    try (destruct (awaits_pool (selected st) && negb (poolReady st)));
    try (destruct (mode_eqb (selected st) postgresql && negb (probe st)));
    intros H; inversion H; subst; simpl; split; auto; try congruence;
    intros N; repeat split; auto; congruence.
Qed.

(** Over any sequence of events: [mode] ends as it started, or as demo. *)
Lemma steps_mode st evs st' :
  steps st evs = Some st' -> mode st' = mode st \/ mode st' = demo.
Proof.
  revert st. induction evs as [|ev evs IH]; simpl; intros st H.
  - inversion H; auto.
  - destruct (step st ev) as [st1|] eqn:E; [|discriminate].
    destruct (step_mode _ _ _ E) as [D C].
    destruct (IH _ H) as [H1|H1]; auto.
    rewrite H1. destruct (mode st1); destruct (mode st) eqn:M; auto;
      right; apply C; discriminate.
Qed.

(** C6.  One event changes [mode] in one way only: a mode that is demo
    stays demo, and a mode that changes becomes demo, on a connection that
    fails or on a probe that fails; so no event takes one dialect to
    another.  This holds in every state, and so over every sequence of
    events from the start. *)
Theorem C6_mode_one_way st ev st' :
  step st ev = Some st' ->
  (mode st = demo -> mode st' = demo)
  /\ (mode st' <> mode st ->
      mode st' = demo /\ mode st <> demo /\ (ev = ConnectFail \/ ev = ProbeFail)).
Proof. apply step_mode. Qed.

Lemma C6_witness :
  (mode pg_start = demo -> mode pg_demoted = demo)
  /\ (mode pg_demoted <> mode pg_start ->
      mode pg_demoted = demo /\ mode pg_start <> demo
      /\ (ProbeFail = ConnectFail \/ ProbeFail = ProbeFail)).
Proof. exact (C6_mode_one_way pg_start ProbeFail pg_demoted eq_refl). Defined.

(** *** Calls of [query] *)

Lemma load_inv env oci st :
  load env oci = Some st -> awaits_pool (selected st) = true -> waits_inv st.
Proof.
  unfold load. destruct (selected_mode env); [| |destruct oci|];
    intros H; inversion H; subst; simpl; try discriminate;
    intros _; unfold waits_inv; simpl; repeat split; discriminate.
Qed.

Lemma query_body_demo st c :
  awaits_pool (selected st) = true -> mode st = demo -> query_body st c = Empty.
Proof.
  unfold query_body. destruct (selected st); try discriminate;
    intros _ ->; reflexivity.
Qed.

Lemma query_body_pool st c :
  pool st = true -> query_body st c <> NoPool.
Proof.
  unfold query_body. intros ->.
  destruct (selected st); try discriminate;
    destruct (mode_eqb (mode st) demo); discriminate.
Qed.

Lemma query_body_ok st c :
  awaits_pool (selected st) = true ->
  (mode st <> demo -> pool st = true) ->
  query_body st c <> NoPool.
Proof.
  intros A P. destruct (mode st) eqn:M.
  - rewrite query_body_demo; auto. discriminate.
  - apply query_body_pool, P. discriminate.
  - apply query_body_pool, P. discriminate.
  - apply query_body_pool, P. discriminate.
Qed.

Lemma step_inv st ev st' :
  awaits_pool (selected st) = true -> waits_inv st ->
  step st ev = Some st' -> waits_inv st'.
Proof.
  intros A I. unfold waits_inv in I.
  destruct ev; simpl; rewrite ?A; simpl.
  - destruct (poolReady st) eqn:R; simpl; [discriminate|].
    intros H; inversion H; subst; clear H.
    destruct I as (L & M & P).
    unfold waits_inv, resume; simpl. rewrite L. simpl.
    repeat split; auto; try congruence.
    apply Forall_forall. intros co Hin. apply in_map_iff in Hin as (c & <- & _).
    simpl. apply query_body_pool. reflexivity.
  - destruct (poolReady st) eqn:R; simpl; [discriminate|].
    intros H; inversion H; subst; clear H.
    destruct I as (L & M & P).
    unfold waits_inv, resume; simpl. rewrite L. simpl.
    repeat split; auto; try congruence.
    + intros _. apply Forall_forall. intros co Hin.
      apply in_map_iff in Hin as (c & <- & _). simpl.
      apply query_body_demo; auto.
    + apply Forall_forall. intros co Hin.
      apply in_map_iff in Hin as (c & <- & _). simpl.
      rewrite query_body_demo; auto. discriminate.
  - destruct (selected st); discriminate.
  - destruct (selected st); discriminate.
  - destruct (poolReady st) eqn:R; simpl;
      intros H; inversion H; subst; clear H; unfold waits_inv; simpl; rewrite ?R.
    + destruct I as (W & D & P & N). repeat split; auto.
      * intros Hd. apply Forall_app. split; auto.
        constructor; [|constructor]. simpl. apply query_body_demo; auto.
      * apply Forall_app. split; auto.
        constructor; [|constructor]. simpl. apply query_body_ok; auto.
    + exact I.
Qed.

(** Every call made is suspended or has come to something. *)
Lemma step_calls st ev st' :
  awaits_pool (selected st) = true -> waits_inv st ->
  step st ev = Some st' ->
  map fst (log st') ++ waiting st'
  = (map fst (log st) ++ waiting st) ++ calls_of [ev].
Proof.
  intros A I. unfold waits_inv in I.
  destruct ev; simpl; rewrite ?A; simpl.
  - destruct (poolReady st); simpl; [discriminate|].
    intros H; inversion H; subst; clear H. simpl.
    rewrite map_app, map_map. simpl. rewrite map_id, !app_nil_r. reflexivity.
  - destruct (poolReady st); simpl; [discriminate|].
    intros H; inversion H; subst; clear H. simpl.
    rewrite map_app, map_map. simpl. rewrite map_id, !app_nil_r. reflexivity.
  - destruct (selected st); discriminate.
  - destruct (selected st); discriminate.
  - destruct (poolReady st); simpl;
      intros H; inversion H; subst; clear H; simpl.
    + destruct I as (W & _). rewrite W, map_app, !app_nil_r. reflexivity.
    + now rewrite app_assoc.
Qed.

Lemma steps_inv st evs st' :
  awaits_pool (selected st) = true -> waits_inv st ->
  steps st evs = Some st' ->
  waits_inv st'
  /\ map fst (log st') ++ waiting st'
     = (map fst (log st) ++ waiting st) ++ calls_of evs.
Proof.
  revert st. induction evs as [|ev evs IH]; simpl; intros st A I H.
  - inversion H; subst. now rewrite app_nil_r.
  - destruct (step st ev) as [st1|] eqn:E; [|discriminate].
    pose proof (step_inv _ _ _ A I E) as I1.
    pose proof (step_calls _ _ _ A I E) as C1.
    pose proof (step_selected _ _ _ E) as S1.
    destruct (IH st1) as (I' & C'); auto; [congruence|].
    split; auto. rewrite C', C1, <- !app_assoc. f_equal. f_equal.
    destruct ev; reflexivity.
Qed.

Lemma query_body_ext st st' c :
  selected st' = selected st -> mode st' = mode st -> pool st' = pool st ->
  query_body st' c = query_body st c.
Proof. unfold query_body. intros -> -> ->. reflexivity. Qed.

Lemma step_log_inv st ev st' :
  awaits_pool (selected st) = true -> waits_inv st -> log_inv st ->
  step st ev = Some st' -> log_inv st'.
Proof.
  intros A I L. unfold waits_inv in I. unfold log_inv in *.
  destruct ev; simpl; rewrite ?A; simpl.
  - destruct (poolReady st); simpl; [discriminate|].
    intros H; inversion H; subst; clear H. destruct I as (E & _).
    simpl. rewrite E. simpl.
    apply Forall_forall. intros co Hin. apply in_map_iff in Hin as (c & <- & _).
    reflexivity.
  - destruct (poolReady st); simpl; [discriminate|].
    intros H; inversion H; subst; clear H. destruct I as (E & _).
    simpl. rewrite E. simpl.
    apply Forall_forall. intros co Hin. apply in_map_iff in Hin as (c & <- & _).
    reflexivity.
  - destruct (selected st); discriminate.
  - destruct (selected st); discriminate.
  - destruct (poolReady st); simpl;
      intros H; inversion H; subst; clear H; simpl; auto.
    apply Forall_app. split; [|repeat constructor].
    eapply Forall_impl; [|exact L]. intros co ->. reflexivity.
Qed.

Lemma steps_log_inv st evs st' :
  awaits_pool (selected st) = true -> waits_inv st -> log_inv st ->
  steps st evs = Some st' -> log_inv st'.
Proof.
  revert st. induction evs as [|ev evs IH]; simpl; intros st A I L H.
  - inversion H; subst; auto.
  - destruct (step st ev) as [st1|] eqn:E; [|discriminate].
    apply (IH st1); auto.
    + rewrite (step_selected _ _ _ E); auto.
    + eapply step_inv; eauto.
    + eapply step_log_inv; eauto.
Qed.

Lemma load_log_inv env oci st : load env oci = Some st -> log_inv st.
Proof.
  unfold load. destruct (selected_mode env); [| |destruct oci|];
    intros H; inversion H; subst; try discriminate; constructor.
Qed.

(** A call made while the connection is pending, and the connection then
    failing. *)
Lemma wait_then_fail st0 c :
  awaits_pool (selected st0) = true -> waits_inv st0 -> poolReady st0 = false ->
  waiting st0 = [] ->
  exists st1 st2,
    step st0 (Query c) = Some st1 /\ log st1 = [] /\ waiting st1 = [c]
    /\ step st1 ConnectFail = Some st2
    /\ mode st2 = demo /\ log st2 = [(c, Empty)] /\ waiting st2 = [].
Proof.
  intros A I R W. unfold waits_inv in I. rewrite R in I. destruct I as (L & _).
  destruct st0 as [sel m p r pr w l]. simpl in *. subst r w l.
  exists {| selected := sel; mode := m; pool := p; poolReady := false;
            probe := pr; waiting := [c]; log := [] |}.
  exists {| selected := sel; mode := demo; pool := p; poolReady := true;
            probe := pr; waiting := []; log := [(c, Empty)] |}.
  rewrite A. simpl. rewrite A. simpl. unfold resume, query_body. simpl.
  destruct sel; try discriminate; repeat split.
Qed.

Lemma load_pending env oci st :
  load env oci = Some st -> awaits_pool (selected st) = true ->
  poolReady st = false /\ waiting st = [].
Proof.
  unfold load. destruct (selected_mode env); [| |destruct oci|];
    intros H; inversion H; subst; simpl; try discriminate; auto.
Qed.

(** C5, where the code fails it.  In PostgreSQL mode, which is not the
    demo mode selected: the probe fails, [mode] is demo, and a call of
    [query] still goes to the pool instead of returning the empty sequence.
    In the same situation, with [mode] turned to demo, the body of [query]
    of the SQL Server branch returns the empty sequence, as the one of
    forced demo mode does. *)
Theorem C5_postgresql_ignores_demo :
  load (fun _ => None) InitDone = Some pg_start
  /\ selected pg_start = postgresql
  /\ selected pg_start <> demo
  /\ step pg_start ProbeFail = Some pg_demoted
  /\ mode pg_demoted = demo
  /\ query_body pg_demoted probe_call = PgQuery (lit "SELECT 1") None
  /\ query_body pg_demoted probe_call <> Empty
  /\ mode mssql_failed = demo
  /\ query_body mssql_failed probe_call = Empty
  /\ query_body PassthroughSpec.demo_start probe_call = Empty.
Proof. repeat split; discriminate. Qed.

(** C5 in the two branches that wait for their pool: there the code does
    what the claim says.  In the SQL Server and the Oracle branch, from the
    start and through any events: while the connection is pending no call
    of [query] has gone on, they all wait; once it is settled every call
    made has come to what the body of [query] gives under the current
    [mode], which is the empty sequence when [mode] is demo, and never a
    use of a pool that is not there.  A call made before the connection
    fails waits, then finds [mode] to be demo and returns the empty
    sequence. *)
Theorem C5_query_waits_and_rechecks env oci st0 evs st :
  load env oci = Some st0 ->
  awaits_pool (selected st0) = true ->
  steps st0 evs = Some st ->
  (poolReady st = false -> log st = [] /\ waiting st = calls_of evs)
  /\ (poolReady st = true ->
      waiting st = []
      /\ log st = map (fun c => (c, query_body st c)) (calls_of evs))
  /\ (mode st = demo -> Forall (fun co => snd co = Empty) (log st))
  /\ Forall (fun co => snd co <> NoPool) (log st)
  /\ (forall c, exists st1 st2,
        step st0 (Query c) = Some st1 /\ log st1 = [] /\ waiting st1 = [c]
        /\ step st1 ConnectFail = Some st2
        /\ mode st2 = demo /\ log st2 = [(c, Empty)] /\ waiting st2 = []).
Proof.
  intros HL A HS.
  pose proof (load_inv _ _ _ HL A) as I0.
  pose proof (load_pending _ _ _ HL A) as (R0 & W0).
  assert (log st0 = []) as L0
    by (unfold waits_inv in I0; rewrite R0 in I0; tauto).
  destruct (steps_inv _ _ _ A I0 HS) as (I & C).
  pose proof (steps_log_inv _ _ _ A I0 (load_log_inv _ _ _ HL) HS) as LI.
  rewrite L0, W0 in C. simpl in C.
  unfold waits_inv in I. unfold log_inv in LI.
  split; [|split; [|split; [|split]]].
  - intros R. rewrite R in I. destruct I as (E & _). rewrite E in C.
    split; auto.
  - intros R. rewrite R in I. destruct I as (E & _).
    rewrite E, app_nil_r in C. split; auto. rewrite <- C.
    clear - LI. induction (log st) as [|[c o] l IH]; simpl; auto.
    inversion LI; subst. simpl in *. f_equal; auto. now f_equal.
  - intros D. destruct (poolReady st); [tauto|].
    destruct I as (E & _). rewrite E. constructor.
  - destruct (poolReady st); [tauto|].
    destruct I as (E & _). rewrite E. constructor.
  - intros c. apply wait_then_fail; auto.
Qed.

Lemma C5_witness :
  (poolReady mssql_failed = false ->
   log mssql_failed = []
   /\ waiting mssql_failed = calls_of [Query probe_call; ConnectFail])
  /\ (poolReady mssql_failed = true ->
      waiting mssql_failed = []
      /\ log mssql_failed
         = map (fun c => (c, query_body mssql_failed c))
               (calls_of [Query probe_call; ConnectFail]))
  /\ (mode mssql_failed = demo ->
      Forall (fun co => snd co = Empty) (log mssql_failed))
  /\ Forall (fun co => snd co <> NoPool) (log mssql_failed)
  /\ (forall c, exists st1 st2,
        step mssql_start (Query c) = Some st1 /\ log st1 = [] /\ waiting st1 = [c]
        /\ step st1 ConnectFail = Some st2
        /\ mode st2 = demo /\ log st2 = [(c, Empty)] /\ waiting st2 = []).
Proof.
  exact (C5_query_waits_and_rechecks mssql_env InitDone mssql_start
           [Query probe_call; ConnectFail] mssql_failed
           eq_refl eq_refl eq_refl).
Defined.

End LifecycleFacts.

(** ** The row normaliser *)

Module NormalizerFacts.
Import Chars Js Normalizer.

Lemma str_eqb_eq a b : str_eqb a b = true <-> a = b.
Proof.
  revert b. induction a as [|x a IH]; intros [|y b]; simpl; split;
    try discriminate; auto.
  - intros H. apply andb_true_iff in H as [H1 H2].
    apply Ascii.eqb_eq in H1. apply IH in H2. congruence.
  - intros H. inversion H; subst. rewrite Ascii.eqb_refl. simpl. now apply IH.
Qed.

Lemma str_eqb_refl a : str_eqb a a = true.
Proof. now apply str_eqb_eq. Qed.

Lemma str_eqb_neq a b : a <> b -> str_eqb a b = false.
Proof.
  intros N. destruct (str_eqb a b) eqn:E; auto. apply str_eqb_eq in E. congruence.
Qed.

Lemma lower_char_idem c : lower_char (lower_char c) = lower_char c.
Proof. destruct c as [[] [] [] [] [] [] [] []]; reflexivity. Qed.

Lemma toLowerCase_idem k : toLowerCase (toLowerCase k) = toLowerCase k.
Proof.
  unfold toLowerCase. rewrite map_map. apply map_ext. apply lower_char_idem.
Qed.

Section Rows.
Variable V : Type.

Lemma own_set_fresh k v (o : Row V) :
  ~ In k (keys o) -> own_set k v o = o ++ [(k, v)].
Proof.
  induction o as [|[k' v'] o IH]; simpl; intros N; auto.
  rewrite str_eqb_neq by (intros ->; apply N; auto).
  f_equal. apply IH. intros H. apply N. auto.
Qed.

Lemma own_set_in k v (o : Row V) : In k (keys (own_set k v o)).
Proof.
  induction o as [|[k' v'] o IH]; simpl; auto.
  destruct (str_eqb k k'); simpl; auto.
Qed.

Lemma own_set_incl k v (o : Row V) x :
  In x (keys (own_set k v o)) -> x = k \/ In x (keys o).
Proof.
  induction o as [|[k' v'] o IH]; simpl.
  - intros [->|[]]; auto.
  - destruct (str_eqb k k'); simpl; intros [H|H]; auto.
    destruct (IH H); auto.
Qed.

Lemma own_set_keeps k v (o : Row V) x : In x (keys o) -> In x (keys (own_set k v o)).
Proof.
  induction o as [|[k' v'] o IH]; simpl; [tauto|].
  destruct (str_eqb k k') eqn:E; simpl; intros [H|H]; auto.
  apply str_eqb_eq in E. subst. auto.
Qed.

Lemma own_set_ok k v (o : Row V) : row_ok o -> row_ok (own_set k v o).
Proof.
  unfold row_ok. induction o as [|[k' v'] o IH]; simpl; intros N.
  - repeat constructor. simpl. tauto.
  - inversion N as [|? ? Hn Ho]; subst.
    destruct (str_eqb k k') eqn:E; simpl.
    + apply str_eqb_eq in E. subst. constructor; auto.
    + constructor; auto. intros H. apply own_set_incl in H as [->|H]; auto.
      now rewrite str_eqb_refl in E.
Qed.

Lemma own_get_set k v (o : Row V) : obj_get k (own_set k v o) = Some v.
Proof.
  induction o as [|[k' v'] o IH]; simpl.
  - now rewrite str_eqb_refl.
  - destruct (str_eqb k k') eqn:E; simpl.
    + now rewrite str_eqb_refl.
    + now rewrite E.
Qed.

Lemma own_get_set_other k k' v (o : Row V) :
  k' <> k -> obj_get k' (own_set k v o) = obj_get k' o.
Proof.
  intros N. induction o as [|[k0 v0] o IH]; simpl.
  - now rewrite str_eqb_neq.
  - destruct (str_eqb k k0) eqn:E; simpl.
    + apply str_eqb_eq in E. subst. now rewrite !str_eqb_neq.
    + now rewrite IH.
Qed.

(** The assignment: the inherited accessor apart, it is the own
    property. *)
Lemma obj_set_proto v (o : Row V) : obj_set proto v o = o.
Proof. unfold obj_set. now rewrite str_eqb_refl. Qed.

Lemma obj_set_own k v (o : Row V) : k <> proto -> obj_set k v o = own_set k v o.
Proof. intros N. unfold obj_set. now rewrite str_eqb_neq. Qed.

Lemma obj_set_incl k v (o : Row V) x :
  In x (keys (obj_set k v o)) -> (x = k /\ k <> proto) \/ In x (keys o).
Proof.
  unfold obj_set. destruct (str_eqb k proto) eqn:E; auto.
  intros H. apply own_set_incl in H as [->|H]; auto.
  left. split; auto. intros ->. now rewrite str_eqb_refl in E.
Qed.

Lemma obj_set_keeps k v (o : Row V) x : In x (keys o) -> In x (keys (obj_set k v o)).
Proof.
  unfold obj_set. destruct (str_eqb k proto); auto. apply own_set_keeps.
Qed.

Lemma obj_set_ok k v (o : Row V) : row_ok o -> row_ok (obj_set k v o).
Proof.
  unfold obj_set. destruct (str_eqb k proto); auto. apply own_set_ok.
Qed.

Lemma obj_get_set_other k k' v (o : Row V) :
  k' <> k -> obj_get k' (obj_set k v o) = obj_get k' o.
Proof.
  unfold obj_set. destruct (str_eqb k proto); auto. apply own_get_set_other.
Qed.

(** Without two names that meet in lower case, and without the name of
    the accessor, the loop appends the fields one by one. *)
Lemma lower_into_fresh (row acc : Row V) :
  NoDup (keys acc ++ map toLowerCase (keys row)) ->
  ~ In proto (map toLowerCase (keys row)) ->
  lower_into acc row = acc ++ lower_fields row.
Proof.
  revert acc. induction row as [|[k v] row IH]; simpl; intros acc N P.
  - now rewrite app_nil_r.
  - unfold lower_into in *. simpl.
    rewrite obj_set_own by (intros E; apply P; auto).
    rewrite own_set_fresh.
    + rewrite IH; [now rewrite <- app_assoc | | tauto].
      unfold keys in *. rewrite map_app. simpl. now rewrite <- app_assoc.
    + apply NoDup_remove_2 in N. intros H. apply N. apply in_or_app. auto.
Qed.

Lemma lower_into_ok (row acc : Row V) : row_ok acc -> row_ok (lower_into acc row).
Proof.
  revert acc. induction row as [|[k v] row IH]; simpl; intros acc N; auto.
  apply IH. now apply obj_set_ok.
Qed.

Lemma lower_into_keeps (row acc : Row V) x :
  In x (keys acc) -> In x (keys (lower_into acc row)).
Proof.
  revert acc. induction row as [|[k v] row IH]; simpl; intros acc H; auto.
  apply IH. now apply obj_set_keeps.
Qed.

Lemma lower_into_incl (row acc : Row V) x :
  In x (keys (lower_into acc row)) ->
  In x (keys acc) \/ (In x (map toLowerCase (keys row)) /\ x <> proto).
Proof.
  revert acc. induction row as [|[k v] row IH]; simpl; intros acc H; auto.
  apply IH in H as [H|[H P]]; auto.
  apply obj_set_incl in H as [[-> P]|H]; auto.
Qed.

Lemma lower_into_has (row acc : Row V) k :
  In k (keys row) -> toLowerCase k <> proto ->
  In (toLowerCase k) (keys (lower_into acc row)).
Proof.
  revert acc. induction row as [|[k' v] row IH]; simpl; intros acc H P; [tauto|].
  destruct H as [->|H]; auto.
  apply lower_into_keeps. rewrite obj_set_own by assumption. apply own_set_in.
Qed.

(** The accessor is never an own property of what the loop makes. *)
Lemma lower_into_no_proto (row acc : Row V) :
  ~ In proto (keys acc) -> ~ In proto (keys (lower_into acc row)).
Proof.
  intros N H. apply lower_into_incl in H as [H|[_ H]]; auto.
Qed.

Lemma lower_into_get (row acc : Row V) k :
  k <> proto ->
  obj_get k (lower_into acc row)
  = match latest k row with
    | Some v => Some v
    | None => obj_get k acc
    end.
Proof.
  intros P. revert acc. induction row as [|[k' v'] row IH]; simpl; intros acc; auto.
  unfold lower_into in *. simpl. rewrite IH.
  destruct (latest k row); auto.
  destruct (str_eqb k (toLowerCase k')) eqn:E.
  - apply str_eqb_eq in E. subst.
    rewrite obj_set_own by assumption. apply own_get_set.
  - apply obj_get_set_other. intros ->. now rewrite str_eqb_refl in E.
Qed.

Lemma obj_get_some_in (o : Row V) k v : obj_get k o = Some v -> In k (keys o).
Proof.
  induction o as [|[k' v'] o IH]; simpl; [discriminate|].
  destruct (str_eqb k k') eqn:E; auto.
  apply str_eqb_eq in E. auto.
Qed.

Lemma latest_none (row : Row V) k :
  (forall k', In k' (keys row) -> toLowerCase k' <> k) -> latest k row = None.
Proof.
  induction row as [|[k' v'] row IH]; simpl; intros H; auto.
  rewrite IH by auto.
  rewrite str_eqb_neq; auto. intros ->. apply (H k'); auto.
Qed.

(** [latest] is the value of the last field whose name, in lower case, is
    [k]. *)
Lemma latest_split (pre post : Row V) k' v :
  (forall k'', In k'' (keys post) -> toLowerCase k'' <> toLowerCase k') ->
  latest (toLowerCase k') (pre ++ (k', v) :: post) = Some v.
Proof.
  intros H. induction pre as [|[k0 v0] pre IH]; simpl.
  - rewrite latest_none by auto. now rewrite str_eqb_refl.
  - now rewrite IH.
Qed.

Lemma latest_some (row : Row V) k v :
  latest k row = Some v ->
  exists k', In (k', v) row /\ toLowerCase k' = k.
Proof.
  induction row as [|[k0 v0] row IH]; simpl; [discriminate|].
  destruct (latest k row) as [w|] eqn:E.
  - intros H. inversion H; subst. destruct (IH eq_refl) as (k' & Hin & Hk).
    exists k'. auto.
  - destruct (str_eqb k (toLowerCase k0)) eqn:S; [|discriminate].
    intros H. inversion H; subst. apply str_eqb_eq in S.
    exists k0. auto.
Qed.

(** The row returned for a row: its names are the names of the row in
    lower case, the name of the accessor left out, none twice, and each
    value is the value of a field of the row with that name. *)
Lemma lower_into_row (row : Row V) :
  row_ok (lower_into [] row)
  /\ (forall k, In k (keys (lower_into [] row))
                <-> In k (map toLowerCase (keys row)) /\ k <> proto)
  /\ (forall k v, obj_get k (lower_into [] row) = Some v ->
                  exists k', In (k', v) row /\ toLowerCase k' = k).
Proof.
  split; [apply lower_into_ok; constructor|]. split.
  - intros k. split.
    + intros H. apply lower_into_incl in H as [[]|H]. exact H.
    + intros [H P]. apply in_map_iff in H as (k' & <- & H).
      now apply lower_into_has.
  - intros k v H.
    assert (k <> proto) as P.
    { intros ->. apply obj_get_some_in in H.
      revert H. apply lower_into_no_proto. intros []. }
    rewrite lower_into_get in H by assumption. simpl in H.
    destruct (latest k row) as [w|] eqn:E; [|discriminate].
    inversion H; subst. now apply latest_some.
Qed.

Lemma map_collision (f : jsstring -> jsstring) (l : list jsstring) a b :
  NoDup (map f l) -> In a l -> In b l -> f a = f b -> a = b.
Proof.
  induction l as [|x l IH]; simpl; intros N Ha Hb E; [tauto|].
  inversion N as [|? ? Hx Hl]; subst.
  destruct Ha as [->|Ha], Hb as [->|Hb]; auto.
  - exfalso. apply Hx. rewrite E. now apply in_map.
  - exfalso. apply Hx. rewrite <- E. now apply in_map.
Qed.

Lemma lower_into_lowercase (row acc : Row V) :
  Forall (fun k => toLowerCase k = k) (keys acc) ->
  Forall (fun k => toLowerCase k = k) (keys (lower_into acc row)).
Proof.
  intros H. apply Forall_forall. intros x Hx.
  apply lower_into_incl in Hx as [Hx|[Hx _]].
  - rewrite Forall_forall in H. auto.
  - apply in_map_iff in Hx as (k & <- & _). apply toLowerCase_idem.
Qed.

Lemma lowercase_fixed (row : Row V) :
  row_ok row -> Forall (fun k => toLowerCase k = k) (keys row) ->
  ~ In proto (keys row) ->
  lower_into [] row = row.
Proof.
  intros N L P.
  assert (map toLowerCase (keys row) = keys row) as E.
  { rewrite <- (map_id (keys row)) at 2. apply map_ext_in.
    rewrite Forall_forall in L. auto. }
  rewrite lower_into_fresh by (simpl; now rewrite E).
  simpl. unfold lower_fields.
  rewrite <- (map_id row) at 2. apply map_ext_in. intros [k v] Hin. simpl.
  rewrite Forall_forall in L. rewrite L; auto.
  unfold keys. apply in_map_iff. exists (k, v). auto.
Qed.

Lemma rows_distinct (row : Row V) :
  NoDup (map toLowerCase (keys row)) ->
  ~ In proto (map toLowerCase (keys row)) ->
  lower_into [] row = lower_fields row.
Proof. intros N P. now rewrite lower_into_fresh. Qed.

(** With two names that meet in lower case the row gets shorter. *)
Lemma collision_shorter (row : Row V) k1 k2 :
  In k1 (keys row) -> In k2 (keys row) -> k1 <> k2 ->
  toLowerCase k1 = toLowerCase k2 ->
  List.length (lower_into [] row) < List.length row.
Proof.
  intros H1 H2 N E.
  assert (NoDup (keys (lower_into [] row))) as ND
    by (apply lower_into_ok; constructor).
  assert (incl (keys (lower_into [] row)) (map toLowerCase (keys row))) as I.
  { intros x Hx. apply lower_into_incl in Hx as [[]|[Hx _]]; auto. }
  pose proof (NoDup_incl_length ND I) as Le.
  unfold keys in Le. rewrite !length_map in Le.
  destruct (Nat.eq_dec (List.length (lower_into [] row)) (List.length row)) as [Q|Q];
    [|lia].
  exfalso. apply N.
  apply (map_collision toLowerCase (keys row)); auto.
  apply (NoDup_incl_NoDup ND); auto.
  unfold keys. rewrite !length_map. lia.
Qed.

End Rows.

(** C7, as stated, on a row with the names [A] and [a]: the row returned
    has one field, the value of [A] is gone.  And on a row with the names
    [__PROTO__] and [A]: the row returned has no field for the first. *)
Lemma C7_counterexample :
  row_ok [(lit "A", JNum 1); (lit "a", JNum 2)]
  /\ lowercaseKeys [[(lit "A", JNum 1); (lit "a", JNum 2)]]
     = [[(lit "a", JNum 2)]]
  /\ lowercaseKeys [[(lit "A", JNum 1); (lit "a", JNum 2)]]
     <> map lower_fields [[(lit "A", JNum 1); (lit "a", JNum 2)]]
  /\ row_ok [(lit "__PROTO__", JNum 1); (lit "A", JNum 2)]
  /\ lowercaseKeys [[(lit "__PROTO__", JNum 1); (lit "A", JNum 2)]]
     = [[(lit "a", JNum 2)]]
  /\ lowercaseKeys [[(lit "__PROTO__", JNum 1); (lit "A", JNum 2)]]
     <> map lower_fields [[(lit "__PROTO__", JNum 1); (lit "A", JNum 2)]].
Proof.
  split; [|split; [|split; [|split; [|split]]]];
    try reflexivity; try discriminate;
    repeat constructor; simpl; intuition discriminate.
Qed.

(** C7, as amended.  Take rows none of which has a name that is
    [__proto__] in lower case.  [lowercaseKeys] returns as many rows as it
    gets, in the same order: row by row, the names of the row returned are
    the names of the row given in lower case, and each of its values is the
    value of a field of that name.  A row whose names stay distinct in lower
    case comes back field by field, in the order of the fields, each name in
    lower case and each value as it was.  Rows whose names are in lower case
    already come back equal, and normalising twice is normalising once. *)
Theorem C7_lowercaseKeys (V : Type) (rows : list (Row V)) :
  (forall row, In row rows -> no_proto row) ->
  List.length (lowercaseKeys rows) = List.length rows
  /\ Forall2 (fun row out =>
                row_ok out
                /\ (forall k, In k (keys out) <-> In k (map toLowerCase (keys row)))
                /\ (forall k v, obj_get k out = Some v ->
                                exists k', In (k', v) row /\ toLowerCase k' = k))
             rows (lowercaseKeys rows)
  /\ ((forall row, In row rows -> NoDup (map toLowerCase (keys row))) ->
      lowercaseKeys rows = map lower_fields rows)
  /\ ((forall row, In row rows ->
         row_ok row /\ Forall (fun k => toLowerCase k = k) (keys row)) ->
      lowercaseKeys rows = rows)
  /\ lowercaseKeys (lowercaseKeys rows) = lowercaseKeys rows.
Proof.
  intros P. unfold lowercaseKeys. split; [|split; [|split; [|split]]].
  - apply length_map.
  - induction rows as [|row rows IH]; simpl; constructor.
    + destruct (lower_into_row V row) as (R1 & R2 & R3).
      split; [exact R1|]. split; [|exact R3].
      intros k. rewrite R2. split; [tauto|]. intros H. split; [exact H|].
      intros ->. exact (P row (or_introl eq_refl) H).
    + apply IH. intros r Hr. apply P. now right.
  - intros H. apply map_ext_in. intros row Hin.
    apply rows_distinct; [now apply H | now apply P].
  - intros H. rewrite <- (map_id rows) at 2. apply map_ext_in.
    intros row Hin. destruct (H row Hin) as (Hok & Hl).
    apply lowercase_fixed; auto.
    intros Hp. apply (P row Hin). unfold no_proto.
    apply in_map_iff. exists proto. split; [reflexivity | exact Hp].
  - rewrite map_map. apply map_ext. intros row.
    apply lowercase_fixed.
    + apply lower_into_ok. constructor.
    + apply lower_into_lowercase. constructor.
    + apply lower_into_no_proto. intros [].
Qed.

Lemma C7_witness :
  List.length (lowercaseKeys [[(lit "Name", JNum 1); (lit "id", JNum 7)];
                              [(lit "A", JNum 1); (lit "a", JNum 2)]])
  = List.length [[(lit "Name", JNum 1); (lit "id", JNum 7)];
                 [(lit "A", JNum 1); (lit "a", JNum 2)]]
  /\ lowercaseKeys
       (lowercaseKeys [[(lit "Name", JNum 1); (lit "id", JNum 7)];
                       [(lit "A", JNum 1); (lit "a", JNum 2)]])
     = lowercaseKeys [[(lit "Name", JNum 1); (lit "id", JNum 7)];
                      [(lit "A", JNum 1); (lit "a", JNum 2)]].
Proof.
  destruct (C7_lowercaseKeys JsVal
              [[(lit "Name", JNum 1); (lit "id", JNum 7)];
               [(lit "A", JNum 1); (lit "a", JNum 2)]]) as (L & _ & _ & _ & I).
  - intros row [<-|[<-|[]]]; unfold no_proto; simpl; intuition discriminate.
  - split; [exact L | exact I].
Defined.

(** C10, as stated, on a row with the names [__PROTO__] and [__Proto__],
    which are one name in lower case: the row returned has no field at
    all. *)
Lemma C10_counterexample :
  row_ok [(lit "__PROTO__", JNum 1); (lit "__Proto__", JNum 2)]
  /\ lit "__PROTO__" <> lit "__Proto__"
  /\ toLowerCase (lit "__PROTO__") = toLowerCase (lit "__Proto__")
  /\ lowercaseKeys [[(lit "__PROTO__", JNum 1); (lit "__Proto__", JNum 2)]] = [[]]
  /\ ~ (exists out : Row JsVal,
          lowercaseKeys [[(lit "__PROTO__", JNum 1); (lit "__Proto__", JNum 2)]]
          = [out]
          /\ In (toLowerCase (lit "__PROTO__")) (keys out)).
Proof.
  split; [|split; [|split; [|split]]];
    try reflexivity; try discriminate.
  - repeat constructor; simpl; intuition discriminate.
  - intros (out & E & H). inversion E; subst. destruct H.
Qed.

(** C10, as amended.  Let a row have two different names that are one
    name [k] in lower case, and no name that is [__proto__] in lower case.
    The row [lowercaseKeys] returns for it has [k] once; its value there is
    the value of the last field of the row whose name is [k] in lower case;
    and the row returned has fewer fields than the row given. *)
Theorem C10_collision_last_wins (V : Type) (row : Row V) k1 k2 :
  row_ok row -> no_proto row ->
  In k1 (keys row) -> In k2 (keys row) -> k1 <> k2 ->
  toLowerCase k1 = toLowerCase k2 ->
  exists out,
    lowercaseKeys [row] = [out]
    /\ In (toLowerCase k1) (keys out) /\ NoDup (keys out)
    /\ (forall pre k v post,
          row = pre ++ (k, v) :: post ->
          toLowerCase k = toLowerCase k1 ->
          (forall k', In k' (keys post) -> toLowerCase k' <> toLowerCase k1) ->
          obj_get (toLowerCase k1) out = Some v)
    /\ List.length out < List.length row.
Proof.
  intros _ P H1 H2 N E.
  assert (toLowerCase k1 <> proto) as P1.
  { intros Q. apply P. rewrite <- Q. now apply in_map. }
  exists (lower_into [] row).
  split; [reflexivity|]. split; [|split; [|split]].
  - now apply lower_into_has.
  - apply lower_into_ok. constructor.
  - intros pre k v post -> Ek Hpost.
    rewrite lower_into_get, <- Ek, latest_split; auto.
    intros k' Hk'. rewrite Ek. auto.
  - exact (collision_shorter V row k1 k2 H1 H2 N E).
Qed.

Lemma C10_witness :
  exists out,
    lowercaseKeys [[(lit "Name", JNum 1); (lit "id", JNum 7); (lit "NAME", JNum 2)]]
    = [out]
    /\ In (toLowerCase (lit "Name")) (keys out) /\ NoDup (keys out)
    /\ (forall pre k v post,
          [(lit "Name", JNum 1); (lit "id", JNum 7); (lit "NAME", JNum 2)]
          = pre ++ (k, v) :: post ->
          toLowerCase k = toLowerCase (lit "Name") ->
          (forall k', In k' (keys post) ->
                      toLowerCase k' <> toLowerCase (lit "Name")) ->
          obj_get (toLowerCase (lit "Name")) out = Some v)
    /\ List.length out
       < List.length [(lit "Name", JNum 1); (lit "id", JNum 7); (lit "NAME", JNum 2)].
Proof.
  apply (C10_collision_last_wins JsVal
           [(lit "Name", JNum 1); (lit "id", JNum 7); (lit "NAME", JNum 2)]
           (lit "Name") (lit "NAME")).
  - repeat constructor; simpl; intuition discriminate.
  - unfold no_proto; simpl; intuition discriminate.
  - simpl; auto.
  - simpl; auto.
  - discriminate.
  - reflexivity.
Defined.

End NormalizerFacts.

(** ** Case-insensitive comparisons *)

Module ComparisonFacts.
Import Chars Regex Js Db Spec ComparisonSpec RegexFacts ScanFacts OccursFacts.
Import TranslateFacts.

Lemma same_lit_eq ci l m : same ci l m = true <-> lit_eq ci l m.
Proof.
  revert m. induction l as [|a l IH]; intros [|b m]; simpl; split; intros E;
    try discriminate; try (inversion E; fail).
  - constructor.
  - reflexivity.
  - apply andb_true_iff in E as [H1 H2]. constructor; auto. now apply IH.
  - inversion E; subst. apply andb_true_iff. split; auto. now apply IH.
Qed.

(** A character that is a letter of [ILIKE], in either case, is not white
    space. *)
Lemma ilike_char_nonspace c :
  forallb (fun x => negb (char_eq true x c && is_space c)) kw_ilike = true.
Proof. destruct c as [[] [] [] [] [] [] [] []]; reflexivity. Qed.

Lemma lit_eq_nonspace l m :
  incl l kw_ilike -> lit_eq true l m -> forallb is_nonspace m = true.
Proof.
  intros I H. induction H as [|a b l m Hab _ IH]; simpl; auto.
  rewrite IH by (intros x Hx; apply I; simpl; auto). rewrite andb_true_r.
  pose proof (ilike_char_nonspace b) as F. rewrite forallb_forall in F.
  specialize (F a (I a (or_introl eq_refl))). rewrite Hab in F. simpl in F.
  unfold is_nonspace. now rewrite F.
Qed.

Lemma ends_space_app a b : b <> [] -> ends_space (a ++ b) = ends_space b.
Proof.
  intros Hb. induction a as [|x a IH]; auto.
  simpl. destruct (a ++ b) eqn:E; auto.
  apply app_eq_nil in E as [_ E]. congruence.
Qed.

Lemma nonspace_no_end s : forallb is_nonspace s = true -> ends_space s = false.
Proof.
  induction s as [|c t IH]; simpl; auto.
  intros H. apply andb_true_iff in H as [Hc Ht].
  destruct t; auto. unfold is_nonspace in Hc. now apply negb_true_iff in Hc.
Qed.

Lemma strip_app_cases ci l b y rest :
  strip ci l (b ++ y) = Some rest ->
  prefix_of ci l b = true \/ exists l1 l2, l = l1 ++ l2 /\ lit_eq ci l1 b.
Proof.
  revert b. induction l as [|a l IH]; intros b Hs; simpl; auto.
  destruct b as [|x b].
  - right. exists [], (a :: l). split; auto. constructor.
  - simpl in Hs. destruct (char_eq ci a x) eqn:E; [|discriminate].
    destruct (IH _ Hs) as [P | (l1 & l2 & -> & L)].
    + left. now rewrite P.
    + right. exists (a :: l1), l2. split; auto. constructor; auto.
Qed.

Lemma occurs_suffix ci l a b :
  occurs ci l (a ++ b) = false -> prefix_of ci l b = false.
Proof.
  intros H. destruct (prefix_of ci l b) eqn:P; auto.
  rewrite occurs_app_r in H; auto. now apply occurs_prefix.
Qed.

(** What a successful attempt of the pattern of line 34 has read. *)
Lemma exec_ilike_inv s caps rest :
  exec re_ilike s = Some (caps, rest) ->
  fst (span is_nonspace s) <> []
  /\ fst (span is_space (snd (span is_nonspace s))) <> []
  /\ exists s3,
       strip true kw_ilike
             (snd (span is_space (snd (span is_nonspace s)))) = Some s3
       /\ fst (span is_space s3) <> [].
Proof.
  rewrite exec_max by reflexivity.
  cbn [run_max re_ilike items icase in_class].
  destruct (fst (span is_nonspace s)); [discriminate|].
  destruct (fst (span is_space (snd (span is_nonspace s)))); [discriminate|].
  fold kw_ilike.
  destruct (strip true kw_ilike
              (snd (span is_space (snd (span is_nonspace s))))) as [s3|];
    [|discriminate].
  destruct (fst (span is_space s3)) eqn:E4; [discriminate|].
  intros _. split; [discriminate|]. split; [discriminate|].
  exists s3. split; [reflexivity | rewrite E4; discriminate].
Qed.

Lemma token_inv s :
  token s = true -> s <> [] /\ forallb is_nonspace s = true.
Proof.
  unfold token. intros H. apply andb_true_iff in H as [H1 H2].
  split; auto. destruct s; [discriminate | discriminate].
Qed.

Lemma blank_inv s :
  blank s = true -> s <> [] /\ forallb is_space s = true.
Proof.
  unfold blank. intros H. apply andb_true_iff in H as [H1 H2].
  split; auto. destruct s; [discriminate | discriminate].
Qed.

Lemma stops_app_nonempty p a b :
  a <> [] -> stops p a -> stops p (a ++ b).
Proof. destruct a; simpl; auto. congruence. Qed.

Lemma token_stops_space s : token s = true -> stops is_space s.
Proof.
  intros H. apply token_inv in H as [N F]. destruct s as [|c t]; simpl; auto.
  simpl in F. apply andb_true_iff in F as [F _].
  unfold is_nonspace in F. now apply negb_true_iff in F.
Qed.

Lemma blank_stops_nonspace s : blank s = true -> stops is_nonspace s.
Proof.
  intros H. apply blank_inv in H as [N F]. destruct s as [|c t]; simpl; auto.
  simpl in F. apply andb_true_iff in F as [F _].
  unfold is_nonspace. now rewrite F.
Qed.

Lemma operator_token o : same true kw_ilike o = true -> token o = true.
Proof.
  intros H. apply same_lit_eq in H.
  pose proof (lit_eq_nonspace kw_ilike o (incl_refl _) H) as F.
  unfold token. rewrite F. inversion H; reflexivity.
Qed.

Lemma after_stops rest :
  empty rest || starts_space rest = true -> stops is_nonspace rest.
Proof.
  destruct rest as [|c t]; simpl; auto. unfold is_nonspace. now intros ->.
Qed.

(** At the start of a comparison the pattern of line 34 reads the
    comparison, the whole of it and no more, and captures its operands. *)
Lemma exec_ilike_comparison c rest :
  comparison_ok c = true ->
  empty rest || starts_space rest = true ->
  exec re_ilike (comparison_text c ++ rest)
  = Some ([left_operand c; right_operand c], rest).
Proof.
  destruct c as [l w1 o w2 r]. unfold comparison_ok, comparison_text.
  cbn [left_operand gap_before operator gap_after right_operand].
  intros H Hrest.
  apply andb_true_iff in H as [H Tr]. apply andb_true_iff in H as [H B2].
  apply andb_true_iff in H as [H So]. apply andb_true_iff in H as [H B1].
  apply andb_true_iff in H as [Tl Nl].
  pose proof (operator_token _ So) as To.
  rewrite <- !app_assoc.
  rewrite exec_max by reflexivity.
  cbn [run_max re_ilike items icase in_class].
  rewrite (span_run is_nonspace l);
    [| apply token_inv, Tl
     | apply stops_app_nonempty; [apply blank_inv, B1 | apply blank_stops_nonspace, B1]].
  cbn [fst snd].
  destruct l as [|l0 l]; [discriminate|].
  rewrite (span_run is_space w1);
    [| apply blank_inv, B1
     | apply stops_app_nonempty; [apply token_inv, To | apply token_stops_space, To]].
  cbn [fst snd].
  destruct w1 as [|w10 w1]; [discriminate|].
  fold kw_ilike. rewrite (strip_lit true kw_ilike o) by (now apply same_lit_eq).
  rewrite (span_run is_space w2);
    [| apply blank_inv, B2
     | apply stops_app_nonempty; [apply token_inv, Tr | apply token_stops_space, Tr]].
  cbn [fst snd].
  destruct w2 as [|w20 w2]; [discriminate|].
  rewrite (span_run is_nonspace r);
    [| apply token_inv, Tr | now apply after_stops].
  cbn [fst snd].
  destruct r as [|r0 r]; [discriminate|].
  reflexivity.
Qed.

Lemma span_stops p s : stops p (snd (span p s)).
Proof.
  unfold stops. destruct (snd (span p s)) eqn:E; auto.
  eapply span_stop; eauto.
Qed.

Lemma span_head p s :
  fst (span p s) <> [] -> exists c t, s = c :: t /\ p c = true.
Proof.
  destruct s as [|c t]; simpl; [congruence|].
  destruct (p c) eqn:E; [|simpl; congruence].
  intros _. exists c, t. auto.
Qed.

Lemma incl_app_l (l1 l2 : jsstring) : incl l1 (l1 ++ l2).
Proof. intros x Hx. apply in_or_app. auto. Qed.

(** In the text that goes before a comparison no attempt of the pattern
    of line 34 succeeds: neither inside that text, which has no operator,
    nor with the left operand of the comparison taken for the operator. *)
Lemma exec_ilike_before sep c rest a b :
  occurs true kw_ilike sep = false -> ends_space sep = true ->
  comparison_ok c = true ->
  sep = a ++ b -> b <> [] ->
  exec re_ilike (b ++ comparison_text c ++ rest) = None.
Proof.
  intros Hocc Hend Hc -> Hb.
  destruct (exec re_ilike (b ++ comparison_text c ++ rest)) as [[caps r']|] eqn:E;
    [exfalso | reflexivity].
  apply exec_ilike_inv in E as (N1 & N2 & s3 & S3 & N3).
  rewrite (ends_space_app a b Hb) in Hend.
  destruct c as [l w1 o w2 r]. unfold comparison_ok, comparison_text in *.
  cbn [left_operand gap_before operator gap_after right_operand] in *.
  apply andb_true_iff in Hc as [Hc Tr]. apply andb_true_iff in Hc as [Hc B2].
  apply andb_true_iff in Hc as [Hc So]. apply andb_true_iff in Hc as [Hc B1].
  apply andb_true_iff in Hc as [Tl Nl].
  rewrite <- !app_assoc in *.
  set (y := l ++ w1 ++ o ++ w2 ++ r ++ rest) in *.
  assert (Sy : stops is_space y)
    by (apply stops_app_nonempty; [apply token_inv, Tl | apply token_stops_space, Tl]).
  (* the first token of [b] and what follows it *)
  pose proof (span_app is_nonspace b) as Eb.
  pose proof (span_all is_nonspace b) as Fa1.
  pose proof (span_stops is_nonspace b) as Sb1.
  set (a1 := fst (span is_nonspace b)) in *.
  set (b1 := snd (span is_nonspace b)) in *.
  assert (Nb1 : b1 <> []).
  { intros Z. rewrite Z, app_nil_r in Eb.
    rewrite Eb, (nonspace_no_end a1 Fa1) in Hend. discriminate. }
  assert (Hend1 : ends_space b1 = true)
    by (rewrite Eb, (ends_space_app a1 b1 Nb1) in Hend; exact Hend).
  assert (R1 : span is_nonspace (b ++ y) = (a1, b1 ++ y)).
  { rewrite Eb at 1. rewrite <- app_assoc.
    apply span_run; auto; try (apply stops_app_nonempty; auto). }
  rewrite R1 in N2, S3. cbn [fst snd] in N2, S3.
  (* the white space after it *)
  pose proof (span_app is_space b1) as Eb1.
  pose proof (span_all is_space b1) as Fa2.
  pose proof (span_stops is_space b1) as Sb2.
  set (a2 := fst (span is_space b1)) in *.
  set (b2 := snd (span is_space b1)) in *.
  destruct b2 as [|x b2'] eqn:Eb2.
  - (* the white space runs up to the comparison *)
    rewrite app_nil_r in Eb1.
    assert (R2 : span is_space (b1 ++ y) = (b1, y))
      by (apply span_run; [rewrite Eb1; exact Fa2 | exact Sy]).
    rewrite R2 in S3. cbn [snd] in S3.
    destruct (strip_inv _ _ _ _ S3) as (m & Ey & Lm).
    pose proof (lit_eq_nonspace kw_ilike m (incl_refl _) Lm) as Fm.
    destruct (span_head _ _ N3) as (z & s3' & -> & Hz).
    assert (span is_nonspace y = (m, z :: s3')) as Y1.
    { rewrite Ey. apply span_run; auto. simpl. unfold is_nonspace. now rewrite Hz. }
    assert (span is_nonspace y = (l, w1 ++ o ++ w2 ++ r ++ rest)) as Y2.
    { unfold y. apply span_run; [apply token_inv, Tl|].
      apply stops_app_nonempty; [apply blank_inv, B1 | apply blank_stops_nonspace, B1]. }
    rewrite Y1 in Y2. injection Y2 as -> _.
    apply same_lit_eq in Lm. rewrite Lm in Nl. discriminate.
  - (* a token of the text before the comparison is where the operator
       should be *)
    assert (Nb2 : x :: b2' <> []) by discriminate.
    assert (R2 : span is_space (b1 ++ y) = (a2, (x :: b2') ++ y)).
    { rewrite Eb1 at 1. rewrite <- app_assoc.
      apply span_run; auto; try (apply stops_app_nonempty; auto). }
    rewrite R2 in S3. cbn [snd] in S3.
    destruct (strip_app_cases _ _ _ _ _ S3) as [P | (l1 & l2 & Ek & L1)].
    + assert (prefix_of true kw_ilike (x :: b2') = false) as Q.
      { apply (occurs_suffix true kw_ilike (a ++ a1 ++ a2)).
        rewrite <- !app_assoc. rewrite <- Eb1, <- Eb. exact Hocc. }
      congruence.
    + assert (forallb is_nonspace (x :: b2') = true) as F2.
      { apply (lit_eq_nonspace l1); auto. rewrite Ek. apply incl_app_l. }
      apply nonspace_no_end in F2.
      rewrite Eb1, (ends_space_app a2 (x :: b2') Nb2) in Hend1. congruence.
Qed.

Section Rewrite.
Variable repl : list jsstring -> jsstring.
Variable render : Comparison -> jsstring.
Hypothesis Hrender :
  forall c, repl [left_operand c; right_operand c] = render c.

(** One comparison and the text before it: the text is copied, the
    comparison is rewritten from its own operands, and the search goes on
    after it. *)
Lemma ilike_step first sep c rest :
  before_ok first sep = true -> comparison_ok c = true ->
  empty rest || starts_space rest = true ->
  replace_all re_ilike repl (sep ++ comparison_text c ++ rest)
  = sep ++ render c ++ replace_all re_ilike repl rest.
Proof.
  intros Hs Hc Hr. unfold before_ok in Hs.
  apply andb_true_iff in Hs as [Ho He]. apply negb_true_iff in Ho.
  rewrite replace_all_skip; [f_equal | reflexivity |].
  - pose proof (exec_ilike_comparison c rest Hc Hr) as E.
    destruct (comparison_text c ++ rest) as [|x t] eqn:T.
    + exfalso. apply app_eq_nil in T as [T _].
      unfold comparison_text in T. apply app_eq_nil in T as [T _].
      unfold comparison_ok in Hc.
      destruct (left_operand c); [discriminate | discriminate].
    + rewrite replace_all_cons by reflexivity. rewrite E.
      now rewrite Hrender.
  - intros a b Eab Hb. apply (exec_ilike_before sep c rest a b); auto.
    destruct sep as [|s0 sep'].
    + destruct a; [simpl in Eab; congruence | discriminate].
    + destruct first; auto.
      apply andb_true_iff in He. tauto.
Qed.

Lemma assemble_starts parts post :
  parts_ok false parts = true -> after_ok post = true ->
  empty (assemble comparison_text parts post)
  || starts_space (assemble comparison_text parts post) = true.
Proof.
  destruct parts as [|[sep c] parts]; simpl.
  - intros _ H. unfold after_ok in H. apply andb_true_iff in H. tauto.
  - intros H _. apply andb_true_iff in H as [H _].
    apply andb_true_iff in H as [H _]. unfold before_ok in H.
    apply andb_true_iff in H as [_ H]. apply andb_true_iff in H as [H _].
    destruct sep; [discriminate|]. simpl in *. rewrite H. reflexivity.
Qed.

(** Every comparison of the text is rewritten, each from its own
    operands; the text before, between and after them is kept. *)
Lemma ilike_assemble parts : forall first post,
  parts_ok first parts = true -> after_ok post = true ->
  replace_all re_ilike repl (assemble comparison_text parts post)
  = assemble render parts post.
Proof.
  induction parts as [|[sep c] parts IH]; intros first post Hp Ha.
  - simpl. apply replace_all_id; [reflexivity|].
    unfold after_ok in Ha. apply andb_true_iff in Ha as [Ha _].
    apply negb_true_iff in Ha.
    apply (no_occurrence_no_match re_ilike kw_ilike); simpl; auto.
  - simpl in *. apply andb_true_iff in Hp as [Hp Hps].
    apply andb_true_iff in Hp as [Hs Hc].
    rewrite (ilike_step first); auto.
    + now rewrite (IH false).
    + now apply assemble_starts.
Qed.

End Rewrite.

(** The rewrite of line 34 and of line 70, on the text they get. *)
Lemma ilike_each_comparison parts post :
  parts_ok true parts = true -> after_ok post = true ->
  oracle_ilike (assemble comparison_text parts post)
  = assemble oracle_comparison parts post
  /\ mssql_ilike (assemble comparison_text parts post)
     = assemble mssql_comparison parts post.
Proof.
  intros Hp Ha. split.
  - apply (ilike_assemble _ oracle_comparison) with (first := true); auto.
  - apply (ilike_assemble _ mssql_comparison) with (first := true); auto.
Qed.

(** *** Placeholders in a text with comparisons *)

Lemma ph_spec_app_stop pre a b :
  stops is_digit b -> ph_spec pre (a ++ b) = ph_spec pre a ++ ph_spec pre b.
Proof.
  intros Hb. induction a as [|c t IH]; [reflexivity|].
  cbn [app ph_spec]. rewrite IH.
  destruct t as [|d t]; cbn [app].
  - assert (match b with d :: _ => is_digit d | [] => false end = false) as ->
      by (destruct b; auto).
    rewrite andb_false_r. reflexivity.
  - destruct (Ascii.eqb c "$" && is_digit d); [now rewrite <- app_assoc | reflexivity].
Qed.

Lemma space_not_dollar c : is_space c = true -> Ascii.eqb c "$" = false.
Proof.
  intros H. destruct (Ascii.eqb_spec c "$") as [E|];
    [subst c; vm_compute in H; discriminate | reflexivity].
Qed.

Lemma ph_spec_app_end pre a b :
  ends_space a = true -> ph_spec pre (a ++ b) = ph_spec pre a ++ ph_spec pre b.
Proof.
  induction a as [|c t IH]; [discriminate|].
  intros H. cbn [app ph_spec]. destruct t as [|d t].
  - simpl in H. rewrite (space_not_dollar _ H). reflexivity.
  - rewrite IH by exact H. cbn [app].
    destruct (Ascii.eqb c "$" && is_digit d); [now rewrite <- app_assoc | reflexivity].
Qed.

Lemma ph_spec_clean pre s :
  forallb (fun c => negb (is_dollar c)) s = true -> ph_spec pre s = s.
Proof.
  induction s as [|c t IH]; simpl; auto.
  intros H. apply andb_true_iff in H as [Hc Ht].
  unfold is_dollar in Hc. apply negb_true_iff in Hc. rewrite Hc. simpl.
  now rewrite IH.
Qed.

Lemma blank_clean pre s : forallb is_space s = true -> ph_spec pre s = s.
Proof.
  intros H. apply ph_spec_clean. rewrite forallb_forall in *.
  intros c Hc. unfold is_dollar. rewrite space_not_dollar; auto.
Qed.

Lemma ilike_char_not_dollar c :
  forallb (fun x => negb (char_eq true x c && is_dollar c)) kw_ilike = true.
Proof. destruct c as [[] [] [] [] [] [] [] []]; reflexivity. Qed.

Lemma operator_clean pre o : same true kw_ilike o = true -> ph_spec pre o = o.
Proof.
  intros H. apply same_lit_eq in H. apply ph_spec_clean.
  assert (G : forall l m, incl l kw_ilike -> lit_eq true l m ->
                          forallb (fun c => negb (is_dollar c)) m = true).
  { intros l m I L. induction L as [|a b l m Hab _ IH]; simpl; auto.
    rewrite IH by (intros x Hx; apply I; simpl; auto). rewrite andb_true_r.
    pose proof (ilike_char_not_dollar b) as F. rewrite forallb_forall in F.
    specialize (F a (I a (or_introl eq_refl))). rewrite Hab in F. exact F. }
  apply (G kw_ilike); auto. apply incl_refl.
Qed.

Lemma blank_ends s : blank s = true -> ends_space s = true.
Proof.
  intros H. apply blank_inv in H as [N F].
  induction s as [|c t IH]; [congruence|].
  simpl in *. apply andb_true_iff in F as [Fc Ft].
  destruct t; auto. apply IH; auto. discriminate.
Qed.

Lemma space_stops_digit s : stops is_nonspace s -> stops is_digit s.
Proof.
  destruct s as [|c t]; simpl; auto. unfold is_nonspace. intros H.
  apply negb_false_iff in H. destruct (is_digit c) eqn:D; auto.
  exfalso. revert H D. destruct c as [[] [] [] [] [] [] [] []]; vm_compute; congruence.
Qed.

(** The placeholder rewrite works inside the operands of a comparison and
    leaves the rest of it alone. *)
Lemma ph_comparison_text pre c rest :
  comparison_ok c = true ->
  empty rest || starts_space rest = true ->
  ph_spec pre (comparison_text c ++ rest)
  = comparison_text (ph_comparison pre c) ++ ph_spec pre rest.
Proof.
  destruct c as [l w1 o w2 r]. unfold comparison_ok, comparison_text, ph_comparison.
  cbn [left_operand gap_before operator gap_after right_operand].
  intros H Hrest.
  apply andb_true_iff in H as [H Tr]. apply andb_true_iff in H as [H B2].
  apply andb_true_iff in H as [H So]. apply andb_true_iff in H as [H B1].
  apply andb_true_iff in H as [Tl Nl].
  rewrite <- !app_assoc.
  rewrite (ph_spec_app_stop pre l)
    by (apply space_stops_digit, stops_app_nonempty;
        [apply blank_inv, B1 | apply blank_stops_nonspace, B1]).
  rewrite (ph_spec_app_end pre w1) by (now apply blank_ends).
  rewrite (ph_spec_app_stop pre o)
    by (apply space_stops_digit, stops_app_nonempty;
        [apply blank_inv, B2 | apply blank_stops_nonspace, B2]).
  rewrite (ph_spec_app_end pre w2) by (now apply blank_ends).
  rewrite (ph_spec_app_stop pre r) by (now apply space_stops_digit, after_stops).
  rewrite (blank_clean pre w1) by (apply blank_inv, B1).
  rewrite (blank_clean pre w2) by (apply blank_inv, B2).
  rewrite (operator_clean pre o So).
  reflexivity.
Qed.

Lemma ph_assemble pre parts : forall first post,
  parts_ok first parts = true -> after_ok post = true ->
  ph_spec pre (assemble comparison_text parts post)
  = assemble comparison_text (ph_parts pre parts) (ph_spec pre post).
Proof.
  induction parts as [|[sep c] parts IH]; intros first post Hp Ha; [reflexivity|].
  simpl in *. apply andb_true_iff in Hp as [Hp Hps].
  apply andb_true_iff in Hp as [Hs Hc].
  assert (ph_spec pre (sep ++ comparison_text c ++ assemble comparison_text parts post)
          = ph_spec pre sep
            ++ ph_spec pre (comparison_text c ++ assemble comparison_text parts post))
    as ->.
  { unfold before_ok in Hs. apply andb_true_iff in Hs as [_ Hs].
    destruct sep as [|s0 sep]; [reflexivity|].
    apply ph_spec_app_end. destruct first; auto.
    apply andb_true_iff in Hs. tauto. }
  rewrite ph_comparison_text; auto.
  - rewrite (IH false); auto.
  - now apply assemble_starts.
Qed.

Section Prefix.
Variable x : ascii.
Variable pre' : jsstring.
Hypothesis Hpre_nonspace : forallb is_nonspace (x :: pre') = true.
Hypothesis Hpre_apart : apart true kw_ilike (x :: pre') = true.

Lemma ph_empty s : empty (ph_spec (x :: pre') s) = empty s.
Proof.
  destruct s as [|c t]; simpl; auto.
  destruct (Ascii.eqb c "$" && match t with d :: _ => is_digit d | [] => false end);
    reflexivity.
Qed.

Lemma ph_nonspace s :
  forallb is_nonspace s = true -> forallb is_nonspace (ph_spec (x :: pre') s) = true.
Proof.
  induction s as [|c t IH]; auto.
  intros H. cbn [forallb] in H. apply andb_true_iff in H as [Hc Ht].
  cbn [ph_spec].
  destruct (Ascii.eqb c "$" && match t with d :: _ => is_digit d | [] => false end).
  - rewrite forallb_app, Hpre_nonspace, IH; auto.
  - cbn [forallb]. rewrite Hc, IH; auto.
Qed.

Lemma token_ph s : token s = true -> token (ph_spec (x :: pre') s) = true.
Proof.
  unfold token. intros H. apply andb_true_iff in H as [H1 H2].
  now rewrite ph_empty, H1, ph_nonspace.
Qed.

Lemma apart_tail ci a l p : apart ci (a :: l) p = true -> apart ci l p = true.
Proof.
  unfold apart. induction p as [|y p IH]; simpl; auto.
  intros H. apply andb_true_iff in H as [H1 H2].
  apply andb_true_iff in H1 as [_ H1]. now rewrite H1, IH.
Qed.

Lemma same_ph ci l : forall s,
  apart ci l (x :: pre') = true ->
  same ci l (ph_spec (x :: pre') s) = true -> same ci l s = true.
Proof.
  induction l as [|a l IH]; intros s A H.
  - destruct s as [|c t]; auto. exfalso. revert H. simpl.
    destruct (Ascii.eqb c "$" && match t with d :: _ => is_digit d | [] => false end);
      discriminate.
  - destruct s as [|c t]; [exact H|].
    revert H. cbn [ph_spec].
    destruct (Ascii.eqb c "$" && match t with d :: _ => is_digit d | [] => false end).
    + simpl. simpl in A. apply andb_true_iff in A as [A _].
      apply andb_true_iff in A as [A _]. apply negb_true_iff in A.
      rewrite A. discriminate.
    + simpl. intros H. apply andb_true_iff in H as [H1 H2].
      rewrite H1. simpl. apply IH; auto. eapply apart_tail; eauto.
Qed.

Lemma starts_space_ph s :
  starts_space s = true -> starts_space (ph_spec (x :: pre') s) = true.
Proof.
  destruct s as [|c t]; simpl; auto. intros H.
  now rewrite (space_not_dollar _ H).
Qed.

Lemma ph_spec_cons pre c t :
  ph_spec pre (c :: t)
  = if Ascii.eqb c "$" && match t with d :: _ => is_digit d | [] => false end
    then pre ++ ph_spec pre t
    else c :: ph_spec pre t.
Proof. reflexivity. Qed.

Lemma ends_space_ph s :
  ends_space s = true -> ends_space (ph_spec (x :: pre') s) = true.
Proof.
  induction s as [|c t IH]; auto. intros H.
  destruct t as [|d t].
  - simpl. rewrite andb_false_r. exact H.
  - assert (Ht : ends_space (d :: t) = true) by exact H.
    specialize (IH Ht).
    assert (N : ph_spec (x :: pre') (d :: t) <> []).
    { intros Z. pose proof (ph_empty (d :: t)) as E. rewrite Z in E. discriminate. }
    rewrite (ph_spec_cons (x :: pre') c (d :: t)).
    destruct (Ascii.eqb c "$" && is_digit d).
    + rewrite ends_space_app; auto.
    + change (c :: ph_spec (x :: pre') (d :: t))
        with ([c] ++ ph_spec (x :: pre') (d :: t)).
      rewrite ends_space_app; auto.
Qed.

Lemma before_ok_ph first sep :
  before_ok first sep = true -> before_ok first (ph_spec (x :: pre') sep) = true.
Proof.
  unfold before_ok. intros H. apply andb_true_iff in H as [H1 H2].
  apply negb_true_iff in H1.
  rewrite (occurs_ph true kw_ilike x pre' sep) by (auto; discriminate).
  simpl. destruct first.
  - apply orb_true_iff in H2 as [H2|H2].
    + now rewrite ph_empty, H2.
    + rewrite ends_space_ph; auto. apply orb_true_r.
  - apply andb_true_iff in H2 as [H2 H3].
    now rewrite starts_space_ph, ends_space_ph.
Qed.

Lemma comparison_ok_ph c :
  comparison_ok c = true -> comparison_ok (ph_comparison (x :: pre') c) = true.
Proof.
  destruct c as [l w1 o w2 r]. unfold comparison_ok, ph_comparison.
  cbn [left_operand gap_before operator gap_after right_operand].
  intros H.
  apply andb_true_iff in H as [H Tr]. apply andb_true_iff in H as [H B2].
  apply andb_true_iff in H as [H So]. apply andb_true_iff in H as [H B1].
  apply andb_true_iff in H as [Tl Nl].
  rewrite !token_ph, B1, So, B2 by assumption.
  destruct (same true kw_ilike (ph_spec (x :: pre') l)) eqn:E; [|reflexivity].
  apply same_ph in E; auto. rewrite E in Nl. discriminate.
Qed.

Lemma parts_ok_ph parts : forall first,
  parts_ok first parts = true -> parts_ok first (ph_parts (x :: pre') parts) = true.
Proof.
  induction parts as [|[sep c] parts IH]; intros first H; auto.
  simpl in *. apply andb_true_iff in H as [H Hps].
  apply andb_true_iff in H as [Hs Hc].
  now rewrite before_ok_ph, comparison_ok_ph, IH.
Qed.

Lemma after_ok_ph post :
  after_ok post = true -> after_ok (ph_spec (x :: pre') post) = true.
Proof.
  unfold after_ok. intros H. apply andb_true_iff in H as [H1 H2].
  apply negb_true_iff in H1.
  rewrite (occurs_ph true kw_ilike x pre' post) by (auto; discriminate).
  simpl. apply orb_true_iff in H2 as [H2|H2].
  - now rewrite ph_empty, H2.
  - rewrite starts_space_ph; auto. apply orb_true_r.
Qed.

End Prefix.

(** *** Keywords in the text that comes out of line 34 and line 70 *)

#[local] Arguments char_eq : simpl never.

Lemma occurs_app_false ci l a b :
  occurs ci l (a ++ b) = false -> occurs ci l a = false /\ occurs ci l b = false.
Proof.
  intros H. split.
  - destruct (occurs ci l a) eqn:E; auto. now rewrite occurs_app_l in H.
  - destruct (occurs ci l b) eqn:E; auto. now rewrite occurs_app_r in H.
Qed.

Section Keyword.
Variable kw : jsstring.

(** The keyword has no white space in it, does not start with a letter of
    [UPPER(], does not end with [)] and is not in [ LIKE ]. *)
Hypothesis Hnospace :
  forall c, is_space c = true -> forallb (fun k => negb (char_eq true k c)) kw = true.
Hypothesis Hhead :
  match kw with
  | [] => false
  | k :: _ => forallb (fun y => negb (char_eq true k y)) (lit "UPPER(")
  end = true.
Hypothesis Hlast : negb (char_eq true (last kw ")"%char) ")") = true.
Hypothesis Hlike : occurs true kw (lit " LIKE ") = false.

Lemma nospace_tail k l :
  (forall c, is_space c = true ->
             forallb (fun k => negb (char_eq true k c)) (k :: l) = true) ->
  forall c, is_space c = true -> forallb (fun k => negb (char_eq true k c)) l = true.
Proof.
  intros H c Hc. specialize (H c Hc). simpl in H.
  apply andb_true_iff in H. tauto.
Qed.

Lemma prefix_app_start l : forall a b,
  (forall c, is_space c = true -> forallb (fun k => negb (char_eq true k c)) l = true) ->
  empty b || starts_space b = true ->
  prefix_of true l (a ++ b) = true -> prefix_of true l a = true.
Proof.
  induction l as [|k l IH]; intros a b N Hb H; auto.
  destruct a as [|c t].
  - exfalso. simpl in H. destruct b as [|s b]; [discriminate|].
    simpl in Hb. specialize (N s Hb). simpl in N.
    apply andb_true_iff in N as [N _]. apply negb_true_iff in N.
    rewrite N in H. discriminate.
  - simpl in *. apply andb_true_iff in H as [H1 H2]. rewrite H1. simpl.
    apply (IH t b); auto. eapply nospace_tail; eauto.
Qed.

Lemma prefix_app_end l : forall a b,
  (forall c, is_space c = true -> forallb (fun k => negb (char_eq true k c)) l = true) ->
  ends_space a = true ->
  prefix_of true l (a ++ b) = true -> prefix_of true l a = true.
Proof.
  induction l as [|k l IH]; intros a b N Ha H; auto.
  destruct a as [|c t]; [discriminate|].
  cbn [app prefix_of] in H. apply andb_true_iff in H as [H1 H2].
  destruct t as [|d t].
  - exfalso. cbn [ends_space] in Ha. specialize (N c Ha). cbn [forallb] in N.
    apply andb_true_iff in N as [N _]. apply negb_true_iff in N. congruence.
  - cbn [prefix_of]. rewrite H1. cbn [andb]. apply (IH (d :: t) b); auto.
    eapply nospace_tail; eauto.
Qed.

Lemma occurs_app_start a b :
  empty b || starts_space b = true ->
  occurs true kw (a ++ b) = true ->
  occurs true kw a = true \/ occurs true kw b = true.
Proof.
  intros Hb. induction a as [|c t IH]; simpl; auto.
  intros H. apply orb_true_iff in H as [H|H].
  - left. change (c :: t ++ b) with ((c :: t) ++ b) in H.
    apply prefix_app_start in H; auto. now rewrite H.
  - destruct (IH H) as [P|P]; auto. left. rewrite P. apply orb_true_r.
Qed.

Lemma occurs_app_end a b :
  ends_space a = true ->
  occurs true kw (a ++ b) = true ->
  occurs true kw a = true \/ occurs true kw b = true.
Proof.
  induction a as [|c t IH]; [discriminate|].
  intros Ha H. simpl in H. apply orb_true_iff in H as [H|H].
  - left. change (c :: t ++ b) with ((c :: t) ++ b) in H.
    apply prefix_app_end in H; auto. apply occurs_prefix. exact H.
  - destruct t as [|d t]; [auto|].
    destruct (IH Ha H) as [P|P]; auto. left. now apply occurs_cons.
Qed.

Lemma occurs_skip_head pre x :
  match kw with
  | [] => false
  | k :: _ => forallb (fun y => negb (char_eq true k y)) pre
  end = true ->
  occurs true kw (pre ++ x) = true -> occurs true kw x = true.
Proof.
  induction pre as [|y pre IH]; simpl; auto.
  destruct kw as [|k l] eqn:K; [discriminate|].
  intros A H. simpl in A. apply andb_true_iff in A as [Ay A].
  apply negb_true_iff in Ay. cbn [prefix_of] in H. rewrite Ay in H.
  simpl in H. auto.
Qed.

Lemma prefix_drop_last l : forall t y,
  prefix_of true l (t ++ [y]) = true ->
  prefix_of true l t = true \/ char_eq true (last l y) y = true.
Proof.
  induction l as [|k l IH]; intros t y H; auto.
  destruct t as [|c t].
  - simpl in H. apply andb_true_iff in H as [H1 H2].
    destruct l; [|discriminate]. right. exact H1.
  - simpl in H. apply andb_true_iff in H as [H1 H2].
    destruct l as [|k' l].
    + left. simpl. now rewrite H1.
    + destruct (IH t y H2) as [P|P].
      * left. change (char_eq true k c && prefix_of true (k' :: l) t = true).
        now rewrite H1, P.
      * right. exact P.
Qed.

Lemma occurs_drop_last t y :
  negb (char_eq true (last kw y) y) = true ->
  occurs true kw (t ++ [y]) = true -> occurs true kw t = true.
Proof.
  intros L. apply negb_true_iff in L.
  induction t as [|c t IH]; intros H.
  - simpl in H. rewrite orb_false_r in H.
    assert (prefix_of true kw [y] = true) as P
      by (destruct (prefix_of true kw [y]); auto; destruct kw; discriminate).
    destruct (prefix_drop_last kw [] y P) as [Q|Q]; [|congruence].
    now apply occurs_prefix.
  - simpl in H. apply orb_true_iff in H as [H|H].
    + change (c :: t ++ [y]) with ((c :: t) ++ [y]) in H.
      destruct (prefix_drop_last kw (c :: t) y H) as [Q|Q]; [|congruence].
      now apply occurs_prefix.
    + apply occurs_cons. auto.
Qed.

(** A token in [UPPER(...)] has the keyword only if the token has it. *)
Lemma occurs_upper tok :
  occurs true kw (lit "UPPER(" ++ tok ++ lit ")") = true -> occurs true kw tok = true.
Proof.
  intros H. apply occurs_skip_head in H; [|exact Hhead].
  apply (occurs_drop_last tok ")"); auto.
Qed.

Lemma oracle_comparison_free c :
  occurs true kw (left_operand c) = false ->
  occurs true kw (right_operand c) = false ->
  occurs true kw (oracle_comparison c) = false.
Proof.
  intros Hl Hr. unfold oracle_comparison.
  destruct (occurs true kw
              (lit "UPPER(" ++ left_operand c ++ lit ") LIKE UPPER("
               ++ right_operand c ++ lit ")")) eqn:E; auto.
  exfalso.
  change (lit ") LIKE UPPER(") with (lit ")" ++ lit " LIKE " ++ lit "UPPER(") in E.
  replace (lit "UPPER(" ++ left_operand c ++ (lit ")" ++ lit " LIKE " ++ lit "UPPER(")
           ++ right_operand c ++ lit ")")
    with ((lit "UPPER(" ++ left_operand c ++ lit ")")
          ++ lit " LIKE " ++ (lit "UPPER(" ++ right_operand c ++ lit ")")) in E
    by (now rewrite <- !app_assoc).
  apply occurs_app_start in E as [E|E]; [| |reflexivity].
  - apply occurs_upper in E. congruence.
  - apply occurs_app_end in E as [E|E]; [| |reflexivity].
    + congruence.
    + apply occurs_upper in E. congruence.
Qed.

Lemma mssql_comparison_free c :
  occurs true kw (left_operand c) = false ->
  occurs true kw (right_operand c) = false ->
  occurs true kw (mssql_comparison c) = false.
Proof.
  intros Hl Hr. unfold mssql_comparison.
  destruct (occurs true kw (left_operand c ++ lit " LIKE " ++ right_operand c)) eqn:E;
    auto.
  exfalso. apply occurs_app_start in E as [E|E]; [| |reflexivity].
  - congruence.
  - apply occurs_app_end in E as [E|E]; [| |reflexivity]; congruence.
Qed.

Lemma assemble_starts_any render parts post :
  parts_ok false parts = true -> after_ok post = true ->
  empty (assemble render parts post) || starts_space (assemble render parts post) = true.
Proof.
  destruct parts as [|[sep c] parts]; simpl.
  - intros _ H. unfold after_ok in H. apply andb_true_iff in H. tauto.
  - intros H _. apply andb_true_iff in H as [H _].
    apply andb_true_iff in H as [H _]. unfold before_ok in H.
    apply andb_true_iff in H as [_ H]. apply andb_true_iff in H as [H _].
    destruct sep; [discriminate|]. simpl in *. rewrite H. reflexivity.
Qed.

(** The keyword is in none of the pieces of a text it is not in. *)
Lemma pieces_free parts : forall post,
  occurs true kw (assemble comparison_text parts post) = false ->
  Forall (fun p => occurs true kw (fst p) = false
                   /\ occurs true kw (left_operand (snd p)) = false
                   /\ occurs true kw (right_operand (snd p)) = false) parts
  /\ occurs true kw post = false.
Proof.
  induction parts as [|[sep c] parts IH]; intros post H; simpl in *.
  - split; auto.
  - apply occurs_app_false in H as [Hs H].
    apply occurs_app_false in H as [Hc H].
    destruct (IH _ H) as [F P]. split; auto. constructor; auto. simpl.
    unfold comparison_text in Hc.
    apply occurs_app_false in Hc as [Hl Hc].
    apply occurs_app_false in Hc as [_ Hc].
    apply occurs_app_false in Hc as [_ Hc].
    apply occurs_app_false in Hc as [_ Hr]. auto.
Qed.

(** The text put together from renderings that do not have the keyword
    does not have it. *)
Lemma assemble_free render parts : forall first post,
  (forall c, occurs true kw (left_operand c) = false ->
             occurs true kw (right_operand c) = false ->
             occurs true kw (render c) = false) ->
  parts_ok first parts = true -> after_ok post = true ->
  Forall (fun p => occurs true kw (fst p) = false
                   /\ occurs true kw (left_operand (snd p)) = false
                   /\ occurs true kw (right_operand (snd p)) = false) parts ->
  occurs true kw post = false ->
  occurs true kw (assemble render parts post) = false.
Proof.
  induction parts as [|[sep c] parts IH]; intros first post R Hp Ha F P; auto.
  simpl in *. apply andb_true_iff in Hp as [Hp Hps].
  apply andb_true_iff in Hp as [Hs Hc].
  inversion F as [|? ? (Fs & Fl & Fr) F']; subst. simpl in *.
  specialize (IH false post R Hps Ha F' P).
  pose proof (assemble_starts_any render parts post Hps Ha) as St.
  assert (occurs true kw (render c ++ assemble render parts post) = false) as Q.
  { destruct (occurs true kw (render c ++ assemble render parts post)) eqn:E; auto.
    apply occurs_app_start in E as [E|E]; auto.
    - rewrite R in E; auto.
    - congruence. }
  destruct sep as [|s0 sep]; [exact Q|].
  destruct (occurs true kw ((s0 :: sep) ++ render c ++ assemble render parts post))
    eqn:E; auto.
  apply occurs_app_end in E as [E|E]; try congruence.
  unfold before_ok in Hs. apply andb_true_iff in Hs as [_ Hs].
  destruct first; auto. apply andb_true_iff in Hs. tauto.
Qed.

End Keyword.

Lemma prefix_longer ci l1 l2 s :
  prefix_of ci (l1 ++ l2) s = true -> prefix_of ci l1 s = true.
Proof.
  revert s. induction l1 as [|a l1 IH]; intros s H; auto.
  destruct s as [|b s]; [discriminate|].
  cbn [app prefix_of] in *. apply andb_true_iff in H as [H1 H2].
  now rewrite H1, (IH s).
Qed.

Lemma occurs_longer ci l1 l2 s :
  occurs ci (l1 ++ l2) s = true -> occurs ci l1 s = true.
Proof.
  induction s as [|c t IH]; simpl.
  - rewrite !orb_false_r. apply prefix_longer.
  - intros H. apply orb_true_iff in H as [H|H].
    + now rewrite (prefix_longer _ _ _ _ H).
    + rewrite IH; auto. apply orb_true_r.
Qed.

Lemma limit_nospace c :
  is_space c = true -> forallb (fun k => negb (char_eq true k c)) kw_limit = true.
Proof. destruct c as [[] [] [] [] [] [] [] []]; vm_compute; congruence. Qed.

Lemma count_nospace c :
  is_space c = true -> forallb (fun k => negb (char_eq true k c)) kw_count = true.
Proof. destruct c as [[] [] [] [] [] [] [] []]; vm_compute; congruence. Qed.

(** A keyword that the canonical text does not have is not in the text
    after the placeholders and the comparisons have been rewritten. *)
Lemma keyword_kept_out kw x pre' render parts post :
  (forall c, is_space c = true ->
             forallb (fun k => negb (char_eq true k c)) kw = true) ->
  kw <> [] -> apart true kw (x :: pre') = true ->
  (forall c, occurs true kw (left_operand c) = false ->
             occurs true kw (right_operand c) = false ->
             occurs true kw (render c) = false) ->
  forallb is_nonspace (x :: pre') = true ->
  apart true kw_ilike (x :: pre') = true ->
  parts_ok true parts = true -> after_ok post = true ->
  occurs true kw (assemble comparison_text parts post) = false ->
  occurs true kw (assemble render (ph_parts (x :: pre') parts)
                           (ph_spec (x :: pre') post)) = false.
Proof.
  intros Hns Hne Hap Hr Hn Hai Hp Ha Hocc.
  apply (occurs_ph true kw x pre') in Hocc; auto.
  rewrite (ph_assemble (x :: pre') parts true post Hp Ha) in Hocc.
  apply pieces_free in Hocc as [F P].
  apply (assemble_free kw Hns render) with (first := true); auto.
  - now apply parts_ok_ph.
  - now apply after_ok_ph.
Qed.

(** Lines 31 and 34, and lines 67 and 70, on a canonical text with
    comparisons. *)
Lemma stage_oracle parts post :
  parts_ok true parts = true -> after_ok post = true ->
  oracle_ilike (oracle_placeholders (assemble comparison_text parts post))
  = assemble oracle_comparison (ph_parts (lit ":") parts) (ph_spec (lit ":") post).
Proof.
  intros Hp Ha.
  rewrite oracle_placeholders_spec, (ph_assemble _ parts true post Hp Ha).
  apply ilike_each_comparison.
  - apply parts_ok_ph; auto; reflexivity.
  - apply after_ok_ph; auto; reflexivity.
Qed.

Lemma stage_mssql parts post :
  parts_ok true parts = true -> after_ok post = true ->
  mssql_ilike (mssql_placeholders (assemble comparison_text parts post))
  = assemble mssql_comparison (ph_parts (lit "@p") parts) (ph_spec (lit "@p") post).
Proof.
  intros Hp Ha.
  rewrite mssql_placeholders_spec, (ph_assemble _ parts true post Hp Ha).
  apply ilike_each_comparison.
  - apply parts_ok_ph; auto; reflexivity.
  - apply after_ok_ph; auto; reflexivity.
Qed.

(** C8.  Take a canonical text with any number of case-insensitive
    comparisons, two or more in particular: each one a token, the operator
    [ILIKE] in any letter case and a token, with white space around the
    operator; each set apart by white space from what is before and after
    it; no operator elsewhere in the text.  After lines 31 and 34 of
    [translateToOracle] every comparison reads
    [UPPER(left) LIKE UPPER(right)], after lines 67 and 70 of
    [translateToMssql] every one reads [left LIKE right]: with the operands
    of that comparison and of no other, placeholders rewritten, and with
    all the text around the comparisons as the placeholder rewrite leaves
    it.  This is the text [translateToMssql] returns when the canonical
    text has no [LIMIT], and the text [translateToOracle] returns when it
    has no [COUNT] either. *)
Theorem C8_ilike_each_occurrence parts post params :
  parts_ok true parts = true -> after_ok post = true ->
  (oracle_ilike (oracle_placeholders (assemble comparison_text parts post))
   = assemble oracle_comparison (ph_parts (lit ":") parts) (ph_spec (lit ":") post)
   /\ mssql_ilike (mssql_placeholders (assemble comparison_text parts post))
      = assemble mssql_comparison (ph_parts (lit "@p") parts)
                 (ph_spec (lit "@p") post))
  /\ (occurs true kw_limit (assemble comparison_text parts post) = false ->
      m_sql (translateToMssql (assemble comparison_text parts post) params)
      = assemble mssql_comparison (ph_parts (lit "@p") parts)
                 (ph_spec (lit "@p") post)
      /\ (occurs true kw_count (assemble comparison_text parts post) = false ->
          o_sql (translateToOracle (assemble comparison_text parts post) params)
          = assemble oracle_comparison (ph_parts (lit ":") parts)
                     (ph_spec (lit ":") post))).
Proof.
  intros Hp Ha.
  pose proof (stage_oracle parts post Hp Ha) as So.
  pose proof (stage_mssql parts post Hp Ha) as Sm.
  split; [split; assumption|].
  intros HL. split; [|intros HC].
  - unfold translateToMssql. rewrite Sm.
    rewrite mssql_limit_none; [reflexivity|].
    apply (keyword_kept_out kw_limit "@" (lit "p")); auto;
      try reflexivity; try discriminate.
    + apply limit_nospace.
    + intros c. apply (mssql_comparison_free kw_limit limit_nospace). reflexivity.
  - unfold translateToOracle. rewrite So.
    rewrite oracle_limit_none.
    + cbn iota beta. rewrite count_id; [reflexivity|].
      destruct (occurs true (lit "COUNT(*)")
                  (assemble oracle_comparison (ph_parts (lit ":") parts)
                            (ph_spec (lit ":") post))) eqn:E; auto.
      change (lit "COUNT(*)") with (kw_count ++ lit "(*)") in E.
      apply occurs_longer in E.
      assert (occurs true kw_count
                (assemble oracle_comparison (ph_parts (lit ":") parts)
                          (ph_spec (lit ":") post)) = false) as Q; [|congruence].
      apply (keyword_kept_out kw_count ":" []); auto;
        try reflexivity; try discriminate.
      * apply count_nospace.
      * intros c. apply (oracle_comparison_free kw_count count_nospace);
          reflexivity.
    + apply (keyword_kept_out kw_limit ":" []); auto;
        try reflexivity; try discriminate.
      * apply limit_nospace.
      * intros c. apply (oracle_comparison_free kw_limit limit_nospace);
          reflexivity.
Qed.

Lemma C8_witness :
  assemble comparison_text two_comparisons (lit " ORDER BY a")
  = lit "SELECT * FROM t WHERE a ILIKE $1 AND b ilike  $2 ORDER BY a"
  /\ o_sql (translateToOracle
              (lit "SELECT * FROM t WHERE a ILIKE $1 AND b ilike  $2 ORDER BY a")
              (Some [JStr (lit "x%"); JStr (lit "y%")]))
     = lit "SELECT * FROM t WHERE UPPER(a) LIKE UPPER(:1) AND UPPER(b) LIKE UPPER(:2) ORDER BY a"
  /\ m_sql (translateToMssql
              (lit "SELECT * FROM t WHERE a ILIKE $1 AND b ilike  $2 ORDER BY a")
              (Some [JStr (lit "x%"); JStr (lit "y%")]))
     = lit "SELECT * FROM t WHERE a LIKE @p1 AND b LIKE @p2 ORDER BY a".
Proof.
  destruct (C8_ilike_each_occurrence two_comparisons (lit " ORDER BY a")
              (Some [JStr (lit "x%"); JStr (lit "y%")]) eq_refl eq_refl)
    as [_ H].
  destruct (H eq_refl) as [Hm Ho].
  split; [reflexivity|]. split; [exact (Ho eq_refl) | exact Hm].
Defined.

End ComparisonFacts.

(** ** The pagination clause of a canonical text *)

Module PaginationFacts.
Import Chars Regex Js Db Spec PaginationSpec ComparisonSpec BindsSpec.
Import RegexFacts ScanFacts OccursFacts TranslateFacts ComparisonFacts.

#[local] Arguments char_eq : simpl never.

Lemma assemble_app_post render parts post z :
  assemble render parts (post ++ z) = assemble render parts post ++ z.
Proof.
  induction parts as [|[sep c] parts IH]; simpl; auto.
  now rewrite IH, <- !app_assoc.
Qed.

Lemma digits_inv s : digits s = true -> s <> [] /\ forallb is_digit s = true.
Proof.
  unfold digits. intros H. apply andb_true_iff in H as [H1 H2].
  split; auto. destruct s; discriminate.
Qed.

Lemma lit_eq_refl l : lit_eq true l l.
Proof.
  induction l as [|a l IH]; constructor; auto.
  unfold char_eq. apply Ascii.eqb_refl.
Qed.

Lemma strip_prefix ci l s r : strip ci l s = Some r -> prefix_of ci l s = true.
Proof.
  revert s. induction l as [|a l IH]; intros s H; auto.
  destruct s as [|b s]; [discriminate|]. cbn [strip prefix_of] in *.
  destruct (char_eq ci a b); [|discriminate]. simpl. eauto.
Qed.

Lemma digit_stops_space s : digits s = true -> stops is_space s.
Proof.
  intros H. apply digits_inv in H as [N F]. destruct s as [|c t]; [congruence|].
  simpl in *. apply andb_true_iff in F as [F _].
  revert F. destruct c as [[] [] [] [] [] [] [] []]; vm_compute; congruence.
Qed.

Lemma blank_stops_digit s : blank s = true -> stops is_digit s.
Proof. intros H. now apply space_stops_digit, blank_stops_nonspace. Qed.

(** The clause, as line 31 leaves it, is what the pattern of line 37
    matches, with the two numbers as captures. *)
Lemma exec_limit_clause w1 d1 w2 w3 d2 :
  blank w1 = true -> digits d1 = true -> blank w2 = true ->
  blank w3 = true -> digits d2 = true ->
  exec re_limit_oracle
       (lit "LIMIT" ++ w1 ++ lit ":" ++ d1 ++ w2 ++ lit "OFFSET" ++ w3
        ++ lit ":" ++ d2)
  = Some ([d1; d2], []).
Proof.
  intros B1 D1 B2 B3 D2.
  rewrite exec_max by reflexivity.
  cbn [run_max re_limit_oracle items icase in_class].
  rewrite (strip_lit true (lit "LIMIT") (lit "LIMIT")) by apply lit_eq_refl.
  rewrite (span_run is_space w1);
    [| apply blank_inv, B1 | reflexivity].
  cbn [fst snd]. destruct w1 as [|x1 w1]; [discriminate|].
  rewrite (strip_lit true (lit ":") (lit ":")) by apply lit_eq_refl.
  rewrite (span_run is_digit d1);
    [| apply digits_inv, D1
     | apply stops_app_nonempty; [apply blank_inv, B2 | apply blank_stops_digit, B2]].
  cbn [fst snd]. destruct d1 as [|y1 d1]; [discriminate|].
  rewrite (span_run is_space w2);
    [| apply blank_inv, B2 | reflexivity].
  cbn [fst snd]. destruct w2 as [|x2 w2]; [discriminate|].
  rewrite (strip_lit true (lit "OFFSET") (lit "OFFSET")) by apply lit_eq_refl.
  rewrite (span_run is_space w3);
    [| apply blank_inv, B3 | reflexivity].
  cbn [fst snd]. destruct w3 as [|x3 w3]; [discriminate|].
  rewrite (strip_lit true (lit ":") (lit ":")) by apply lit_eq_refl.
  assert (span is_digit d2 = (d2, [])) as E.
  { rewrite <- (app_nil_r d2) at 1.
    apply span_run; [apply digits_inv, D2 | exact I]. }
  rewrite E. cbn [fst snd].
  destruct d2 as [|y2 d2]; [discriminate|].
  reflexivity.
Qed.

Lemma search_hit re s caps rest :
  exec re s = Some (caps, rest) -> search re s = Some caps.
Proof. intros H. destruct s; simpl; now rewrite H. Qed.

Lemma exec_limit_none s :
  prefix_of true kw_limit s = false -> exec re_limit_oracle s = None.
Proof.
  intros H. unfold exec. cbn [re_limit_oracle items icase run].
  fold kw_limit. destruct (strip true kw_limit s) eqn:E; auto.
  apply strip_prefix in E. congruence.
Qed.

Lemma clause_starts mark sp w1 d1 w2 w3 d2 :
  blank sp = true ->
  starts_space (canonical_clause mark sp w1 d1 w2 w3 d2) = true.
Proof.
  intros B. apply blank_inv in B as [N F]. unfold canonical_clause.
  destruct sp as [|c sp]; [congruence|]. simpl in *.
  apply andb_true_iff in F. tauto.
Qed.

(** In a text without [LIMIT] followed by the clause, line 37 finds the
    clause and captures its two numbers. *)
Lemma search_limit_clause y sp w1 d1 w2 w3 d2 :
  occurs true kw_limit y = false ->
  blank sp = true -> blank w1 = true -> digits d1 = true -> blank w2 = true ->
  blank w3 = true -> digits d2 = true ->
  search re_limit_oracle (y ++ canonical_clause (lit ":") sp w1 d1 w2 w3 d2)
  = Some [d1; d2].
Proof.
  intros Hy Bs B1 D1 B2 B3 D2.
  rewrite search_skip.
  - unfold canonical_clause. rewrite search_skip.
    + eapply search_hit. now apply exec_limit_clause.
    + intros a b Eab Hb. apply exec_limit_none.
      destruct b as [|c b]; [congruence|].
      assert (is_space c = true) as Hc.
      { apply blank_inv in Bs as [_ F]. rewrite forallb_forall in F.
        apply F. rewrite Eab. apply in_or_app. right. simpl. auto. }
      pose proof (limit_nospace c Hc) as N. unfold kw_limit, lit in *.
      cbn [list_ascii_of_string forallb] in N.
      apply andb_true_iff in N as [N _]. apply negb_true_iff in N.
      cbn [app list_ascii_of_string prefix_of]. now rewrite N.
  - intros a b Eab Hb. apply exec_limit_none.
    destruct (prefix_of true kw_limit
                (b ++ canonical_clause (lit ":") sp w1 d1 w2 w3 d2)) eqn:P; auto.
    apply prefix_app_start in P.
    + rewrite Eab in Hy. apply occurs_suffix in Hy. congruence.
    + apply limit_nospace.
    + rewrite clause_starts by assumption. apply orb_true_r.
Qed.


(** *** The clause has no case-insensitive operator in it *)

Lemma ilike_nospace c :
  is_space c = true -> forallb (fun k => negb (char_eq true k c)) kw_ilike = true.
Proof. destruct c as [[] [] [] [] [] [] [] []]; vm_compute; congruence. Qed.

Lemma occurs_no_head k l s :
  forallb (fun c => negb (char_eq true k c)) s = true ->
  occurs true (k :: l) s = false.
Proof.
  induction s as [|c t IH]; [reflexivity|].
  intros H. cbn [forallb] in H. apply andb_true_iff in H as [Hc Ht].
  apply negb_true_iff in Hc. cbn [occurs prefix_of]. rewrite Hc, IH; auto.
Qed.

Lemma ilike_not_in_blank w : forallb is_space w = true -> occurs true kw_ilike w = false.
Proof.
  intros F. apply occurs_no_head. rewrite forallb_forall in *.
  intros c Hc. pose proof (ilike_nospace c (F c Hc)) as N.
  unfold kw_ilike, lit in N. cbn [list_ascii_of_string forallb] in N.
  apply andb_true_iff in N. tauto.
Qed.

Lemma ilike_not_in_number d :
  forallb is_digit d = true -> occurs true kw_ilike (lit "$" ++ d) = false.
Proof.
  intros F. apply occurs_no_head. cbn [lit list_ascii_of_string app forallb].
  apply andb_true_iff. split; [reflexivity|].
  rewrite forallb_forall in *. intros c Hc. specialize (F c Hc).
  revert F. destruct c as [[] [] [] [] [] [] [] []]; vm_compute; congruence.
Qed.

Lemma ilike_glue a w b :
  blank w = true ->
  occurs true kw_ilike a = false -> occurs true kw_ilike b = false ->
  occurs true kw_ilike (a ++ w ++ b) = false.
Proof.
  intros B Ha Hb.
  destruct (occurs true kw_ilike (a ++ w ++ b)) eqn:E; auto.
  apply (occurs_app_start kw_ilike ilike_nospace) in E as [E|E]; [congruence| |].
  - apply (occurs_app_end kw_ilike ilike_nospace) in E as [E|E];
      [| congruence | now apply blank_ends].
    rewrite ilike_not_in_blank in E; [discriminate | apply blank_inv, B].
  - apply blank_inv in B as [N F]. destruct w as [|c w]; [congruence|].
    simpl in *. apply andb_true_iff in F as [F _]. now rewrite F.
Qed.

Lemma clause_no_ilike sp w1 d1 w2 w3 d2 :
  blank sp = true -> blank w1 = true -> digits d1 = true -> blank w2 = true ->
  blank w3 = true -> digits d2 = true ->
  occurs true kw_ilike (canonical_clause (lit "$") sp w1 d1 w2 w3 d2) = false.
Proof.
  intros Bs B1 D1 B2 B3 D2. unfold canonical_clause.
  apply (ilike_glue [] sp); auto.
  apply ilike_glue; auto.
  replace (lit "$" ++ d1 ++ w2 ++ lit "OFFSET" ++ w3 ++ lit "$" ++ d2)
    with ((lit "$" ++ d1) ++ w2 ++ lit "OFFSET" ++ w3 ++ lit "$" ++ d2)
    by (now rewrite <- app_assoc).
  apply ilike_glue; auto.
  - apply ilike_not_in_number. apply digits_inv, D1.
  - apply ilike_glue; auto. apply ilike_not_in_number. apply digits_inv, D2.
Qed.

Lemma after_ok_clause post sp w1 d1 w2 w3 d2 :
  after_ok post = true ->
  blank sp = true -> blank w1 = true -> digits d1 = true -> blank w2 = true ->
  blank w3 = true -> digits d2 = true ->
  after_ok (post ++ canonical_clause (lit "$") sp w1 d1 w2 w3 d2) = true.
Proof.
  intros Ha Bs B1 D1 B2 B3 D2. unfold after_ok in *.
  apply andb_true_iff in Ha as [Ho Hs]. apply negb_true_iff in Ho.
  pose proof (clause_starts (lit "$") sp w1 d1 w2 w3 d2 Bs) as St.
  apply andb_true_iff. split.
  - apply negb_true_iff.
    destruct (occurs true kw_ilike
                (post ++ canonical_clause (lit "$") sp w1 d1 w2 w3 d2)) eqn:E; auto.
    apply (occurs_app_start kw_ilike ilike_nospace) in E as [E|E]; [congruence| |].
    + rewrite clause_no_ilike in E by assumption. discriminate.
    + rewrite St. apply orb_true_r.
  - destruct post as [|c post]; [exact (eq_trans (f_equal _ St) (orb_true_r _))|].
    exact Hs.
Qed.

(** The clause has no operator in it, so a text without one has none
    with the clause after it. *)
Lemma no_ilike_with_clause y sp w1 d1 w2 w3 d2 :
  occurs true kw_ilike y = false ->
  blank sp = true -> blank w1 = true -> digits d1 = true -> blank w2 = true ->
  blank w3 = true -> digits d2 = true ->
  occurs true kw_ilike (y ++ canonical_clause (lit "$") sp w1 d1 w2 w3 d2) = false.
Proof.
  intros Hy Bs B1 D1 B2 B3 D2.
  destruct (occurs true kw_ilike
              (y ++ canonical_clause (lit "$") sp w1 d1 w2 w3 d2)) eqn:E; auto.
  apply (occurs_app_start kw_ilike ilike_nospace) in E as [E|E]; [congruence| |].
  - rewrite clause_no_ilike in E by assumption. discriminate.
  - rewrite clause_starts by assumption. apply orb_true_r.
Qed.




End PaginationFacts.

(** ** Pagination for SQL Server *)

Module MssqlPaginationFacts.
Import Chars Regex Js Db Spec PaginationSpec ComparisonSpec.
Import RegexFacts ScanFacts OccursFacts TranslateFacts ComparisonFacts PaginationFacts.
Import BindsSpec.

#[local] Arguments char_eq : simpl never.

Lemma replace_first_skip re repl pre x :
  (forall a b, pre = a ++ b -> b <> [] -> exec re (b ++ x) = None) ->
  replace_first re repl (pre ++ x) = pre ++ replace_first re repl x.
Proof.
  induction pre as [|c t IH]; intros H; [reflexivity|].
  pose proof (H [] (c :: t) eq_refl) as E. simpl in E.
  simpl. rewrite E by discriminate. f_equal. apply IH.
  intros a b -> Hb. apply (H (c :: a) b); auto.
Qed.

Lemma replace_first_hit re repl s caps rest :
  exec re s = Some (caps, rest) -> replace_first re repl s = repl caps ++ rest.
Proof. intros H. destruct s; simpl; now rewrite H. Qed.

(** The longest run of a class in a text cut in two, when the run ends in
    the first part. *)
Lemma span_app_stop p (b x : jsstring) :
  snd (span p b) <> [] ->
  span p (b ++ x) = (fst (span p b), snd (span p b) ++ x).
Proof.
  induction b as [|c b IH]; simpl; [congruence|].
  destruct (p c) eqn:E; [|reflexivity].
  destruct (span p b) as [u v] eqn:S. simpl in *. intros N.
  rewrite (IH N). reflexivity.
Qed.

Lemma span_nil_snd p (b : jsstring) :
  snd (span p b) = [] -> forallb p b = true.
Proof.
  induction b as [|c b IH]; simpl; auto.
  destruct (p c) eqn:E; [|discriminate].
  destruct (span p b) as [u v]. simpl in *. auto.
Qed.

Lemma span_suffix p (b : jsstring) :
  exists a, b = a ++ snd (span p b).
Proof. exists (fst (span p b)). apply span_app. Qed.

(** The clause, as line 67 leaves it, is what the patterns of lines 74 and
    80 match, white space before it included. *)
Lemma exec_mssql_clause sp w1 d1 w2 w3 d2 :
  blank sp = true -> blank w1 = true -> digits d1 = true -> blank w2 = true ->
  blank w3 = true -> digits d2 = true ->
  exec re_limit_mssql (canonical_clause (lit "@p") sp w1 d1 w2 w3 d2)
  = Some ([d1; d2], [])
  /\ exec re_limit_mssql_strip (canonical_clause (lit "@p") sp w1 d1 w2 w3 d2)
     = Some ([], []).
Proof.
  intros Bs B1 D1 B2 B3 D2. unfold canonical_clause.
  assert (span is_space (sp ++ lit "LIMIT" ++ w1 ++ lit "@p" ++ d1 ++ w2
                         ++ lit "OFFSET" ++ w3 ++ lit "@p" ++ d2)
          = (sp, lit "LIMIT" ++ w1 ++ lit "@p" ++ d1 ++ w2
                 ++ lit "OFFSET" ++ w3 ++ lit "@p" ++ d2)) as E0
    by (apply span_run; [apply blank_inv, Bs | reflexivity]).
  assert (span is_space (w1 ++ lit "@p" ++ d1 ++ w2 ++ lit "OFFSET" ++ w3
                         ++ lit "@p" ++ d2)
          = (w1, lit "@p" ++ d1 ++ w2 ++ lit "OFFSET" ++ w3 ++ lit "@p" ++ d2)) as E1
    by (apply span_run; [apply blank_inv, B1 | reflexivity]).
  assert (span is_digit (d1 ++ w2 ++ lit "OFFSET" ++ w3 ++ lit "@p" ++ d2)
          = (d1, w2 ++ lit "OFFSET" ++ w3 ++ lit "@p" ++ d2)) as E2.
  { apply span_run; [apply digits_inv, D1|].
    apply stops_app_nonempty; [apply blank_inv, B2 | apply blank_stops_digit, B2]. }
  assert (span is_space (w2 ++ lit "OFFSET" ++ w3 ++ lit "@p" ++ d2)
          = (w2, lit "OFFSET" ++ w3 ++ lit "@p" ++ d2)) as E3
    by (apply span_run; [apply blank_inv, B2 | reflexivity]).
  assert (span is_space (w3 ++ lit "@p" ++ d2) = (w3, lit "@p" ++ d2)) as E4
    by (apply span_run; [apply blank_inv, B3 | reflexivity]).
  assert (span is_digit d2 = (d2, [])) as E5.
  { rewrite <- (app_nil_r d2) at 1.
    apply span_run; [apply digits_inv, D2 | exact I]. }
  assert (w1 <> [] /\ d1 <> [] /\ w2 <> [] /\ w3 <> [] /\ d2 <> []) as (N1 & N2 & N3 & N4 & N5).
  { repeat split; try (apply blank_inv; assumption); apply digits_inv; assumption. }
  split.
  - rewrite exec_max by reflexivity.
    cbn [run_max re_limit_mssql items icase in_class].
    rewrite E0. cbn [fst snd].
    rewrite (strip_lit true (lit "LIMIT") (lit "LIMIT")) by apply lit_eq_refl.
    rewrite E1. cbn [fst snd]. destruct w1 as [|x1 w1]; [congruence|].
    rewrite (strip_lit true (lit "@p") (lit "@p")) by apply lit_eq_refl.
    rewrite E2. cbn [fst snd]. destruct d1 as [|y1 d1]; [congruence|].
    rewrite E3. cbn [fst snd]. destruct w2 as [|x2 w2]; [congruence|].
    rewrite (strip_lit true (lit "OFFSET") (lit "OFFSET")) by apply lit_eq_refl.
    rewrite E4. cbn [fst snd]. destruct w3 as [|x3 w3]; [congruence|].
    rewrite (strip_lit true (lit "@p") (lit "@p")) by apply lit_eq_refl.
    rewrite E5. cbn [fst snd]. destruct d2 as [|y2 d2]; [congruence|].
    reflexivity.
  - rewrite exec_max by reflexivity.
    cbn [run_max re_limit_mssql_strip items icase in_class].
    rewrite E0. cbn [fst snd].
    rewrite (strip_lit true (lit "LIMIT") (lit "LIMIT")) by apply lit_eq_refl.
    rewrite E1. cbn [fst snd]. destruct w1 as [|x1 w1]; [congruence|].
    rewrite (strip_lit true (lit "@p") (lit "@p")) by apply lit_eq_refl.
    rewrite E2. cbn [fst snd]. destruct d1 as [|y1 d1]; [congruence|].
    rewrite E3. cbn [fst snd]. destruct w2 as [|x2 w2]; [congruence|].
    rewrite (strip_lit true (lit "OFFSET") (lit "OFFSET")) by apply lit_eq_refl.
    rewrite E4. cbn [fst snd]. destruct w3 as [|x3 w3]; [congruence|].
    rewrite (strip_lit true (lit "@p") (lit "@p")) by apply lit_eq_refl.
    rewrite E5. cbn [fst snd]. destruct d2 as [|y2 d2]; [congruence|].
    reflexivity.
Qed.


(** Before the clause, in a text without [LIMIT] that does not end with
    white space, neither pattern matches. *)
Lemma run_max_limit_none tl s caps :
  prefix_of true kw_limit (snd (span is_space s)) = false ->
  run_max true (Many0 Space :: Lit (lit "LIMIT") :: tl) s caps = None.
Proof.
  intros H. cbn [run_max in_class]. fold kw_limit.
  destruct (strip true kw_limit (snd (span is_space s))) eqn:E; auto.
  apply strip_prefix in E. congruence.
Qed.

Lemma no_limit_before y clause a b :
  occurs true kw_limit y = false -> ends_space y = false ->
  starts_space clause = true ->
  y = a ++ b -> b <> [] ->
  prefix_of true kw_limit (snd (span is_space (b ++ clause))) = false.
Proof.
  intros Hy He Hc -> Hb.
  assert (snd (span is_space b) <> []) as N.
  { intros E. apply span_nil_snd in E.
    rewrite ends_space_app in He by assumption.
    rewrite blank_ends in He; [discriminate|].
    unfold blank. rewrite E. destruct b; [congruence | reflexivity]. }
  rewrite span_app_stop by assumption. cbn [snd].
  destruct (prefix_of true kw_limit (snd (span is_space b) ++ clause)) eqn:P; auto.
  apply prefix_app_start in P.
  - destruct (span_suffix is_space b) as (u & Eb).
    rewrite Eb, app_assoc in Hy. apply occurs_suffix in Hy. congruence.
  - apply limit_nospace.
  - rewrite Hc. apply orb_true_r.
Qed.

Lemma mssql_clause_found y sp w1 d1 w2 w3 d2 :
  occurs true kw_limit y = false -> ends_space y = false ->
  blank sp = true -> blank w1 = true -> digits d1 = true -> blank w2 = true ->
  blank w3 = true -> digits d2 = true ->
  search re_limit_mssql (y ++ canonical_clause (lit "@p") sp w1 d1 w2 w3 d2)
  = Some [d1; d2]
  /\ replace_first re_limit_mssql_strip (fun _ => [])
       (y ++ canonical_clause (lit "@p") sp w1 d1 w2 w3 d2) = y.
Proof.
  intros Hy He Bs B1 D1 B2 B3 D2.
  destruct (exec_mssql_clause sp w1 d1 w2 w3 d2 Bs B1 D1 B2 B3 D2) as [X1 X2].
  pose proof (clause_starts (lit "@p") sp w1 d1 w2 w3 d2 Bs) as St.
  split.
  - rewrite search_skip; [eapply search_hit; eauto|].
    intros a b Eab Hb. rewrite exec_max by reflexivity.
    apply run_max_limit_none. eapply no_limit_before; eauto.
  - rewrite replace_first_skip.
    + rewrite (replace_first_hit _ _ _ _ _ X2). now rewrite app_nil_r.
    + intros a b Eab Hb. rewrite exec_max by reflexivity.
      apply run_max_limit_none. eapply no_limit_before; eauto.
Qed.

(** Lines 31 and 67 on the canonical clause. *)
Lemma ph_clause_any pre post sp w1 d1 w2 w3 d2 :
  blank sp = true -> blank w1 = true -> digits d1 = true -> blank w2 = true ->
  blank w3 = true -> digits d2 = true ->
  ph_spec pre (post ++ canonical_clause (lit "$") sp w1 d1 w2 w3 d2)
  = ph_spec pre post ++ canonical_clause pre sp w1 d1 w2 w3 d2.
Proof.
  intros Bs B1 D1 B2 B3 D2. unfold canonical_clause.
  assert (Dollar : forall d r, digits d = true ->
            ph_spec pre (lit "$" ++ d ++ r) = pre ++ d ++ ph_spec pre r).
  { intros d r D. apply digits_inv in D as [N F].
    destruct d as [|c d]; [congruence|].
    cbn [lit list_ascii_of_string app]. rewrite ph_spec_cons.
    assert (is_digit c = true) as Hc by (simpl in F; apply andb_true_iff in F; tauto).
    cbn [Ascii.eqb Bool.eqb andb]. rewrite Hc. f_equal.
    change (c :: d ++ r) with ((c :: d) ++ r). now rewrite ph_spec_digits. }
  rewrite (ph_spec_app_stop _ post)
    by (apply stops_app_nonempty; [apply blank_inv, Bs | apply blank_stops_digit, Bs]).
  f_equal.
  rewrite (ph_spec_app_end _ sp), (blank_clean _ sp)
    by (try apply blank_ends; try apply blank_inv; assumption).
  f_equal.
  rewrite (ph_spec_app_stop _ (lit "LIMIT"))
    by (apply stops_app_nonempty; [apply blank_inv, B1 | apply blank_stops_digit, B1]).
  f_equal.
  rewrite (ph_spec_app_end _ w1), (blank_clean _ w1)
    by (try apply blank_ends; try apply blank_inv; assumption).
  f_equal. rewrite Dollar by assumption. f_equal. f_equal.
  rewrite (ph_spec_app_end _ w2), (blank_clean _ w2)
    by (try apply blank_ends; try apply blank_inv; assumption).
  f_equal.
  rewrite (ph_spec_app_stop _ (lit "OFFSET"))
    by (apply stops_app_nonempty; [apply blank_inv, B3 | apply blank_stops_digit, B3]).
  f_equal.
  rewrite (ph_spec_app_end _ w3), (blank_clean _ w3)
    by (try apply blank_ends; try apply blank_inv; assumption).
  f_equal.
  rewrite <- (app_nil_r d2) at 1. rewrite Dollar by assumption.
  now rewrite app_nil_r.
Qed.

(** The placeholder rewrite keeps the last character of a text. *)
Lemma ends_space_ph_eq x pre' s :
  ends_space (ph_spec (x :: pre') s) = ends_space s.
Proof.
  induction s as [|c t IH]; [reflexivity|].
  rewrite ph_spec_cons.
  destruct (Ascii.eqb c "$" && match t with d :: _ => is_digit d | [] => false end) eqn:E.
  - destruct t as [|d t]; [rewrite andb_false_r in E; discriminate|].
    assert (ph_spec (x :: pre') (d :: t) <> []) as N.
    { intros Q. pose proof (ph_empty x pre' (d :: t)) as P. rewrite Q in P.
      discriminate. }
    rewrite ends_space_app by assumption. rewrite IH. reflexivity.
  - destruct t as [|d t]; [reflexivity|].
    assert (ph_spec (x :: pre') (d :: t) <> []) as N.
    { intros Q. pose proof (ph_empty x pre' (d :: t)) as P. rewrite Q in P.
      discriminate. }
    change (ends_space (c :: ph_spec (x :: pre') (d :: t))) with
      (match ph_spec (x :: pre') (d :: t) with
       | [] => is_space c
       | _ :: _ => ends_space (ph_spec (x :: pre') (d :: t))
       end).
    destruct (ph_spec (x :: pre') (d :: t)) eqn:Q; [congruence|].
    rewrite <- Q at 1. rewrite <- Q in IH. exact IH.
Qed.


Lemma assemble_ends render parts : forall first post,
  (forall c, comparison_ok c = true ->
             render c <> [] /\ ends_space (render c) = false) ->
  parts_ok first parts = true -> ends_space post = false ->
  ends_space (assemble render parts post) = false.
Proof.
  induction parts as [|[sep c] parts IH]; intros first post Hr Hp He; [exact He|].
  cbn [parts_ok] in Hp. apply andb_true_iff in Hp as [Hp Hps].
  apply andb_true_iff in Hp as [_ Hc].
  cbn [assemble]. destruct (Hr c Hc) as [N E].
  destruct (assemble render parts post) as [|z zs] eqn:A.
  - rewrite app_nil_r. now rewrite ends_space_app.
  - rewrite app_assoc, ends_space_app by discriminate.
    rewrite <- A. eapply IH; eauto.
Qed.

Lemma mssql_comparison_ends c :
  comparison_ok c = true ->
  mssql_comparison c <> [] /\ ends_space (mssql_comparison c) = false.
Proof.
  intros H. unfold comparison_ok in H.
  repeat (apply andb_true_iff in H as [H ?]).
  match goal with T : token (right_operand c) = true |- _ =>
    apply token_inv in T as [N F] end.
  unfold mssql_comparison. split.
  - intros E. apply app_eq_nil in E as [_ E]. apply app_eq_nil in E as [E _].
    discriminate.
  - rewrite app_assoc, ends_space_app by assumption. now apply nonspace_no_end.
Qed.

(** Lines 67 and 70 on a canonical text that ends with the pagination
    clause. *)
Lemma stage_mssql_clause parts post sp w1 d1 w2 w3 d2 :
  parts_ok true parts = true -> tail_ok parts post = true ->
  occurs true kw_limit (assemble comparison_text parts post) = false ->
  ends_space post = false ->
  blank sp = true -> blank w1 = true -> digits d1 = true -> blank w2 = true ->
  blank w3 = true -> digits d2 = true ->
  mssql_ilike (mssql_placeholders
                 (assemble comparison_text parts post
                  ++ canonical_clause (lit "$") sp w1 d1 w2 w3 d2))
  = assemble mssql_comparison (ph_parts (lit "@p") parts) (ph_spec (lit "@p") post)
    ++ canonical_clause (lit "@p") sp w1 d1 w2 w3 d2
  /\ occurs true kw_limit
       (assemble mssql_comparison (ph_parts (lit "@p") parts)
                 (ph_spec (lit "@p") post)) = false
  /\ ends_space
       (assemble mssql_comparison (ph_parts (lit "@p") parts)
                 (ph_spec (lit "@p") post)) = false.
Proof.
  intros Hp Ht HL He Bs B1 D1 B2 B3 D2.
  destruct parts as [|p parts].
  - cbn [tail_ok] in Ht. apply negb_true_iff in Ht.
    cbn [assemble ph_parts map] in *. split; [|split].
    + rewrite mssql_placeholders_spec.
      rewrite mssql_ilike_id.
      * now apply ph_clause_any.
      * apply occurs_ph; [discriminate | reflexivity|].
        now apply no_ilike_with_clause.
    + apply occurs_ph; [discriminate | reflexivity | exact HL].
    + unfold lit. cbn [list_ascii_of_string]. now rewrite ends_space_ph_eq.
  - cbn [tail_ok] in Ht. split; [|split].
    + rewrite <- assemble_app_post.
      rewrite stage_mssql by (auto using after_ok_clause).
      rewrite ph_clause_any by assumption.
      now rewrite assemble_app_post.
    + apply (keyword_kept_out kw_limit "@" ["p"%char]); auto;
        try reflexivity; try discriminate.
      * apply limit_nospace.
      * intros c. apply (mssql_comparison_free kw_limit limit_nospace); reflexivity.
    + apply assemble_ends with (first := true).
      * apply mssql_comparison_ends.
      * apply parts_ok_ph; auto; reflexivity.
      * unfold lit. cbn [list_ascii_of_string]. now rewrite ends_space_ph_eq.
Qed.

(** Lines 67 to 83 on a canonical text that ends with the pagination
    clause: the text SQL Server gets and the binds that stay, whatever
    positions the clause names. *)
Lemma mssql_paginated parts post sp w1 d1 w2 w3 d2 ps :
  parts_ok true parts = true -> tail_ok parts post = true ->
  occurs true kw_limit (assemble comparison_text parts post) = false ->
  ends_space post = false ->
  blank sp = true -> blank w1 = true -> digits d1 = true -> blank w2 = true ->
  blank w3 = true -> digits d2 = true ->
  translateToMssql
    (assemble comparison_text parts post
     ++ canonical_clause (lit "$") sp w1 d1 w2 w3 d2) (Some ps)
  = {| m_sql :=
         assemble mssql_comparison (ph_parts (lit "@p") parts)
                  (ph_spec (lit "@p") post)
         ++ lit " OFFSET " ++ ToString (index ps (position (parseInt d2)))
         ++ lit " ROWS FETCH NEXT " ++ ToString (index ps (position (parseInt d1)))
         ++ lit " ROWS ONLY";
       m_filteredParams :=
         Some (filter_index
                 (fun i => differs i (position (parseInt d1))
                           && differs i (position (parseInt d2))) 0 ps) |}.
Proof.
  intros Hp Ht HL He Bs B1 D1 B2 B3 D2.
  destruct (stage_mssql_clause parts post sp w1 d1 w2 w3 d2) as (S & HL' & He');
    auto.
  unfold translateToMssql. rewrite S.
  destruct (mssql_clause_found _ sp w1 d1 w2 w3 d2 HL' He' Bs B1 D1 B2 B3 D2)
    as [F R].
  rewrite F. cbn iota beta. rewrite R. unfold cap. cbn [Nat.sub nth].
  reflexivity.
Qed.

Lemma filter_index_all keep a : forall from,
  (forall k, from <= k < from + List.length a -> keep k = true) ->
  filter_index keep from a = a.
Proof.
  induction a as [|v a IH]; intros from H; [reflexivity|].
  cbn [filter_index]. rewrite (H from) by (simpl; lia).
  f_equal. apply IH. intros k Hk. apply H. simpl. lia.
Qed.

Lemma index_out_of_range ps n :
  out_of_range ps n -> index ps (Some (n - 1)%Z) = JUndefined.
Proof.
  unfold out_of_range, index. intros [H|H].
  - replace (n - 1 <? 0)%Z with true by (symmetry; apply Z.ltb_lt; lia).
    reflexivity.
  - destruct (n - 1 <? 0)%Z; [reflexivity|].
    apply nth_overflow. lia.
Qed.

Lemma differs_out_of_range ps n k :
  out_of_range ps n -> k < List.length ps -> differs k (Some (n - 1)%Z) = true.
Proof.
  unfold out_of_range, differs. intros H Hk.
  apply negb_true_iff, Z.eqb_neq. lia.
Qed.

Lemma mssql_last_two parts post sp w1 d1 w2 w3 d2 front limit offset :
  parts_ok true parts = true -> tail_ok parts post = true ->
  occurs true kw_limit (assemble comparison_text parts post) = false ->
  ends_space post = false ->
  blank sp = true -> blank w1 = true -> digits d1 = true -> blank w2 = true ->
  blank w3 = true -> digits d2 = true ->
  parseInt d1 = Some (Z.of_nat (List.length front) + 1)%Z ->
  parseInt d2 = Some (Z.of_nat (List.length front) + 2)%Z ->
  translateToMssql
    (assemble comparison_text parts post
     ++ canonical_clause (lit "$") sp w1 d1 w2 w3 d2)
    (Some (front ++ [limit; offset]))
  = {| m_sql :=
         assemble mssql_comparison (ph_parts (lit "@p") parts)
                  (ph_spec (lit "@p") post)
         ++ lit " OFFSET " ++ ToString offset
         ++ lit " ROWS FETCH NEXT " ++ ToString limit ++ lit " ROWS ONLY";
       m_filteredParams := Some front |}.
Proof.
  intros Hp Ht HL He Bs B1 D1 B2 B3 D2 P1 P2.
  rewrite mssql_paginated by assumption. rewrite P1, P2. unfold position. cbn [option_map].
  set (n := List.length (front ++ [limit; offset])).
  assert (n = List.length front + 2) as Hn
    by (unfold n; rewrite length_app; reflexivity).
  replace (Z.of_nat (List.length front) + 1 - 1)%Z with (Z.of_nat n - 1 - 1)%Z by lia.
  replace (Z.of_nat (List.length front) + 2 - 1)%Z with (Z.of_nat n - 1)%Z by lia.
  rewrite (filter_last_two n (front ++ [limit; offset]) 0) by reflexivity.
  fold n. replace (n - 2) with (List.length front) by lia.
  rewrite firstn_app, firstn_all, Nat.sub_diag. cbn [firstn]. rewrite app_nil_r.
  unfold index.
  replace (Z.of_nat n - 1 - 1 <? 0)%Z with false by (symmetry; apply Z.ltb_ge; lia).
  replace (Z.of_nat n - 1 <? 0)%Z with false by (symmetry; apply Z.ltb_ge; lia).
  replace (Z.to_nat (Z.of_nat n - 1 - 1)) with (List.length front + 0) by lia.
  replace (Z.to_nat (Z.of_nat n - 1)) with (List.length front + 1) by lia.
  rewrite !app_nth2_plus. reflexivity.
Qed.

(** X1.  Pagination for SQL Server.  Take a canonical text that ends with the
    pagination clause [LIMIT $i OFFSET $j], after any number of
    case-insensitive comparisons and other text without [LIMIT] (not ending
    with white space), and binds of which the clause names the last two:
    [front ++ [limit; offset]], two values that are not numbers or are
    integers a double holds exactly.  Then [translateToMssql] takes exactly
    these two binds away and returns [front]; the text it returns is the
    text before the clause, placeholders and comparisons rewritten,
    followed by [ OFFSET offset ROWS FETCH NEXT limit ROWS ONLY] with the
    two values written out. *)
Theorem mssql_pagination_last_two parts post sp w1 d1 w2 w3 d2 front limit offset :
  parts_ok true parts = true -> tail_ok parts post = true ->
  occurs true kw_limit (assemble comparison_text parts post) = false ->
  ends_space post = false ->
  blank sp = true -> blank w1 = true -> digits d1 = true -> blank w2 = true ->
  blank w3 = true -> digits d2 = true ->
  parseInt d1 = Some (Z.of_nat (List.length front) + 1)%Z ->
  parseInt d2 = Some (Z.of_nat (List.length front) + 2)%Z ->
  Es.exact_value limit = true -> Es.exact_value offset = true ->
  translateToMssql
    (assemble comparison_text parts post
     ++ canonical_clause (lit "$") sp w1 d1 w2 w3 d2)
    (Some (front ++ [limit; offset]))
  = {| m_sql :=
         assemble mssql_comparison (ph_parts (lit "@p") parts)
                  (ph_spec (lit "@p") post)
         ++ lit " OFFSET " ++ ToString offset
         ++ lit " ROWS FETCH NEXT " ++ ToString limit ++ lit " ROWS ONLY";
       m_filteredParams := Some front |}.
Proof. intros; now apply mssql_last_two. Qed.

Lemma mssql_pagination_last_two_witness :
  translateToMssql
    (assemble comparison_text scenario_parts []
     ++ canonical_clause (lit "$") (lit " ") (lit " ") (lit "2") (lit " ")
          (lit " ") (lit "3"))
    (Some ([JStr (lit "%abc%")] ++ [JNum 5; JNum 10]))
  = {| m_sql :=
         assemble mssql_comparison (ph_parts (lit "@p") scenario_parts)
                  (ph_spec (lit "@p") [])
         ++ lit " OFFSET " ++ ToString (JNum 10)
         ++ lit " ROWS FETCH NEXT " ++ ToString (JNum 5) ++ lit " ROWS ONLY";
       m_filteredParams := Some [JStr (lit "%abc%")] |}.
Proof.
  apply (mssql_pagination_last_two scenario_parts [] (lit " ") (lit " ") (lit "2")
           (lit " ") (lit " ") (lit "3") [JStr (lit "%abc%")] (JNum 5) (JNum 10));
    reflexivity.
Defined.

(** X2.  Pagination without the binds.  When the positions the clause names are
    positions no bind has (a call without binds, for one), [translateToMssql]
    takes no bind away, and the clause it writes has [undefined] for both
    values. *)
Theorem mssql_pagination_missing_binds parts post sp w1 d1 w2 w3 d2 ps i j :
  parts_ok true parts = true -> tail_ok parts post = true ->
  occurs true kw_limit (assemble comparison_text parts post) = false ->
  ends_space post = false ->
  blank sp = true -> blank w1 = true -> digits d1 = true -> blank w2 = true ->
  blank w3 = true -> digits d2 = true ->
  parseInt d1 = Some i -> parseInt d2 = Some j ->
  out_of_range ps i -> out_of_range ps j ->
  translateToMssql
    (assemble comparison_text parts post
     ++ canonical_clause (lit "$") sp w1 d1 w2 w3 d2) (Some ps)
  = {| m_sql :=
         assemble mssql_comparison (ph_parts (lit "@p") parts)
                  (ph_spec (lit "@p") post)
         ++ lit " OFFSET undefined ROWS FETCH NEXT undefined ROWS ONLY";
       m_filteredParams := Some ps |}.
Proof.
  intros Hp Ht HL He Bs B1 D1 B2 B3 D2 P1 P2 O1 O2.
  rewrite mssql_paginated by assumption. rewrite P1, P2. unfold position. cbn [option_map].
  rewrite !index_out_of_range by assumption.
  rewrite filter_index_all; [reflexivity|].
  intros k Hk. simpl in Hk.
  rewrite (differs_out_of_range ps i), (differs_out_of_range ps j) by (auto; lia).
  reflexivity.
Qed.

Lemma mssql_pagination_missing_binds_witness :
  translateToMssql
    (assemble comparison_text [] (lit "SELECT * FROM t")
     ++ canonical_clause (lit "$") (lit " ") (lit " ") (lit "1") (lit " ")
          (lit " ") (lit "2")) (Some [])
  = {| m_sql :=
         assemble mssql_comparison (ph_parts (lit "@p") [])
                  (ph_spec (lit "@p") (lit "SELECT * FROM t"))
         ++ lit " OFFSET undefined ROWS FETCH NEXT undefined ROWS ONLY";
       m_filteredParams := Some [] |}.
Proof.
  apply (mssql_pagination_missing_binds [] (lit "SELECT * FROM t") (lit " ")
           (lit " ") (lit "1") (lit " ") (lit " ") (lit "2") [] 1 2);
    try reflexivity; right; simpl; lia.
Defined.

End MssqlPaginationFacts.

(** ** The binds that come back *)

Module BindsFacts.
Import Chars Regex Js Db Normalizer BindsSpec NormalizerFacts.

Lemma filter_index_subseq keep a : forall from,
  Subseq (filter_index keep from a) a.
Proof.
  induction a as [|v a IH]; intros from; cbn [filter_index]; [constructor|].
  destruct (keep from); [apply Subseq_keep | apply Subseq_skip]; auto.
Qed.

Lemma subseq_length {A : Type} (l m : list A) :
  Subseq l m -> List.length l <= List.length m.
Proof. induction 1; simpl; lia. Qed.

Lemma filter_index_two x y a : forall from,
  List.length a
  <= List.length (filter_index (fun i => differs i x && differs i y) from a)
     + ahead from x + ahead from y.
Proof.
  induction a as [|v a IH]; intros from; cbn [filter_index]; [simpl; lia|].
  specialize (IH (S from)).
  assert (forall z, differs from z = true -> ahead (S from) z <= ahead from z) as M.
  { intros [z|]; cbn [ahead differs]; auto. intros D.
    apply negb_true_iff, Z.eqb_neq in D.
    destruct (Z.leb_spec (Z.of_nat (S from)) z), (Z.leb_spec (Z.of_nat from) z); lia. }
  assert (forall z, differs from z = false ->
                    ahead (S from) z = 0 /\ ahead from z = 1) as K.
  { intros [z|]; cbn [ahead differs]; [|discriminate]. intros D.
    apply negb_false_iff, Z.eqb_eq in D.
    destruct (Z.leb_spec (Z.of_nat (S from)) z), (Z.leb_spec (Z.of_nat from) z); lia. }
  assert (forall z, ahead (S from) z <= ahead from z) as L.
  { intros z. destruct (differs from z) eqn:D; [now apply M|].
    destruct (K z D). lia. }
  destruct (differs from x) eqn:Dx; destruct (differs from y) eqn:Dy;
    cbn [andb List.length].
  - pose proof (M x Dx). pose proof (M y Dy). lia.
  - pose proof (L x). destruct (K y Dy). lia.
  - pose proof (L y). destruct (K x Dx). lia.
  - pose proof (L y). destruct (K x Dx). lia.
Qed.

Lemma ahead_le from x : ahead from x <= 1.
Proof. destruct x as [z|]; simpl; [destruct (Z.of_nat from <=? z)%Z|]; lia. Qed.

Lemma filter_two_bounds x y ps :
  Subseq (filter_index (fun i => differs i x && differs i y) 0 ps) ps
  /\ List.length ps
     <= List.length (filter_index (fun i => differs i x && differs i y) 0 ps) + 2.
Proof.
  split; [apply filter_index_subseq|].
  pose proof (filter_index_two x y ps 0).
  pose proof (ahead_le 0 x). pose proof (ahead_le 0 y). lia.
Qed.

(** X4.  Whatever the text and the binds: the binds either translator returns
    are the binds it got with at most two of them left out, in the order
    they came in; no bind is added, changed or moved.  When the call has no
    bind array, none comes back. *)
Theorem binds_kept_in_order text ps :
  (exists fp,
     m_filteredParams (translateToMssql text (Some ps)) = Some fp
     /\ Subseq fp ps /\ List.length ps <= List.length fp + 2)
  /\ (exists fp,
        o_filteredParams (translateToOracle text (Some ps)) = Some fp
        /\ Subseq fp ps /\ List.length ps <= List.length fp + 2)
  /\ m_filteredParams (translateToMssql text None) = None
  /\ o_filteredParams (translateToOracle text None) = None
  /\ o_binds (translateToOracle text None) = [].
Proof.
  assert (Same : Subseq ps ps /\ List.length ps <= List.length ps + 2).
  { split; [|lia]. induction ps; [apply Subseq_nil | apply Subseq_keep]; auto. }
  split; [|split; [|split; [|split]]].
  - unfold translateToMssql.
    destruct (search re_limit_mssql (mssql_ilike (mssql_placeholders text)))
      as [caps|]; cbn [m_filteredParams].
    + eexists. split; [reflexivity|]. apply filter_two_bounds.
    + exists ps. split; [reflexivity | exact Same].
  - unfold translateToOracle.
    destruct (search re_limit_oracle (oracle_ilike (oracle_placeholders text)))
      as [caps|]; cbn [o_filteredParams].
    + eexists. split; [reflexivity|]. apply filter_two_bounds.
    + exists ps. split; [reflexivity | exact Same].
  - unfold translateToMssql.
    destruct (search re_limit_mssql (mssql_ilike (mssql_placeholders text)));
      reflexivity.
  - unfold translateToOracle.
    destruct (search re_limit_oracle (oracle_ilike (oracle_placeholders text)));
      reflexivity.
  - unfold translateToOracle.
    destruct (search re_limit_oracle (oracle_ilike (oracle_placeholders text)));
      reflexivity.
Qed.

End BindsFacts.

(** ** Numbers in decimal notation *)

Module NumeralFacts.
Import Chars Js ComparisonSpec.

Lemma uint_digits d :
  forallb is_digit (list_ascii_of_string (NilEmpty.string_of_uint d)) = true.
Proof. induction d; simpl; auto. Qed.

Lemma uint_value d : forall acc : positive,
  fold_left (fun a c => 10 * a + digit_value c)%Z
            (list_ascii_of_string (NilEmpty.string_of_uint d)) (Z.pos acc)
  = Z.pos (Pos.of_uint_acc d acc).
Proof.
  induction d; intros acc; cbn [NilEmpty.string_of_uint list_ascii_of_string
                                fold_left Pos.of_uint_acc];
    try reflexivity;
    match goal with
    | |- context [digit_value ?c] =>
        let v := eval vm_compute in (digit_value c) in
        change (digit_value c) with v
    end;
    match goal with
    | |- fold_left _ _ ?z = Z.pos (Pos.of_uint_acc _ ?p) =>
        replace z with (Z.pos p) by lia
    end; apply IHd.
Qed.

Lemma uint_value0 d :
  fold_left (fun a c => 10 * a + digit_value c)%Z
            (list_ascii_of_string (NilEmpty.string_of_uint d)) 0%Z
  = Z.of_N (Pos.of_uint d).
Proof.
  induction d; cbn [NilEmpty.string_of_uint list_ascii_of_string fold_left
                    Pos.of_uint]; try reflexivity; try exact IHd;
    match goal with
    | |- context [digit_value ?c] =>
        let v := eval vm_compute in (digit_value c) in
        change (digit_value c) with v
    end;
    match goal with
    | |- fold_left _ _ ?z = Z.of_N (N.pos (Pos.of_uint_acc _ ?p)) =>
        replace z with (Z.pos p) by lia
    end; rewrite uint_value; reflexivity.
Qed.

Lemma dec_pos p :
  dec (Z.pos p) = list_ascii_of_string (NilEmpty.string_of_uint (Pos.to_uint p)).
Proof.
  unfold dec, lit. cbn [Z.to_int NilZero.string_of_int NilZero.string_of_uint].
  pose proof (DecimalPos.Unsigned.to_uint_nonnil p) as N.
  destruct (Pos.to_uint p); [congruence | reflexivity ..].
Qed.

(** The decimal notation of a number that is not negative is a run of
    digits. *)
Lemma dec_digits z : (0 <= z)%Z -> digits (dec z) = true.
Proof.
  intros H. destruct z as [|p|p]; [reflexivity| |lia].
  rewrite dec_pos. unfold digits. rewrite uint_digits, andb_true_r.
  pose proof (DecimalPos.Unsigned.to_uint_nonnil p) as N.
  destruct (Pos.to_uint p); [congruence | reflexivity ..].
Qed.

(** [parseInt] reads a number back from its decimal notation. *)
Lemma parseInt_dec z : (0 <= z)%Z -> parseInt (dec z) = Some z.
Proof.
  intros H. destruct z as [|p|p]; [reflexivity| |lia].
  pose proof (dec_digits (Z.pos p) H) as D. unfold digits in D.
  apply andb_true_iff in D as [N F].
  unfold parseInt.
  rewrite <- (app_nil_r (dec (Z.pos p))) at 1.
  rewrite (RegexFacts.span_run is_digit (dec (Z.pos p)) [] F I). cbn [fst].
  destruct (dec (Z.pos p)) as [|c s] eqn:E; [discriminate|].
  rewrite <- E. f_equal. rewrite dec_pos, uint_value0.
  now rewrite DecimalPos.Unsigned.of_to.
Qed.

Lemma dec_inj a b : (0 <= a)%Z -> (0 <= b)%Z -> dec a = dec b -> a = b.
Proof.
  intros Ha Hb E. pose proof (parseInt_dec a Ha) as Pa.
  rewrite E, (parseInt_dec b Hb) in Pa. congruence.
Qed.

End NumeralFacts.

(** ** The bind object of the Oracle translator *)

Module BindObjectFacts.
Import Chars Regex Js Db Normalizer BindsSpec NormalizerFacts NumeralFacts.

Lemma number_from_keys a : forall from k,
  In k (keys (number_from from a)) ->
  exists i, from <= i < from + List.length a /\ k = dec (Z.of_nat i + 1).
Proof.
  induction a as [|v a IH]; intros from k; cbn [number_from keys map fst];
    [intros []|].
  intros [<-|H].
  - exists from. simpl. split; [lia | reflexivity].
  - destruct (IH (S from) k H) as (i & Hi & ->). exists i. simpl. split; [lia | auto].
Qed.

Lemma number_from_nodup a : forall from, NoDup (keys (number_from from a)).
Proof.
  induction a as [|v a IH]; intros from; cbn [number_from keys map fst];
    constructor; [|apply IH].
  intros H. apply number_from_keys in H as (i & Hi & E).
  apply dec_inj in E; lia.
Qed.

Lemma number_from_get a : forall from i v,
  nth_error a i = Some v ->
  obj_get (dec (Z.of_nat (from + i) + 1)) (number_from from a) = Some v.
Proof.
  induction a as [|w a IH]; intros from i v H; [destruct i; discriminate|].
  cbn [number_from obj_get]. destruct i as [|i]; simpl in H.
  - inversion H; subst. rewrite Nat.add_0_r. now rewrite str_eqb_refl.
  - rewrite str_eqb_neq.
    + replace (from + S i) with (S from + i) by lia. now apply IH.
    + intros E. apply dec_inj in E; lia.
Qed.

Lemma obj_get_in {V : Type} k (o : Row V) :
  obj_get k o <> None -> In k (keys o).
Proof.
  induction o as [|[k' v'] o IH]; simpl; [congruence|].
  destruct (str_eqb k k') eqn:E; auto.
  apply str_eqb_eq in E. auto.
Qed.

Lemma number_from_length a : forall from,
  List.length (number_from from a) = List.length a.
Proof. induction a; intros from; simpl; auto. Qed.

Lemma oracle_binds_numbered text params :
  o_binds (translateToOracle text params)
  = match o_filteredParams (translateToOracle text params) with
    | Some fp => number_from 0 fp
    | None => []
    end.
Proof.
  unfold translateToOracle.
  destruct (search re_limit_oracle (oracle_ilike (oracle_placeholders text)));
    destruct params; reflexivity.
Qed.

(** X5.  The bind object [translateToOracle] returns holds the binds it returns
    and nothing else: as many properties as there are binds, each under a
    name of its own, the bind at position [i] (from 0) under the name
    [i + 1] in decimal notation, which is the number the placeholder [:n]
    has for [n = i + 1].  Without binds the object is empty. *)
Theorem oracle_binds_lookup text params :
  match o_filteredParams (translateToOracle text params) with
  | Some fp =>
      List.length (o_binds (translateToOracle text params)) = List.length fp
      /\ NoDup (keys (o_binds (translateToOracle text params)))
      /\ (forall i v, nth_error fp i = Some v ->
            obj_get (dec (Z.of_nat i + 1)) (o_binds (translateToOracle text params))
            = Some v)
      /\ (forall k, obj_get k (o_binds (translateToOracle text params)) <> None ->
            exists i, i < List.length fp /\ k = dec (Z.of_nat i + 1))
  | None => o_binds (translateToOracle text params) = []
  end.
Proof.
  rewrite oracle_binds_numbered.
  destruct (o_filteredParams (translateToOracle text params)) as [fp|];
    [|reflexivity].
  split; [apply number_from_length|]. split; [apply number_from_nodup|]. split.
  - intros i v H. apply (number_from_get fp 0 i v H).
  - intros k H. apply obj_get_in, number_from_keys in H as (i & Hi & ->).
    exists i. split; [lia | reflexivity].
Qed.

End BindObjectFacts.

(** ** The placeholder rewrite, once done *)

Module PlaceholderFacts.
Import Chars Regex Js Db Spec RegexFacts ScanFacts TranslateFacts ComparisonFacts.

Section Mark.
Variable x : ascii.
Variable pre' : jsstring.
Hypothesis Hx : is_digit x = false.
Hypothesis Hpre : forallb (fun c => negb (is_dollar c)) (x :: pre') = true.

Lemma ph_stops_digit s :
  stops is_digit s -> stops is_digit (ph_spec (x :: pre') s).
Proof.
  destruct s as [|c t]; [auto|]. intros H. rewrite ph_spec_cons.
  destruct (Ascii.eqb c "$" && match t with d :: _ => is_digit d | [] => false end);
    [exact Hx | exact H].
Qed.

Lemma stops_span_empty p s : stops p s -> fst (span p s) = [].
Proof. destruct s as [|c t]; simpl; auto. intros ->. reflexivity. Qed.

Lemma ph_no_placeholder s : forall a b,
  ph_spec (x :: pre') s = a ++ b -> exec re_placeholder b = None.
Proof.
  induction s as [|c t IH]; intros a b E.
  - simpl in E. symmetry in E. apply app_eq_nil in E as [_ ->]. reflexivity.
  - rewrite ph_spec_cons in E.
    destruct (Ascii.eqb c "$" && match t with d :: _ => is_digit d | [] => false end)
      eqn:R.
    + symmetry in E. apply app_eq_app in E as [l [[E1 E2]|[E1 E2]]].
      * apply (IH l b). exact E2.
      * destruct l as [|y l]; [apply (IH [] b); now rewrite E2|].
        subst b. simpl. rewrite exec_placeholder.
        assert (In y (x :: pre')) as Hy by (rewrite E1; apply in_or_app; simpl; auto).
        rewrite forallb_forall in Hpre. apply Hpre in Hy.
        unfold is_dollar in Hy. apply negb_true_iff in Hy. now rewrite Hy.
    + destruct a as [|c' a]; simpl in E.
      * subst b. rewrite exec_placeholder.
        destruct (Ascii.eqb c "$") eqn:Ec; [|reflexivity].
        cbn [andb] in R.
        rewrite stops_span_empty; [reflexivity|].
        apply ph_stops_digit. destruct t as [|d t]; [exact I | exact R].
      * inversion E; subst. apply (IH a b). assumption.
Qed.

Lemma ph_done s :
  search re_placeholder (ph_spec (x :: pre') s) = None
  /\ ph_spec (x :: pre') (ph_spec (x :: pre') s) = ph_spec (x :: pre') s.
Proof.
  split.
  - apply search_none. intros a b E. eapply ph_no_placeholder; eauto.
  - rewrite <- (placeholders_spec (x :: pre') (ph_spec (x :: pre') s)).
    apply replace_all_id; [reflexivity|].
    intros a b E. eapply ph_no_placeholder; eauto.
Qed.

End Mark.

(** X7.  After line 31, and after line 67, no canonical placeholder is left in
    the text: the pattern of these lines matches nowhere in it, and doing
    the rewrite again changes nothing. *)
Theorem placeholders_all_rewritten text :
  search re_placeholder (oracle_placeholders text) = None
  /\ search re_placeholder (mssql_placeholders text) = None
  /\ oracle_placeholders (oracle_placeholders text) = oracle_placeholders text
  /\ mssql_placeholders (mssql_placeholders text) = mssql_placeholders text.
Proof.
  rewrite !oracle_placeholders_spec, !mssql_placeholders_spec.
  destruct (ph_done ":" [] eq_refl eq_refl text) as [A B].
  destruct (ph_done "@" ["p"%char] eq_refl eq_refl text) as [C D].
  repeat split; assumption.
Qed.

End PlaceholderFacts.

(** ** The count alias *)

Module CountFacts.
Import Chars Regex Js Db Spec ComparisonSpec.
Import RegexFacts ScanFacts OccursFacts TranslateFacts ComparisonFacts PaginationFacts.

#[local] Arguments char_eq : simpl never.

Lemma ph_spec_app_clean pre a b :
  forallb (fun c => negb (is_dollar c)) a = true ->
  ph_spec pre (a ++ b) = a ++ ph_spec pre b.
Proof.
  induction a as [|c a IH]; intros H; [reflexivity|].
  cbn [forallb] in H. apply andb_true_iff in H as [Hc Ha].
  cbn [app]. rewrite ph_spec_cons. unfold is_dollar in Hc.
  apply negb_true_iff in Hc. rewrite Hc. cbn [andb]. now rewrite IH.
Qed.

Ltac word_incl :=
  let z := fresh in let Hz := fresh in
  intros z Hz; unfold lit in Hz |- *;
  cbn [list_ascii_of_string In] in Hz |- *; tauto.

Lemma alias_char c :
  forallb (fun k => negb (char_eq true k c && (is_dollar c || is_space c || is_digit c)))
          (lit "COUNT(*)astotal") = true.
Proof. destruct c as [[] [] [] [] [] [] [] []]; reflexivity. Qed.

(** A word of the alias, in any letter case, has no [$], no white space
    and no digit in it. *)
Lemma alias_word l m :
  incl l (lit "COUNT(*)astotal") -> same true l m = true ->
  forallb (fun c => negb (is_dollar c || is_space c || is_digit c)) m = true.
Proof.
  intros I S. apply same_lit_eq in S.
  induction S as [|a b l m Hab _ IH]; [reflexivity|].
  cbn [forallb]. rewrite IH by (intros z Hz; apply I; simpl; auto).
  rewrite andb_true_r.
  pose proof (alias_char b) as A. rewrite forallb_forall in A.
  specialize (A a (I a (or_introl eq_refl))). rewrite Hab in A. exact A.
Qed.

Lemma word_clean m :
  forallb (fun c => negb (is_dollar c || is_space c || is_digit c)) m = true ->
  forallb (fun c => negb (is_dollar c)) m = true
  /\ forallb is_nonspace m = true
  /\ stops is_space m /\ stops is_digit m.
Proof.
  intros H. repeat split.
  - rewrite forallb_forall in *. intros c Hc. specialize (H c Hc).
    apply negb_true_iff in H. apply orb_false_iff in H as [H _].
    apply orb_false_iff in H as [H _]. now rewrite H.
  - rewrite forallb_forall in *. intros c Hc. specialize (H c Hc).
    apply negb_true_iff in H. apply orb_false_iff in H as [H _].
    apply orb_false_iff in H as [_ H]. unfold is_nonspace. now rewrite H.
  - destruct m as [|c m]; [exact I|]. simpl in *.
    apply andb_true_iff in H as [H _]. apply negb_true_iff in H.
    apply orb_false_iff in H as [H _]. apply orb_false_iff in H as [_ H]. exact H.
  - destruct m as [|c m]; [exact I|]. simpl in *.
    apply andb_true_iff in H as [H _]. apply negb_true_iff in H.
    apply orb_false_iff in H as [_ H]. exact H.
Qed.

Lemma blank_no_dollar w :
  blank w = true -> forallb (fun c => negb (is_dollar c)) w = true.
Proof.
  intros B. apply blank_inv in B as [_ F]. rewrite forallb_forall in *.
  intros c Hc. unfold is_dollar. now rewrite (space_not_dollar c (F c Hc)).
Qed.

Lemma count_paren_nospace c :
  is_space c = true ->
  forallb (fun k => negb (char_eq true k c)) (lit "COUNT(*)") = true.
Proof. destruct c as [[] [] [] [] [] [] [] []]; vm_compute; congruence. Qed.

Lemma same_nonempty l m : same true l m = true -> l <> [] -> m <> [].
Proof. destruct l, m; simpl; congruence. Qed.

(** The alias is what the pattern of line 52 matches. *)
Lemma exec_count_alias c0 w1 a0 w2 t0 rest :
  same true (lit "COUNT(*)") c0 = true -> blank w1 = true ->
  same true (lit "as") a0 = true -> blank w2 = true ->
  same true (lit "total") t0 = true ->
  exec re_count (c0 ++ w1 ++ a0 ++ w2 ++ t0 ++ rest) = Some ([], rest).
Proof.
  intros C B1 A B2 T.
  pose proof (alias_word (lit "as") a0 ltac:(word_incl) A) as WA.
  pose proof (alias_word (lit "total") t0 ltac:(word_incl) T) as WT.
  apply word_clean in WA as (_ & _ & SA & _).
  apply word_clean in WT as (_ & _ & ST & _).
  pose proof (same_nonempty _ _ A ltac:(discriminate)) as NA.
  pose proof (same_nonempty _ _ T ltac:(discriminate)) as NT.
  rewrite exec_max by reflexivity.
  cbn [run_max re_count items icase in_class].
  rewrite (strip_lit true (lit "COUNT(*)") c0) by (now apply same_lit_eq).
  rewrite (span_run is_space w1);
    [| apply blank_inv, B1 | now apply stops_app_nonempty].
  cbn [fst snd]. destruct w1 as [|x1 w1]; [discriminate|].
  rewrite (strip_lit true (lit "as") a0) by (now apply same_lit_eq).
  rewrite (span_run is_space w2);
    [| apply blank_inv, B2 | now apply stops_app_nonempty].
  cbn [fst snd]. destruct w2 as [|x2 w2]; [discriminate|].
  rewrite (strip_lit true (lit "total") t0) by (now apply same_lit_eq).
  reflexivity.
Qed.

(** X8.  The count query.  Take a canonical text in which the count alias
    [COUNT( * ) as total] stands once (in any letter case, any white space
    between its words), after text that is empty or ends with white space,
    with no ["COUNT(*)"] elsewhere, no [ILIKE] and no [LIMIT].
    [translateToOracle] returns the text with the alias turned into
    [COUNT( * ) total] and the placeholders rewritten, and the binds as they
    were. *)
Theorem oracle_count_alias pre c0 w1 a0 w2 t0 post params :
  same true (lit "COUNT(*)") c0 = true -> blank w1 = true ->
  same true (lit "as") a0 = true -> blank w2 = true ->
  same true (lit "total") t0 = true ->
  occurs true kw_ilike (pre ++ c0 ++ w1 ++ a0 ++ w2 ++ t0 ++ post) = false ->
  occurs true kw_limit (pre ++ c0 ++ w1 ++ a0 ++ w2 ++ t0 ++ post) = false ->
  empty pre || ends_space pre = true ->
  occurs true (lit "COUNT(*)") pre = false ->
  occurs true (lit "COUNT(*)") post = false ->
  o_sql (translateToOracle (pre ++ c0 ++ w1 ++ a0 ++ w2 ++ t0 ++ post) params)
  = ph_spec (lit ":") pre ++ lit "COUNT(*) total" ++ ph_spec (lit ":") post
  /\ o_filteredParams
       (translateToOracle (pre ++ c0 ++ w1 ++ a0 ++ w2 ++ t0 ++ post) params)
     = params.
Proof.
  intros C B1 A B2 T HI HL Hpre Cpre Cpost.
  pose proof (alias_word (lit "COUNT(*)") c0 ltac:(word_incl) C) as WC.
  pose proof (alias_word (lit "as") a0 ltac:(word_incl) A) as WA.
  pose proof (alias_word (lit "total") t0 ltac:(word_incl) T) as WT.
  apply word_clean in WC as (DC & _ & _ & SC).
  apply word_clean in WA as (DA & _ & _ & _).
  apply word_clean in WT as (DT & _ & _ & _).
  pose proof (same_nonempty _ _ C ltac:(discriminate)) as NC.
  assert (ph_spec (lit ":") (pre ++ c0 ++ w1 ++ a0 ++ w2 ++ t0 ++ post)
          = ph_spec (lit ":") pre ++ c0 ++ w1 ++ a0 ++ w2 ++ t0
            ++ ph_spec (lit ":") post) as P.
  { rewrite ph_spec_app_stop by (now apply stops_app_nonempty).
    rewrite !ph_spec_app_clean; auto using blank_no_dollar. }
  unfold translateToOracle.
  rewrite oracle_placeholders_spec.
  rewrite oracle_ilike_id by (apply occurs_ph; [discriminate | reflexivity | exact HI]).
  rewrite oracle_limit_none by (apply occurs_ph; [discriminate | reflexivity | exact HL]).
  cbn iota beta. cbn [o_sql o_filteredParams]. split; [|reflexivity].
  rewrite P. rewrite replace_all_skip; [f_equal | reflexivity |].
  - destruct c0 as [|z c0]; [congruence|]. cbn [app].
    rewrite replace_all_cons by reflexivity.
    change (z :: c0 ++ w1 ++ a0 ++ w2 ++ t0 ++ ph_spec (lit ":") post)
      with ((z :: c0) ++ w1 ++ a0 ++ w2 ++ t0 ++ ph_spec (lit ":") post).
    rewrite exec_count_alias by assumption.
    f_equal. apply count_id.
    apply occurs_ph; [discriminate | reflexivity | exact Cpost].
  - intros a b Eab Hb.
    unfold exec. cbn [re_count items icase run].
    destruct (strip true (lit "COUNT(*)")
                (b ++ c0 ++ w1 ++ a0 ++ w2 ++ t0 ++ ph_spec (lit ":") post))
      eqn:S; [|reflexivity].
    exfalso. apply strip_prefix in S.
    assert (ends_space (ph_spec (lit ":") pre) = true) as E.
    { destruct pre as [|y pre].
      { simpl in Eab. symmetry in Eab. apply app_eq_nil in Eab as [_ ->].
        congruence. }
      cbn [empty orb] in Hpre. unfold lit. cbn [list_ascii_of_string].
      apply ends_space_ph; auto. }
    apply prefix_app_end in S.
    + assert (occurs true (lit "COUNT(*)") (ph_spec (lit ":") pre) = false) as O
        by (apply occurs_ph; [discriminate | reflexivity | exact Cpre]).
      rewrite Eab in O. apply occurs_suffix in O. congruence.
    + apply count_paren_nospace.
    + rewrite Eab in E. now rewrite ends_space_app in E.
Qed.

Lemma oracle_count_alias_witness :
  o_sql (translateToOracle
           (lit "SELECT " ++ lit "COUNT(*)" ++ lit " " ++ lit "as" ++ lit " "
            ++ lit "total" ++ lit " FROM tinwsys ws WHERE ws.name = $1")
           (Some [JStr (lit "x")]))
  = ph_spec (lit ":") (lit "SELECT ") ++ lit "COUNT(*) total"
    ++ ph_spec (lit ":") (lit " FROM tinwsys ws WHERE ws.name = $1")
  /\ o_filteredParams
       (translateToOracle
          (lit "SELECT " ++ lit "COUNT(*)" ++ lit " " ++ lit "as" ++ lit " "
           ++ lit "total" ++ lit " FROM tinwsys ws WHERE ws.name = $1")
          (Some [JStr (lit "x")]))
     = Some [JStr (lit "x")].
Proof.
  apply (oracle_count_alias (lit "SELECT ") (lit "COUNT(*)") (lit " ") (lit "as")
           (lit " ") (lit "total") (lit " FROM tinwsys ws WHERE ws.name = $1"));
    reflexivity.
Defined.

End CountFacts.

(** ** The bodies of [query] *)

Module QueryFacts.
Import Chars Regex Js Db Normalizer Lifecycle BindsSpec QueryBody.
Import NormalizerFacts NumeralFacts BindObjectFacts.

Lemma input_from_keys a : forall from k,
  In k (keys (input_from from a)) ->
  exists i, from <= i < from + List.length a /\ k = lit "p" ++ dec (Z.of_nat i + 1).
Proof.
  induction a as [|v a IH]; intros from k; cbn [input_from keys map fst];
    [intros []|].
  intros [<-|H].
  - exists from. simpl. split; [lia | reflexivity].
  - destruct (IH (S from) k H) as (i & Hi & ->). exists i. simpl. split; [lia | auto].
Qed.

Lemma input_name_inj a b :
  (0 <= a)%Z -> (0 <= b)%Z -> lit "p" ++ dec a = lit "p" ++ dec b -> a = b.
Proof. intros Ha Hb E. apply app_inv_head in E. now apply dec_inj. Qed.

Lemma input_from_nodup a : forall from, NoDup (keys (input_from from a)).
Proof.
  induction a as [|v a IH]; intros from; cbn [input_from keys map fst];
    constructor; [|apply IH].
  intros H. apply input_from_keys in H as (i & Hi & E).
  apply input_name_inj in E; lia.
Qed.

Lemma input_from_get a : forall from i v,
  nth_error a i = Some v ->
  obj_get (lit "p" ++ dec (Z.of_nat (from + i) + 1)) (input_from from a) = Some v.
Proof.
  induction a as [|w a IH]; intros from i v H; [destruct i; discriminate|].
  cbn [input_from obj_get]. destruct i as [|i]; simpl in H.
  - inversion H; subst. rewrite Nat.add_0_r. now rewrite str_eqb_refl.
  - rewrite str_eqb_neq.
    + replace (from + S i) with (S from + i) by lia. now apply IH.
    + intros E. apply input_name_inj in E; lia.
Qed.

Lemma input_from_length a : forall from,
  List.length (input_from from a) = List.length a.
Proof. induction a; intros from; simpl; auto. Qed.

(** X6.  The inputs of the SQL Server request are the binds [translateToMssql]
    returns and nothing else: one call of [request.input] for each, in
    order, no name twice, the bind at position [i] (from 0) under the name
    [p] followed by [i + 1] in decimal notation, the name the placeholder
    [@pn] has for [n = i + 1]. *)
Theorem mssql_inputs_lookup text params :
  match m_filteredParams (translateToMssql text params) with
  | Some fp =>
      map snd (request_inputs (translateToMssql text params)) = fp
      /\ NoDup (keys (request_inputs (translateToMssql text params)))
      /\ (forall i v, nth_error fp i = Some v ->
            obj_get (lit "p" ++ dec (Z.of_nat i + 1))
                    (request_inputs (translateToMssql text params)) = Some v)
      /\ (forall k, obj_get k (request_inputs (translateToMssql text params)) <> None ->
            exists i, i < List.length fp /\ k = lit "p" ++ dec (Z.of_nat i + 1))
  | None => request_inputs (translateToMssql text params) = []
  end.
Proof.
  unfold request_inputs.
  destruct (m_filteredParams (translateToMssql text params)) as [fp|];
    [|reflexivity].
  split; [|split; [apply input_from_nodup | split]].
  - generalize 0. induction fp as [|v fp IH]; intros from; simpl; auto.
    now rewrite IH.
  - intros i v H. apply (input_from_get fp 0 i v H).
  - intros k H. apply obj_get_in, input_from_keys in H as (i & Hi & ->).
    exists i. split; [lia | reflexivity].
Qed.


End QueryFacts.

(** ** The branches without a pending connection *)

Module PassthroughFacts.
Import Chars Js Db Lifecycle LifecycleSpec PassthroughSpec LifecycleFacts.

Lemma pg_step st ev st' :
  selected st = postgresql -> pool st = true -> waiting st = [] ->
  step st ev = Some st' ->
  selected st' = postgresql /\ pool st' = true /\ waiting st' = []
  /\ log st'
     = log st ++ map (fun c => (c, PgQuery (c_text c) (c_params c))) (calls_of [ev]).
Proof.
  intros S P W. destruct ev; cbn [step calls_of map]; rewrite S; cbn;
    try discriminate.
  - destruct (probe st); cbn; [discriminate|].
    intros H; inversion H; subst; cbn. rewrite app_nil_r. auto.
  - destruct (probe st); cbn; [discriminate|].
    intros H; inversion H; subst; cbn. rewrite app_nil_r. auto.
  - intros H; inversion H; subst; cbn. unfold query_body. rewrite S, P. auto.
Qed.

Lemma pg_steps evs : forall st st',
  selected st = postgresql -> pool st = true -> waiting st = [] ->
  steps st evs = Some st' ->
  selected st' = postgresql /\ pool st' = true /\ waiting st' = []
  /\ log st'
     = log st ++ map (fun c => (c, PgQuery (c_text c) (c_params c))) (calls_of evs).
Proof.
  induction evs as [|ev evs IH]; intros st st' S P W H; simpl in H.
  - inversion H; subst. rewrite app_nil_r. auto.
  - destruct (step st ev) as [st1|] eqn:E; [|discriminate].
    destruct (pg_step _ _ _ S P W E) as (S1 & P1 & W1 & L1).
    destruct (IH _ _ S1 P1 W1 H) as (S2 & P2 & W2 & L2).
    repeat split; auto. rewrite L2, L1, <- app_assoc, <- map_app. f_equal. f_equal.
    destruct ev; reflexivity.
Qed.

(** X10.  The PostgreSQL branch passes every call through.  From the start and
    through any events, the probe failing among them: no call waits, and
    every call made has gone to [pool.query] with the text and the binds of
    the call, as they were; no translation, whatever [mode] has come to. *)
Theorem pg_query_passes_through env oci st0 evs st :
  load env oci = Some st0 -> selected st0 = postgresql ->
  steps st0 evs = Some st ->
  waiting st = []
  /\ log st = map (fun c => (c, PgQuery (c_text c) (c_params c))) (calls_of evs)
  /\ (mode st = postgresql \/ mode st = demo).
Proof.
  intros HL S HS.
  assert (pool st0 = true /\ waiting st0 = [] /\ log st0 = [] /\ mode st0 = postgresql)
    as (P & W & L & M).
  { unfold load in HL. destruct (selected_mode env); [| |destruct oci|];
      inversion HL; subst; simpl in *; try discriminate; auto. }
  destruct (pg_steps evs st0 st S P W HS) as (_ & _ & W' & L').
  rewrite L in L'. repeat split; auto.
  destruct (steps_mode _ _ _ HS) as [H|H]; [left; congruence | right; exact H].
Qed.

Lemma pg_query_passes_through_witness :
  waiting pg_after = []
  /\ log pg_after
     = map (fun c => (c, PgQuery (c_text c) (c_params c)))
           (calls_of [Query probe_call; ProbeFail; Query probe_call])
  /\ (mode pg_after = postgresql \/ mode pg_after = demo).
Proof.
  exact (pg_query_passes_through (fun _ => None) InitDone pg_start
           [Query probe_call; ProbeFail; Query probe_call] pg_after
           eq_refl eq_refl eq_refl).
Defined.

Lemma demo_step st ev st' :
  selected st = demo -> mode st = demo -> waiting st = [] ->
  step st ev = Some st' ->
  selected st' = demo /\ mode st' = demo /\ waiting st' = [] /\ pool st' = pool st
  /\ (exists c, ev = Query c) /\ log st' = log st ++ map (fun c => (c, Empty)) (calls_of [ev]).
Proof.
  intros S M W. destruct ev; cbn [step calls_of map]; rewrite S; cbn;
    try discriminate.
  intros H; inversion H; subst; cbn. unfold query_body. rewrite S.
  repeat split; eauto.
Qed.

Lemma demo_steps evs : forall st st',
  selected st = demo -> mode st = demo -> waiting st = [] ->
  steps st evs = Some st' ->
  mode st' = demo /\ waiting st' = [] /\ pool st' = pool st
  /\ Forall (fun ev => exists c, ev = Query c) evs
  /\ log st' = log st ++ map (fun c => (c, Empty)) (calls_of evs).
Proof.
  induction evs as [|ev evs IH]; intros st st' S M W H; simpl in H.
  - inversion H; subst. rewrite app_nil_r. auto.
  - destruct (step st ev) as [st1|] eqn:E; [|discriminate].
    destruct (demo_step _ _ _ S M W E) as (S1 & M1 & W1 & P1 & Q1 & L1).
    destruct (IH _ _ S1 M1 W1 H) as (M2 & W2 & P2 & Q2 & L2).
    repeat split; auto; [congruence|].
    rewrite L2, L1, <- app_assoc, <- map_app. f_equal. f_equal.
    destruct ev; reflexivity.
Qed.

(** X11.  Forced demo mode.  With [DEMO_MODE] set to ['true'], whatever else the
    environment has: no pool is made and none is ever there, no connection
    and no probe settles, [mode] is demo throughout, and every call of
    [query] returns the empty sequence at once. *)
Theorem demo_query_returns_nothing env oci st0 evs st :
  env "DEMO_MODE"%string = Some "true"%string ->
  load env oci = Some st0 ->
  steps st0 evs = Some st ->
  mode st = demo /\ pool st = false /\ waiting st = []
  /\ Forall (fun ev => exists c, ev = Query c) evs
  /\ log st = map (fun c => (c, Empty)) (calls_of evs).
Proof.
  intros HE HL HS.
  assert (st0 = demo_start) as ->.
  { unfold load, selected_mode, FORCE_DEMO in HL. rewrite HE in HL. simpl in HL.
    now inversion HL. }
  destruct (demo_steps evs demo_start st eq_refl eq_refl eq_refl HS)
    as (M & W & P & Q & L).
  simpl in *. auto.
Qed.

Lemma demo_query_returns_nothing_witness :
  mode demo_after = demo /\ pool demo_after = false /\ waiting demo_after = []
  /\ Forall (fun ev => exists c, ev = Query c) [Query probe_call; Query probe_call]
  /\ log demo_after
     = map (fun c => (c, Empty)) (calls_of [Query probe_call; Query probe_call]).
Proof.
  exact (demo_query_returns_nothing demo_env InitDone demo_start
           [Query probe_call; Query probe_call] demo_after
           eq_refl eq_refl eq_refl).
Defined.

End PassthroughFacts.

(** ** Reading the page parameters *)

Module ParseFacts.
Import Chars Js ComparisonSpec RegexFacts ComparisonFacts PaginationFacts NumeralFacts.

Lemma decimal_digit c : Es.is_digit_in 10 c = is_digit c.
Proof. destruct c as [[] [] [] [] [] [] [] []]; reflexivity. Qed.

Lemma decimal_value c :
  is_digit c = true -> Es.digit_in 10 c = Some (digit_value c).
Proof. destruct c as [[] [] [] [] [] [] [] []]; vm_compute; congruence. Qed.

Lemma digit_plain c :
  is_digit c = true ->
  is_space c = false /\ Ascii.eqb c "+" = false /\ Ascii.eqb c "-" = false
  /\ Ascii.eqb c "x" = false /\ Ascii.eqb c "X" = false.
Proof. destruct c as [[] [] [] [] [] [] [] []]; vm_compute; intuition congruence. Qed.

Lemma fold_decimal ds : forall acc,
  forallb is_digit ds = true ->
  fold_left (fun acc c => match Es.digit_in 10 c with
                          | Some v => 10 * acc + v
                          | None => acc
                          end)%Z ds acc
  = fold_left (fun acc c => 10 * acc + digit_value c)%Z ds acc.
Proof.
  induction ds as [|c ds IH]; intros acc F; [reflexivity|].
  cbn [forallb] in F. apply andb_true_iff in F as [Fc F].
  cbn [fold_left]. rewrite (decimal_value c Fc). now apply IH.
Qed.

(** What [parseInt] makes of a run of digits once white space, sign and
    prefix are dealt with. *)
Lemma parse_digits d :
  digits d = true ->
  match d with
  | c0 :: c1 :: _ => Ascii.eqb c0 "0" && (Ascii.eqb c1 "x" || Ascii.eqb c1 "X")
  | _ => false
  end = false
  /\ fst (span (Es.is_digit_in 10) d) = d.
Proof.
  intros D. apply digits_inv in D as [N F]. split.
  - destruct d as [|c0 [|c1 d]]; auto.
    simpl in F. apply andb_true_iff in F as [_ F].
    apply andb_true_iff in F as [F _].
    destruct (digit_plain c1 F) as (_ & _ & _ & X1 & X2).
    rewrite X1, X2. apply andb_false_r.
  - rewrite <- (app_nil_r d) at 1.
    rewrite (span_run (Es.is_digit_in 10) d []); [reflexivity | | exact I].
    rewrite forallb_forall in *. intros c Hc. rewrite decimal_digit. auto.
Qed.

(** On a run of digits, [parseInt] is the reading of db.js. *)
Lemma parseInt_digits d : digits d = true -> Es.parseInt d = parseInt d.
Proof.
  intros D. destruct (parse_digits d D) as [H S].
  pose proof (digits_inv d D) as [N F].
  destruct d as [|c d]; [congruence|].
  assert (is_digit c = true) as Fc by (simpl in F; apply andb_true_iff in F; tauto).
  destruct (digit_plain c Fc) as (X0 & X1 & X2 & _).
  unfold Es.parseInt. cbn [Es.trimStart]. rewrite X0, X1, X2. cbn [orb].
  rewrite H, S. unfold parseInt.
  rewrite <- (app_nil_r (c :: d)) at 2.
  rewrite (span_run is_digit (c :: d) [] F I). cbn [fst].
  now rewrite fold_decimal.
Qed.

Lemma parseInt_negative d :
  digits d = true ->
  Es.parseInt ("-"%char :: d) = option_map Z.opp (parseInt d).
Proof.
  intros D. destruct (parse_digits d D) as [H S].
  pose proof (digits_inv d D) as [N F].
  unfold Es.parseInt. cbn [Es.trimStart is_space]. 
  change (is_space "-") with false. cbn iota.
  change (Ascii.eqb "-" "-") with true. change (Ascii.eqb "-" "+") with false.
  cbn [orb]. rewrite H, S. unfold parseInt.
  rewrite <- (app_nil_r d) at 2.
  rewrite (span_run is_digit d [] F I). cbn [fst].
  destruct d as [|c d]; [congruence|]. cbn [option_map].
  now rewrite fold_decimal.
Qed.

Lemma parseInt_dec_full n : (0 <= n)%Z -> Es.parseInt (dec n) = Some n.
Proof.
  intros H. rewrite parseInt_digits by (now apply dec_digits).
  now apply parseInt_dec.
Qed.

Lemma parseInt_dec_negative n :
  (0 <= n)%Z -> Es.parseInt ("-"%char :: dec n) = Some (- n)%Z.
Proof.
  intros H. rewrite parseInt_negative by (now apply dec_digits).
  now rewrite parseInt_dec.
Qed.

End ParseFacts.

(** ** The page parameters and the pages of the demo branch *)

Module PagingFacts.
Import Chars Js Paging ParseFacts.

Lemma page_bounds (p : Param) :
  (0 <= pageNumber p)%Z /\ (1 <= pageSize p <= 100)%Z.
Proof. unfold pageNumber, pageSize. split; lia. Qed.

Lemma pageNumber_dec (n : Z) : (0 <= n)%Z -> pageNumber (Some (dec n)) = n.
Proof.
  intros H. unfold pageNumber, param_text. rewrite parseInt_dec_full by assumption.
  unfold Es.or_number. destruct (Z.eqb_spec n 0); lia.
Qed.

(** X12.  The page parameters are in range.  Take a parameter of the query
    string from which [parseInt] reads NaN or an integer a double holds
    exactly.  As a page number it gives an integer that is not negative, as
    a page size an integer from 1 to 100.  A parameter that is missing, that
    does not start with a number or that reads as zero gives page 0 and a
    page size of 10. *)
Theorem page_parameters_in_range (p : Param) :
  param_exact p = true ->
  (0 <= pageNumber p)%Z
  /\ (1 <= pageSize p <= 100)%Z
  /\ pageNumber None = 0%Z /\ pageSize None = 10%Z
  /\ (Es.parseInt (param_text p) = None \/ Es.parseInt (param_text p) = Some 0%Z ->
      pageNumber p = 0%Z /\ pageSize p = 10%Z).
Proof.
  intros _. unfold pageNumber, pageSize.
  split; [lia|]. split; [lia|]. split; [reflexivity|]. split; [reflexivity|].
  intros [-> | ->]; split; reflexivity.
Qed.

Lemma page_parameters_in_range_witness :
  (0 <= pageNumber (Some (lit "-7")))%Z
  /\ (1 <= pageSize (Some (lit "250")) <= 100)%Z
  /\ pageNumber (Some (lit "abc")) = 0%Z /\ pageSize (Some (lit "abc")) = 10%Z.
Proof.
  destruct (page_parameters_in_range (Some (lit "-7")) eq_refl) as (A & _).
  destruct (page_parameters_in_range (Some (lit "250")) eq_refl) as (_ & B & _).
  destruct (page_parameters_in_range (Some (lit "abc")) eq_refl)
    as (_ & _ & _ & _ & C).
  destruct (C (or_introl eq_refl)) as (C1 & C2).
  repeat split; try apply B; assumption.
Defined.

(** X13.  A page parameter written as a number in decimal notation, a number a
    double holds exactly, is read as that number: the page number is the
    number; the page size is the number when it is from 1 to 100, 100 when
    it is more, and 10 when it is zero.  With a minus sign before it the
    page number is 0 and the page size (the number not being zero) is 1. *)
Theorem page_parameters_read (n : Z) :
  (0 <= n)%Z -> Es.isSafeInteger n = true ->
  pageNumber (Some (dec n)) = n
  /\ pageSize (Some (dec n)) = (if (n =? 0)%Z then 10 else Z.min 100 n)%Z
  /\ pageNumber (Some ("-"%char :: dec n)) = 0%Z
  /\ pageSize (Some ("-"%char :: dec n)) = (if (n =? 0)%Z then 10 else 1)%Z.
Proof.
  intros H _. unfold pageNumber, pageSize, param_text.
  rewrite parseInt_dec_full, parseInt_dec_negative by assumption.
  unfold Es.or_number.
  replace (- n =? 0)%Z with (n =? 0)%Z
    by (destruct (Z.eqb_spec n 0), (Z.eqb_spec (- n) 0); lia).
  destruct (Z.eqb_spec n 0); repeat split; lia.
Qed.

Lemma page_parameters_read_witness :
  pageNumber (Some (dec 3)) = 3%Z
  /\ pageSize (Some (dec 3)) = (if (3 =? 0)%Z then 10 else Z.min 100 3)%Z
  /\ pageNumber (Some ("-"%char :: dec 3)) = 0%Z
  /\ pageSize (Some ("-"%char :: dec 3)) = (if (3 =? 0)%Z then 10 else 1)%Z.
Proof. apply (page_parameters_read 3); [discriminate | reflexivity]. Defined.

(** *** The pages of the demo branch *)

Lemma firstn_more {A : Type} (l : list A) a b :
  firstn (a + b) l = firstn a l ++ firstn b (skipn a l).
Proof.
  revert l. induction a as [|a IH]; intros l; [reflexivity|].
  destruct l as [|x l]; simpl; [now rewrite firstn_nil | now rewrite IH].
Qed.

(** [slice] between two positions that are not negative. *)
Lemma slice_forward {A : Type} (l : list A) a b :
  (0 <= a)%Z -> (0 <= b)%Z ->
  Es.slice l a (a + b) = firstn (Z.to_nat b) (skipn (Z.to_nat a) l).
Proof.
  intros Ha Hb. unfold Es.slice, Es.relative.
  replace (a <? 0)%Z with false by (symmetry; apply Z.ltb_ge; lia).
  replace (a + b <? 0)%Z with false by (symmetry; apply Z.ltb_ge; lia).
  set (len := List.length l).
  destruct (Z.le_gt_cases (Z.of_nat len) a) as [H|H].
  - rewrite !skipn_all2 by (fold len; lia). now rewrite !firstn_nil.
  - replace (Z.min a (Z.of_nat len)) with a by lia.
    destruct (Z.le_gt_cases (a + b) (Z.of_nat len)) as [H'|H'].
    + replace (Z.min (a + b) (Z.of_nat len)) with (a + b)%Z by lia.
      f_equal. lia.
    + replace (Z.min (a + b) (Z.of_nat len)) with (Z.of_nat len) by lia.
      rewrite !firstn_all2; auto; rewrite length_skipn; fold len; lia.
Qed.

Lemma page_items {A : Type} (filtered : list A) number size :
  snd (demo_page filtered number size)
  = firstn (Z.to_nat (pageSize size))
           (skipn (Z.to_nat (pageNumber number) * Z.to_nat (pageSize size)) filtered).
Proof.
  destruct (page_bounds number) as (Hn & _).
  destruct (page_bounds size) as (_ & Hs).
  unfold demo_page. cbn [snd].
  replace ((pageNumber number + 1) * pageSize size)%Z
    with (pageNumber number * pageSize size + pageSize size)%Z by lia.
  rewrite slice_forward by lia. f_equal. f_equal. lia.
Qed.

(** X14.  A page of the demo branch.  The records of a page are consecutive
    records of the filtered list, [pageSize] of them at most, starting
    after [pageNumber] times [pageSize] records; a page past the end of the
    list is empty, and the response still has the count of all the
    filtered records. *)
Theorem demo_page_is_a_window (A : Type) (filtered : list A) number size :
  (exists before after,
     filtered = before ++ snd (demo_page filtered number size) ++ after
     /\ Z.of_nat (List.length before)
        = Z.min (pageNumber number * pageSize size) (Z.of_nat (List.length filtered)))
  /\ (Z.of_nat (List.length (snd (demo_page filtered number size)))
      = Z.max 0 (Z.min (pageSize size)
                       (Z.of_nat (List.length filtered)
                        - pageNumber number * pageSize size)))%Z
  /\ (Z.of_nat (List.length filtered) <= pageNumber number * pageSize size ->
      snd (demo_page filtered number size) = [])%Z
  /\ totalCount (fst (demo_page filtered number size))
     = Z.of_nat (List.length filtered).
Proof.
  destruct (page_bounds number) as (Hn & _).
  destruct (page_bounds size) as (_ & Hs).
  rewrite page_items.
  set (k := Z.to_nat (pageNumber number) * Z.to_nat (pageSize size)).
  set (s := Z.to_nat (pageSize size)).
  assert (Z.of_nat k = pageNumber number * pageSize size)%Z as Hk by (unfold k; lia).
  assert (Z.of_nat s = pageSize size) as Hsz by (unfold s; lia).
  split; [|split; [|split; [|reflexivity]]].
  - exists (firstn k filtered), (skipn s (skipn k filtered)).
    split.
    + rewrite firstn_skipn. now rewrite firstn_skipn.
    + rewrite length_firstn. lia.
  - rewrite length_firstn, length_skipn. lia.
  - intros H. rewrite skipn_all2 by lia. apply firstn_nil.
Qed.

(** X15.  The pages of the demo branch make up the filtered list.  For any page
    size: the pages 0, 1, ... up to the number of pages the response gives
    as [totalPages], put one after the other, are the filtered records, each
    once and in order.  [totalPages] is the least number of pages of that
    size that hold them all: zero for no record. *)
Theorem demo_pages_partition (A : Type) (filtered : list A) size :
  List.concat (map (fun k => snd (demo_page filtered (Some (dec (Z.of_nat k))) size))
              (seq 0 (Z.to_nat (totalPages (fst (demo_page filtered None size))))))
  = filtered
  /\ (Z.of_nat (List.length filtered)
      <= totalPages (fst (demo_page filtered None size)) * pageSize size)%Z
  /\ ((totalPages (fst (demo_page filtered None size)) - 1) * pageSize size
      < Z.of_nat (List.length filtered)
      \/ filtered = [] /\ totalPages (fst (demo_page filtered None size)) = 0)%Z.
Proof.
  destruct (page_bounds size) as (_ & Hs).
  cbn [demo_page fst totalPages]. unfold Es.ceil_div.
  set (len := List.length filtered). set (ps := pageSize size) in *.
  set (tp := (- (- Z.of_nat len / ps))%Z).
  assert ((Z.of_nat len <= tp * ps)%Z /\ ((tp - 1) * ps < Z.of_nat len)%Z \/
          (Z.of_nat len <= tp * ps)%Z /\ len = 0 /\ tp = 0%Z) as B.
  { unfold tp.
    pose proof (Z.div_mod (- Z.of_nat len) ps ltac:(lia)) as E.
    pose proof (Z.mod_pos_bound (- Z.of_nat len) ps ltac:(lia)) as M.
    destruct len as [|len]; [right; simpl; lia | left; nia]. }
  assert (0 <= tp)%Z as Tp by (destruct B; nia).
  split; [|destruct B as [[B1 B2]|(B1 & B2 & B3)]; split; auto].
  - assert (forall n, List.concat (map (fun k =>
                snd (demo_page filtered (Some (dec (Z.of_nat k))) size)) (seq 0 n))
              = firstn (n * Z.to_nat ps) filtered) as P.
    { induction n as [|n IH]; [reflexivity|].
      rewrite seq_S, map_app, concat_app, IH. cbn [map List.concat Nat.add].
      rewrite app_nil_r, page_items.
      rewrite pageNumber_dec by lia.
      rewrite Nat2Z.id. fold ps.
      replace (S n * Z.to_nat ps) with (n * Z.to_nat ps + Z.to_nat ps) by lia.
      now rewrite firstn_more. }
    rewrite P. apply firstn_all2. fold len. destruct B; nia.
  - right. split; auto. now apply length_zero_iff_nil.
Qed.

End PagingFacts.

(** ** Pagination for Oracle, the text in full *)

Module OraclePaginationFacts.
Import Chars Regex Js Db Spec PaginationSpec ComparisonSpec.
Import RegexFacts ScanFacts OccursFacts TranslateFacts ComparisonFacts PaginationFacts.
Import BindsSpec MssqlPaginationFacts.

#[local] Arguments char_eq : simpl never.

(** The clause, as line 31 leaves it, is what the pattern of line 43
    matches, white space before it included. *)
Lemma exec_oracle_strip_clause sp w1 d1 w2 w3 d2 :
  blank sp = true -> blank w1 = true -> digits d1 = true -> blank w2 = true ->
  blank w3 = true -> digits d2 = true ->
  exec re_limit_oracle_strip (canonical_clause (lit ":") sp w1 d1 w2 w3 d2)
  = Some ([], []).
Proof.
  intros Bs B1 D1 B2 B3 D2. unfold canonical_clause.
  assert (span is_space (sp ++ lit "LIMIT" ++ w1 ++ lit ":" ++ d1 ++ w2
                         ++ lit "OFFSET" ++ w3 ++ lit ":" ++ d2)
          = (sp, lit "LIMIT" ++ w1 ++ lit ":" ++ d1 ++ w2
                 ++ lit "OFFSET" ++ w3 ++ lit ":" ++ d2)) as E0
    by (apply span_run; [apply blank_inv, Bs | reflexivity]).
  assert (span is_space (w1 ++ lit ":" ++ d1 ++ w2 ++ lit "OFFSET" ++ w3
                         ++ lit ":" ++ d2)
          = (w1, lit ":" ++ d1 ++ w2 ++ lit "OFFSET" ++ w3 ++ lit ":" ++ d2)) as E1
    by (apply span_run; [apply blank_inv, B1 | reflexivity]).
  assert (span is_digit (d1 ++ w2 ++ lit "OFFSET" ++ w3 ++ lit ":" ++ d2)
          = (d1, w2 ++ lit "OFFSET" ++ w3 ++ lit ":" ++ d2)) as E2.
  { apply span_run; [apply digits_inv, D1|].
    apply stops_app_nonempty; [apply blank_inv, B2 | apply blank_stops_digit, B2]. }
  assert (span is_space (w2 ++ lit "OFFSET" ++ w3 ++ lit ":" ++ d2)
          = (w2, lit "OFFSET" ++ w3 ++ lit ":" ++ d2)) as E3
    by (apply span_run; [apply blank_inv, B2 | reflexivity]).
  assert (span is_space (w3 ++ lit ":" ++ d2) = (w3, lit ":" ++ d2)) as E4
    by (apply span_run; [apply blank_inv, B3 | reflexivity]).
  assert (span is_digit d2 = (d2, [])) as E5.
  { rewrite <- (app_nil_r d2) at 1.
    apply span_run; [apply digits_inv, D2 | exact I]. }
  assert (w1 <> [] /\ d1 <> [] /\ w2 <> [] /\ w3 <> [] /\ d2 <> []) as (N1 & N2 & N3 & N4 & N5).
  { repeat split; try (apply blank_inv; assumption); apply digits_inv; assumption. }
  rewrite exec_max by reflexivity.
  cbn [run_max re_limit_oracle_strip items icase in_class].
  rewrite E0. cbn [fst snd].
  rewrite (strip_lit true (lit "LIMIT") (lit "LIMIT")) by apply lit_eq_refl.
  rewrite E1. cbn [fst snd]. destruct w1 as [|x1 w1]; [congruence|].
  rewrite (strip_lit true (lit ":") (lit ":")) by apply lit_eq_refl.
  rewrite E2. cbn [fst snd]. destruct d1 as [|y1 d1]; [congruence|].
  rewrite E3. cbn [fst snd]. destruct w2 as [|x2 w2]; [congruence|].
  rewrite (strip_lit true (lit "OFFSET") (lit "OFFSET")) by apply lit_eq_refl.
  rewrite E4. cbn [fst snd]. destruct w3 as [|x3 w3]; [congruence|].
  rewrite (strip_lit true (lit ":") (lit ":")) by apply lit_eq_refl.
  rewrite E5. cbn [fst snd]. destruct d2 as [|y2 d2]; [congruence|].
  reflexivity.
Qed.

Lemma oracle_clause_stripped y sp w1 d1 w2 w3 d2 :
  occurs true kw_limit y = false -> ends_space y = false ->
  blank sp = true -> blank w1 = true -> digits d1 = true -> blank w2 = true ->
  blank w3 = true -> digits d2 = true ->
  replace_first re_limit_oracle_strip (fun _ => [])
    (y ++ canonical_clause (lit ":") sp w1 d1 w2 w3 d2) = y.
Proof.
  intros Hy He Bs B1 D1 B2 B3 D2.
  pose proof (exec_oracle_strip_clause sp w1 d1 w2 w3 d2 Bs B1 D1 B2 B3 D2) as X.
  pose proof (clause_starts (lit ":") sp w1 d1 w2 w3 d2 Bs) as St.
  rewrite replace_first_skip.
  - rewrite (replace_first_hit _ _ _ _ _ X). now rewrite app_nil_r.
  - intros a b Eab Hb. rewrite exec_max by reflexivity.
    apply run_max_limit_none. eapply no_limit_before; eauto.
Qed.

Lemma oracle_comparison_ends c :
  comparison_ok c = true ->
  oracle_comparison c <> [] /\ ends_space (oracle_comparison c) = false.
Proof.
  intros _. unfold oracle_comparison. split; [discriminate|].
  rewrite !app_assoc, ends_space_app by discriminate. reflexivity.
Qed.

(** A keyword the canonical text does not have, after the rewrites of the
    placeholders and of the comparisons. *)
Lemma keyword_out kw x pre' render parts post :
  (forall c, is_space c = true ->
             forallb (fun k => negb (char_eq true k c)) kw = true) ->
  kw <> [] -> apart true kw (x :: pre') = true ->
  (forall c, occurs true kw (left_operand c) = false ->
             occurs true kw (right_operand c) = false ->
             occurs true kw (render c) = false) ->
  forallb is_nonspace (x :: pre') = true ->
  apart true kw_ilike (x :: pre') = true ->
  parts_ok true parts = true -> tail_ok parts post = true ->
  occurs true kw (assemble comparison_text parts post) = false ->
  occurs true kw (assemble render (ph_parts (x :: pre') parts)
                           (ph_spec (x :: pre') post)) = false.
Proof.
  intros Hns Hne Hap Hr Hn Hai Hp Ht Hocc.
  destruct parts as [|p parts].
  - cbn [assemble ph_parts map] in *. now apply occurs_ph.
  - cbn [tail_ok] in Ht. now apply keyword_kept_out.
Qed.

Lemma count_paren_no_space c :
  is_space c = true ->
  forallb (fun k => negb (char_eq true k c)) kw_count_paren = true.
Proof. destruct c as [[] [] [] [] [] [] [] []]; vm_compute; congruence. Qed.

(** Lines 31 and 34 on a canonical text that ends with the pagination
    clause. *)
Lemma stage_oracle_clause parts post sp w1 d1 w2 w3 d2 :
  parts_ok true parts = true -> tail_ok parts post = true ->
  occurs true kw_limit (assemble comparison_text parts post) = false ->
  ends_space post = false ->
  blank sp = true -> blank w1 = true -> digits d1 = true -> blank w2 = true ->
  blank w3 = true -> digits d2 = true ->
  oracle_ilike (oracle_placeholders
                  (assemble comparison_text parts post
                   ++ canonical_clause (lit "$") sp w1 d1 w2 w3 d2))
  = assemble oracle_comparison (ph_parts (lit ":") parts) (ph_spec (lit ":") post)
    ++ canonical_clause (lit ":") sp w1 d1 w2 w3 d2
  /\ occurs true kw_limit
       (assemble oracle_comparison (ph_parts (lit ":") parts)
                 (ph_spec (lit ":") post)) = false
  /\ ends_space
       (assemble oracle_comparison (ph_parts (lit ":") parts)
                 (ph_spec (lit ":") post)) = false.
Proof.
  intros Hp Ht HL He Bs B1 D1 B2 B3 D2.
  split; [|split].
  - destruct parts as [|p parts].
    + cbn [tail_ok] in Ht. apply negb_true_iff in Ht.
      cbn [assemble ph_parts map] in *.
      rewrite oracle_placeholders_spec.
      rewrite oracle_ilike_id.
      * now apply ph_clause_any.
      * apply occurs_ph; [discriminate | reflexivity|].
        now apply no_ilike_with_clause.
    + cbn [tail_ok] in Ht. rewrite <- assemble_app_post.
      rewrite stage_oracle by (auto using after_ok_clause).
      rewrite ph_clause_any by assumption.
      now rewrite assemble_app_post.
  - apply (keyword_out kw_limit ":" []); auto; try reflexivity; try discriminate.
    + apply limit_nospace.
    + intros c. apply (oracle_comparison_free kw_limit limit_nospace); reflexivity.
  - apply assemble_ends with (first := true).
    + apply oracle_comparison_ends.
    + apply parts_ok_ph; auto; reflexivity.
    + unfold lit. cbn [list_ascii_of_string]. now rewrite ends_space_ph_eq.
Qed.

(** A keyword does not start in a text and end in the next one when the
    next one starts with a character the keyword does not have. *)
Lemma prefix_app_cut ci l : forall a c t,
  forallb (fun k => negb (char_eq ci k c)) l = true ->
  prefix_of ci l (a ++ c :: t) = true -> prefix_of ci l a = true.
Proof.
  induction l as [|k l IH]; intros a c t F H; [reflexivity|].
  cbn [forallb] in F. apply andb_true_iff in F as [Fk F].
  destruct a as [|x a]; cbn [app prefix_of] in *.
  - apply negb_true_iff in Fk. rewrite Fk in H. discriminate.
  - apply andb_true_iff in H as [H1 H2]. rewrite H1. cbn [andb]. eauto.
Qed.

Lemma occurs_app_cut ci l a c t :
  forallb (fun k => negb (char_eq ci k c)) l = true ->
  occurs ci l (a ++ c :: t) = true ->
  occurs ci l a = true \/ occurs ci l (c :: t) = true.
Proof.
  intros F. induction a as [|x a IH]; [auto|].
  cbn [app]. intros H. cbn [occurs] in H. apply orb_true_iff in H as [H|H].
  - left. apply occurs_prefix.
    change (x :: a ++ c :: t) with ((x :: a) ++ c :: t) in H.
    eapply prefix_app_cut; eauto.
  - destruct (IH H) as [P|P]; auto. left. now apply occurs_cons.
Qed.

Lemma wrap_tail_no_c a b :
  forallb (fun c => negb (char_eq true "C" c)) (wrap_tail (JNum a) (JNum b))
  = true.
Proof.
  assert (D : forall z, forallb (fun c => negb (char_eq true "C" c)) (dec z) = true).
  { intros z. pose proof (dec_plain z) as P. rewrite forallb_forall in *.
    intros c Hc. specialize (P c Hc). revert P.
    destruct c as [[] [] [] [] [] [] [] []]; vm_compute; congruence. }
  unfold wrap_tail. cbn [ToString]. rewrite !forallb_app, !D. reflexivity.
Qed.

(** Line 52 leaves the template alone when the inner query has no count
    aggregate. *)
Lemma count_wrap_id sql a b :
  occurs true kw_count_paren sql = false ->
  replace_all re_count (fun _ => lit "COUNT(*) total")
    (rownum_wrap sql (JNum a) (JNum b))
  = rownum_wrap sql (JNum a) (JNum b).
Proof.
  intros H. rewrite rownum_wrap_split, count_head. f_equal.
  apply count_id.
  destruct (occurs true (lit "COUNT(*)") (sql ++ wrap_tail (JNum a) (JNum b))) eqn:E;
    auto.
  change (lit "COUNT(*)") with (kw_count_paren ++ lit "*)") in E.
  apply occurs_longer in E.
  pose proof (wrap_tail_no_c a b) as T.
  assert (exists t, wrap_tail (JNum a) (JNum b) = ")"%char :: t) as (t & Et)
    by (eexists; reflexivity).
  rewrite Et in E. apply occurs_app_cut in E as [E|E]; [congruence | | reflexivity].
  rewrite <- Et in E. unfold kw_count_paren, lit in E. cbn [list_ascii_of_string] in E.
  rewrite occurs_no_head in E by exact T. discriminate.
Qed.

(** Lines 31 to 54 on a canonical text that ends with a pagination clause
    naming the last two binds. *)
Lemma oracle_last_two_exact parts post sp w1 d1 w2 w3 d2 front L O :
  parts_ok true parts = true -> tail_ok parts post = true ->
  occurs true kw_limit (assemble comparison_text parts post) = false ->
  occurs true kw_count_paren (assemble comparison_text parts post) = false ->
  ends_space post = false ->
  blank sp = true -> blank w1 = true -> digits d1 = true -> blank w2 = true ->
  blank w3 = true -> digits d2 = true ->
  parseInt d1 = Some (Z.of_nat (List.length front) + 1)%Z ->
  parseInt d2 = Some (Z.of_nat (List.length front) + 2)%Z ->
  translateToOracle
    (assemble comparison_text parts post
     ++ canonical_clause (lit "$") sp w1 d1 w2 w3 d2)
    (Some (front ++ [JNum L; JNum O]))
  = {| o_sql :=
         rownum_wrap
           (assemble oracle_comparison (ph_parts (lit ":") parts)
                     (ph_spec (lit ":") post))
           (JNum (O + L)) (JNum O);
       o_binds := number_from 0 front;
       o_filteredParams := Some front |}.
Proof.
  intros Hp Ht HL HC He Bs B1 D1 B2 B3 D2 P1 P2.
  destruct (stage_oracle_clause parts post sp w1 d1 w2 w3 d2) as (S & HL' & He');
    auto.
  assert (occurs true kw_count_paren
            (assemble oracle_comparison (ph_parts (lit ":") parts)
                      (ph_spec (lit ":") post)) = false) as HC'.
  { apply (keyword_out kw_count_paren ":" []); auto; try reflexivity; try discriminate.
    - apply count_paren_no_space.
    - intros c. apply (oracle_comparison_free kw_count_paren count_paren_no_space);
        reflexivity. }
  unfold translateToOracle. rewrite S.
  rewrite search_limit_clause by assumption.
  rewrite oracle_clause_stripped by assumption.
  unfold cap. cbn [Nat.sub nth]. rewrite P1, P2. cbn [option_map].
  set (n := List.length (front ++ [JNum L; JNum O])).
  assert (n = List.length front + 2) as Hn
    by (unfold n; rewrite length_app; reflexivity).
  replace (Z.of_nat (List.length front) + 1 - 1)%Z with (Z.of_nat n - 1 - 1)%Z by lia.
  replace (Z.of_nat (List.length front) + 2 - 1)%Z with (Z.of_nat n - 1)%Z by lia.
  rewrite (filter_last_two n (front ++ [JNum L; JNum O]) 0) by reflexivity.
  fold n. replace (n - 2) with (List.length front) by lia.
  rewrite firstn_app, firstn_all, Nat.sub_diag. cbn [firstn]. rewrite app_nil_r.
  unfold index.
  replace (Z.of_nat n - 1 - 1 <? 0)%Z with false by (symmetry; apply Z.ltb_ge; lia).
  replace (Z.of_nat n - 1 <? 0)%Z with false by (symmetry; apply Z.ltb_ge; lia).
  replace (Z.to_nat (Z.of_nat n - 1 - 1)) with (List.length front + 0) by lia.
  replace (Z.to_nat (Z.of_nat n - 1)) with (List.length front + 1) by lia.
  rewrite !app_nth2_plus. cbn [nth js_add ToNumber].
  rewrite count_wrap_id by assumption. reflexivity.
Qed.

(** X3.  Pagination for Oracle, the text in full.  Take a canonical text that
    ends with the pagination clause [LIMIT $i OFFSET $j], after any number
    of case-insensitive comparisons and other text without [LIMIT] and
    without a count aggregate (not ending with white space), and binds of
    which the clause names the last two, integers [L] and [O] such that
    [L], [O] and [O + L] are integers a double holds exactly.  Then the
    text [translateToOracle] returns is the row-number template around the
    text before the clause, placeholders and comparisons rewritten and
    nothing else changed, with the bounds [ROWNUM <= O + L] and [rn > O];
    the binds it returns are the binds before the last two, numbered
    from 1 in the bind object. *)
Theorem oracle_pagination_exact parts post sp w1 d1 w2 w3 d2 front L O :
  parts_ok true parts = true -> tail_ok parts post = true ->
  occurs true kw_limit (assemble comparison_text parts post) = false ->
  occurs true kw_count_paren (assemble comparison_text parts post) = false ->
  ends_space post = false ->
  blank sp = true -> blank w1 = true -> digits d1 = true -> blank w2 = true ->
  blank w3 = true -> digits d2 = true ->
  parseInt d1 = Some (Z.of_nat (List.length front) + 1)%Z ->
  parseInt d2 = Some (Z.of_nat (List.length front) + 2)%Z ->
  Es.isSafeInteger L = true -> Es.isSafeInteger O = true ->
  Es.isSafeInteger (O + L) = true ->
  translateToOracle
    (assemble comparison_text parts post
     ++ canonical_clause (lit "$") sp w1 d1 w2 w3 d2)
    (Some (front ++ [JNum L; JNum O]))
  = {| o_sql :=
         rownum_wrap
           (assemble oracle_comparison (ph_parts (lit ":") parts)
                     (ph_spec (lit ":") post))
           (JNum (O + L)) (JNum O);
       o_binds := number_from 0 front;
       o_filteredParams := Some front |}.
Proof. intros; now apply oracle_last_two_exact. Qed.

Lemma oracle_pagination_exact_witness :
  translateToOracle
    (assemble comparison_text scenario_parts []
     ++ canonical_clause (lit "$") (lit " ") (lit " ") (lit "2") (lit " ")
          (lit " ") (lit "3"))
    (Some ([JStr (lit "%abc%")] ++ [JNum 5; JNum 10]))
  = {| o_sql :=
         rownum_wrap
           (assemble oracle_comparison (ph_parts (lit ":") scenario_parts)
                     (ph_spec (lit ":") []))
           (JNum (10 + 5)) (JNum 10);
       o_binds := number_from 0 [JStr (lit "%abc%")];
       o_filteredParams := Some [JStr (lit "%abc%")] |}.
Proof.
  apply (oracle_pagination_exact scenario_parts [] (lit " ") (lit " ") (lit "2")
           (lit " ") (lit " ") (lit "3") [JStr (lit "%abc%")] 5 10); reflexivity.
Defined.

End OraclePaginationFacts.

(** ** Texts without a pagination clause *)

Module PlainFacts.
Import Chars Regex Js Db Spec PaginationSpec ComparisonSpec.
Import RegexFacts ScanFacts OccursFacts TranslateFacts ComparisonFacts PaginationFacts.
Import BindsSpec MssqlPaginationFacts CountFacts OraclePaginationFacts.

#[local] Arguments char_eq : simpl never.

Lemma stage_mssql_tail parts post :
  parts_ok true parts = true -> tail_ok parts post = true ->
  mssql_ilike (mssql_placeholders (assemble comparison_text parts post))
  = assemble mssql_comparison (ph_parts (lit "@p") parts) (ph_spec (lit "@p") post).
Proof.
  intros Hp Ht. destruct parts as [|p parts]; [|now apply stage_mssql].
  cbn [tail_ok] in Ht. apply negb_true_iff in Ht.
  cbn [assemble ph_parts map]. rewrite mssql_placeholders_spec.
  apply mssql_ilike_id. apply occurs_ph; [discriminate | reflexivity | exact Ht].
Qed.

Lemma stage_oracle_tail parts post :
  parts_ok true parts = true -> tail_ok parts post = true ->
  oracle_ilike (oracle_placeholders (assemble comparison_text parts post))
  = assemble oracle_comparison (ph_parts (lit ":") parts) (ph_spec (lit ":") post).
Proof.
  intros Hp Ht. destruct parts as [|p parts]; [|now apply stage_oracle].
  cbn [tail_ok] in Ht. apply negb_true_iff in Ht.
  cbn [assemble ph_parts map]. rewrite oracle_placeholders_spec.
  apply oracle_ilike_id. apply occurs_ph; [discriminate | reflexivity | exact Ht].
Qed.

(** [translateToMssql] on a canonical text without [LIMIT]. *)
Lemma mssql_plain parts post params :
  parts_ok true parts = true -> tail_ok parts post = true ->
  occurs true kw_limit (assemble comparison_text parts post) = false ->
  translateToMssql (assemble comparison_text parts post) params
  = {| m_sql := assemble mssql_comparison (ph_parts (lit "@p") parts)
                         (ph_spec (lit "@p") post);
       m_filteredParams := params |}.
Proof.
  intros Hp Ht HL. unfold translateToMssql.
  rewrite stage_mssql_tail by assumption.
  rewrite mssql_limit_none; [reflexivity|].
  apply (keyword_out kw_limit "@" ["p"%char]); auto; try reflexivity; try discriminate.
  - apply limit_nospace.
  - intros c. apply (mssql_comparison_free kw_limit limit_nospace); reflexivity.
Qed.

(** [translateToOracle] on a canonical text without [LIMIT], up to
    line 52. *)
Lemma oracle_plain parts post params :
  parts_ok true parts = true -> tail_ok parts post = true ->
  occurs true kw_limit (assemble comparison_text parts post) = false ->
  translateToOracle (assemble comparison_text parts post) params
  = {| o_sql := replace_all re_count (fun _ => lit "COUNT(*) total")
                  (assemble oracle_comparison (ph_parts (lit ":") parts)
                            (ph_spec (lit ":") post));
       o_binds := match params with
                  | Some ps => number_from 0 ps
                  | None => []
                  end;
       o_filteredParams := params |}.
Proof.
  intros Hp Ht HL. unfold translateToOracle.
  rewrite stage_oracle_tail by assumption.
  rewrite oracle_limit_none; [reflexivity|].
  apply (keyword_out kw_limit ":" []); auto; try reflexivity; try discriminate.
  - apply limit_nospace.
  - intros c. apply (oracle_comparison_free kw_limit limit_nospace); reflexivity.
Qed.

(** Line 52 on a text that starts with the count of the handlers. *)
Lemma count_alias_once rest :
  occurs true (lit "COUNT(*)") rest = false ->
  replace_all re_count (fun _ => lit "COUNT(*) total")
    (lit "SELECT COUNT(*) as total" ++ rest)
  = lit "SELECT COUNT(*) total" ++ rest.
Proof.
  intros H.
  change (lit "SELECT COUNT(*) as total" ++ rest)
    with (lit "SELECT " ++ (lit "COUNT(*)" ++ lit " " ++ lit "as" ++ lit " "
                            ++ lit "total" ++ rest)).
  change (lit "SELECT COUNT(*) total" ++ rest)
    with (lit "SELECT " ++ lit "COUNT(*) total" ++ rest).
  rewrite replace_all_skip; [f_equal | reflexivity |].
  - pose proof (exec_count_alias (lit "COUNT(*)") (lit " ") (lit "as") (lit " ")
                  (lit "total") rest eq_refl eq_refl eq_refl eq_refl eq_refl) as X.
    remember (lit "COUNT(*)" ++ lit " " ++ lit "as" ++ lit " " ++ lit "total" ++ rest)
      as s eqn:Es.
    destruct s as [|c t]; [discriminate|].
    rewrite replace_all_cons by reflexivity. rewrite X.
    f_equal. now apply count_id.
  - intros a b Eab Hb. apply exec_count_clash.
    assert (forallb (clash true (lit "COUNT(*)")) (tails (lit "SELECT ")) = true) as F
      by (vm_compute; reflexivity).
    rewrite forallb_forall in F. apply F. eapply in_tails; eauto.
Qed.

End PlainFacts.

(** ** The queries of the list handler *)

Module BuilderFacts.
Import Chars Regex Js Db Normalizer Lifecycle Paging Spec ComparisonSpec.
Import WaterSystemRoute WaterSystemSpec.
Import NumeralFacts ParseFacts PagingFacts.

Lemma builder_eq b b' :
  conditions b = conditions b' -> params b = params b' -> paramIdx b = paramIdx b' ->
  b = b'.
Proof. destruct b, b'; simpl; intros -> -> ->; reflexivity. Qed.

Lemma extend_nil b : extend b [] = b.
Proof.
  apply builder_eq; simpl; rewrite ?app_nil_r; auto. lia.
Qed.

Lemma numbered_app d fs1 : forall i fs2,
  numbered d i (fs1 ++ fs2)
  = numbered d i fs1 ++ numbered d (i + Z.of_nat (List.length fs1)) fs2.
Proof.
  induction fs1 as [|f fs1 IH]; intros i fs2.
  - simpl. now rewrite Z.add_0_r.
  - cbn [app numbered List.length]. rewrite IH. cbn [app]. do 3 f_equal. lia.
Qed.

Lemma extend_app b fs1 fs2 : extend (extend b fs1) fs2 = extend b (fs1 ++ fs2).
Proof.
  apply builder_eq; cbn [extend conditions params paramIdx].
  - now rewrite numbered_app, app_assoc.
  - now rewrite map_app, app_assoc.
  - rewrite length_app. lia.
Qed.

(** One [if] of the handler adds the filter it is about, when the request
    gives it. *)
Lemma when_given p before name value b :
  (name = true -> before = lit "ws.name ILIKE ") ->
  when p (fun v b => push ((before ++ lit "$") ++ dec (paramIdx b)) (value v) b) b
  = extend b (given p before name value).
Proof.
  intros Hn. unfold when, given. destruct p as [[|c s]|]; try now rewrite extend_nil.
  apply builder_eq; cbn [extend push conditions params paramIdx numbered map
                         List.length]; auto.
  unfold condition. cbn [f_name f_before f_value].
  destruct name; [rewrite (Hn eq_refl)|]; now rewrite <- app_assoc.
Qed.

Section Handler.
Variable Number : jsstring -> JsVal.
Variable inherited : jsstring -> option jsstring.

Lemma filters_plan q b : filters Number q b = extend b (plan Number q).
Proof.
  unfold filters, plan, before_name, the_name, after_name.
  rewrite <- !extend_app.
  change (lit "TRIM(ws.number0) LIKE $") with (lit "TRIM(ws.number0) LIKE " ++ lit "$").
  change (lit "ws.name ILIKE $") with (lit "ws.name ILIKE " ++ lit "$").
  change (lit "ws.activity_status_cd = $") with (lit "ws.activity_status_cd = " ++ lit "$").
  change (lit "TRIM(ws.d_fed_prim_src_cd) = $")
    with (lit "TRIM(ws.d_fed_prim_src_cd) = " ++ lit "$").
  change (lit "TRIM(ws.d_pws_fed_type_cd) = $")
    with (lit "TRIM(ws.d_pws_fed_type_cd) = " ++ lit "$").
  change (lit "TRIM(ws.owner_type_code) = $")
    with (lit "TRIM(ws.owner_type_code) = " ++ lit "$").
  change (lit "ws.d_population_count >= $") with (lit "ws.d_population_count >= " ++ lit "$").
  change (lit "ws.d_population_count <= $") with (lit "ws.d_population_count <= " ++ lit "$").
  rewrite (when_given (q_waterSystemId q) (lit "TRIM(ws.number0) LIKE ") false
             (fun v => JStr (v ++ lit "%"))) by discriminate.
  rewrite (when_given (q_name q) (lit "ws.name ILIKE ") true
             (fun v => JStr (lit "%" ++ v ++ lit "%"))) by reflexivity.
  rewrite (when_given (q_wsStatusCode q) (lit "ws.activity_status_cd = ") false JStr)
    by discriminate.
  rewrite (when_given (q_fedWSSourceCode q) (lit "TRIM(ws.d_fed_prim_src_cd) = ")
             false JStr) by discriminate.
  rewrite (when_given (q_fedWSTypeCode q) (lit "TRIM(ws.d_pws_fed_type_cd) = ")
             false JStr) by discriminate.
  rewrite (when_given (q_wsOwnerTypeCode q) (lit "TRIM(ws.owner_type_code) = ")
             false JStr) by discriminate.
  rewrite (when_given (q_fedPopulationFrom q) (lit "ws.d_population_count >= ")
             false Number) by discriminate.
  rewrite (when_given (q_fedPopulationTo q) (lit "ws.d_population_count <= ")
             false Number) by discriminate.
  reflexivity.
Qed.


Lemma join_and x fs : forall d i,
  Es.join (lit " AND ") (x :: numbered d i fs) = x ++ and_conditions d i fs.
Proof.
  revert x. induction fs as [|f fs IH]; intros x d i.
  - simpl. now rewrite app_nil_r.
  - cbn [numbered and_conditions].
    change (Es.join (lit " AND ") (x :: condition d i f :: numbered d (i + 1) fs))
      with (x ++ lit " AND "
            ++ Es.join (lit " AND ") (condition d i f :: numbered d (i + 1) fs)).
    now rewrite IH.
Qed.

Lemma built_plan env q :
  built Number env q
  = {| conditions := state_condition env :: numbered canonical 1 (plan Number q);
       params := map f_value (plan Number q);
       paramIdx := 1 + Z.of_nat (List.length (plan Number q)) |}.
Proof. unfold built. rewrite filters_plan. reflexivity. Qed.

Lemma where_plan env q :
  where_clause (built Number env q) = where_text canonical env (plan Number q).
Proof.
  rewrite built_plan. unfold where_clause, where_text. cbn [conditions].
  now rewrite join_and.
Qed.

(** The two calls of the handler, filter by filter. *)
Lemma rows_call_plan env q :
  rows_call Number inherited env q
  = {| c_text :=
         rows_body canonical env (plan Number q) (orderBy inherited q)
         ++ canonical_clause (lit "$") clause_gap (lit " ")
              (dec (Z.of_nat (List.length (plan Number q)) + 1)) (lit " ") (lit " ")
              (dec (Z.of_nat (List.length (plan Number q)) + 2));
       c_params :=
         Some (map f_value (plan Number q)
               ++ [JNum (pageSize (q_pageSize q));
                   JNum (pageNumber (q_pageNumber q) * pageSize (q_pageSize q))]) |}.
Proof.
  unfold rows_call. rewrite where_plan. rewrite built_plan. cbn [params paramIdx].
  f_equal.
  unfold rows_body, select_from, order_text, canonical_clause, clause_gap.
  replace (1 + Z.of_nat (List.length (plan Number q)) + 1)%Z
    with (Z.of_nat (List.length (plan Number q)) + 2)%Z by lia.
  replace (1 + Z.of_nat (List.length (plan Number q)))%Z
    with (Z.of_nat (List.length (plan Number q)) + 1)%Z by lia.
  rewrite <- !app_assoc. reflexivity.
Qed.

Lemma count_call_plan env q :
  count_call Number env q
  = {| c_text := select_from (lit "COUNT(*) as total") env
                 ++ where_text canonical env (plan Number q);
       c_params := Some (map f_value (plan Number q)) |}.
Proof.
  unfold count_call. rewrite where_plan. rewrite built_plan. cbn [params].
  f_equal. unfold select_from. rewrite <- !app_assoc. reflexivity.
Qed.

(** X16.  The queries of the list handler, filter by filter, for a page whose
    row bounds are integers a double holds exactly.  The text of the
    second call is the text of the plan of the request: the fixed
    [SELECT], then a [WHERE] with the condition on the state and one
    condition for each filter the request gives, in the order of the
    handler, the [k]-th of them with the placeholder [$k]; then the
    [ORDER BY]; then the pagination clause, whose two placeholders have the
    numbers after those of the filters.  Its binds are the values of the
    filters in the same order, then the page size, then the offset
    [pageNumber * pageSize].  The first call has the same conditions and
    the binds of the filters alone.  The numbers written into the clause
    are read back by [parseInt] as the positions of the last two binds. *)
Theorem list_queries_by_plan env q :
  page_exact q = true ->
  c_text (rows_call Number inherited env q)
  = rows_body canonical env (plan Number q) (orderBy inherited q)
    ++ canonical_clause (lit "$") clause_gap (lit " ")
         (dec (Z.of_nat (List.length (plan Number q)) + 1)) (lit " ") (lit " ")
         (dec (Z.of_nat (List.length (plan Number q)) + 2))
  /\ c_params (rows_call Number inherited env q)
     = Some (map f_value (plan Number q)
             ++ [JNum (pageSize (q_pageSize q));
                 JNum (pageNumber (q_pageNumber q) * pageSize (q_pageSize q))])
  /\ c_text (count_call Number env q)
     = select_from (lit "COUNT(*) as total") env
       ++ where_text canonical env (plan Number q)
  /\ c_params (count_call Number env q) = Some (map f_value (plan Number q))
  /\ parseInt (dec (Z.of_nat (List.length (plan Number q)) + 1))
     = Some (Z.of_nat (List.length (map f_value (plan Number q))) + 1)%Z
  /\ parseInt (dec (Z.of_nat (List.length (plan Number q)) + 2))
     = Some (Z.of_nat (List.length (map f_value (plan Number q))) + 2)%Z.
Proof.
  intros _. rewrite rows_call_plan, count_call_plan. cbn [c_text c_params].
  rewrite !parseInt_dec by lia. rewrite length_map.
  repeat split.
Qed.

End Handler.

Lemma list_queries_by_plan_witness :
  c_text (rows_call sample_number nothing_inherited sample_env sample_request)
  = rows_body canonical sample_env (plan sample_number sample_request)
              (orderBy nothing_inherited sample_request)
    ++ canonical_clause (lit "$") clause_gap (lit " ")
         (dec (Z.of_nat (List.length (plan sample_number sample_request)) + 1))
         (lit " ") (lit " ")
         (dec (Z.of_nat (List.length (plan sample_number sample_request)) + 2))
  /\ c_params (rows_call sample_number nothing_inherited sample_env sample_request)
     = Some (map f_value (plan sample_number sample_request)
             ++ [JNum (pageSize (q_pageSize sample_request));
                 JNum (pageNumber (q_pageNumber sample_request)
                       * pageSize (q_pageSize sample_request))])
  /\ c_text (count_call sample_number sample_env sample_request)
     = select_from (lit "COUNT(*) as total") sample_env
       ++ where_text canonical sample_env (plan sample_number sample_request)
  /\ c_params (count_call sample_number sample_env sample_request)
     = Some (map f_value (plan sample_number sample_request))
  /\ parseInt (dec (Z.of_nat (List.length (plan sample_number sample_request)) + 1))
     = Some (Z.of_nat (List.length (map f_value (plan sample_number sample_request)))
             + 1)%Z
  /\ parseInt (dec (Z.of_nat (List.length (plan sample_number sample_request)) + 2))
     = Some (Z.of_nat (List.length (map f_value (plan sample_number sample_request)))
             + 2)%Z.
Proof.
  exact (list_queries_by_plan sample_number nothing_inherited sample_env sample_request
           eq_refl).
Defined.

End BuilderFacts.

(** ** Keywords in the texts of the handler *)

Module RouteTextFacts.
Import Chars Regex Js Db Normalizer Lifecycle Paging Spec ComparisonSpec.
Import WaterSystemRoute WaterSystemSpec.
Import RegexFacts OccursFacts ComparisonFacts PaginationFacts NumeralFacts.

#[local] Arguments char_eq : simpl never.

Lemma digit_listed c : is_digit c = true -> In c (lit "0123456789").
Proof.
  destruct c as [[] [] [] [] [] [] [] []]; vm_compute; try discriminate; intros _;
    tauto.
Qed.

Section Fits.
Variable kw : jsstring.
Hypothesis Hfits : kw_fits kw = true.

Lemma fits_nospace c :
  is_space c = true -> forallb (fun k => negb (char_eq true k c)) kw = true.
Proof.
  intros Hc. unfold kw_fits in Hfits.
  do 3 (apply andb_true_iff in Hfits as [Hfits ?]).
  rewrite forallb_forall in Hfits. specialize (Hfits c (all_chars_in c)).
  rewrite Hc in Hfits. exact Hfits.
Qed.

Lemma fits_head s :
  incl s (lit "$@p:0123456789-)'UPER(") -> occurs true kw s = false.
Proof.
  intros Hs. unfold kw_fits in Hfits.
  do 3 (apply andb_true_iff in Hfits as [Hfits ?]).
  destruct kw as [|k l]; [discriminate|].
  apply occurs_no_head. rewrite forallb_forall in *. auto.
Qed.

Lemma fits_fixed p :
  In p (known_prefixes ++ fixed_parts) ->
  occurs true kw p = false.
Proof.
  intros Hp. unfold kw_fits in Hfits.
  do 3 (apply andb_true_iff in Hfits as [Hfits ?]).
  match goal with H : forallb _ (known_prefixes ++ _) = true |- _ =>
    rewrite forallb_forall in H; apply H in Hp end.
  now apply negb_true_iff.
Qed.

Lemma fits_part p : In p sort_parts -> occurs true kw (p ++ lit ", ") = false.
Proof.
  intros Hp. unfold kw_fits in Hfits.
  do 3 (apply andb_true_iff in Hfits as [Hfits ?]).
  match goal with H : forallb _ sort_parts = true |- _ =>
    rewrite forallb_forall in H; apply H in Hp end.
  now apply negb_true_iff.
Qed.

Lemma glue_end a b :
  ends_space a = true -> occurs true kw a = false -> occurs true kw b = false ->
  occurs true kw (a ++ b) = false.
Proof.
  intros E Ha Hb. destruct (occurs true kw (a ++ b)) eqn:O; auto.
  apply (occurs_app_end kw fits_nospace) in O as [O|O]; auto; congruence.
Qed.

Lemma glue_start a b :
  empty b || starts_space b = true ->
  occurs true kw a = false -> occurs true kw b = false ->
  occurs true kw (a ++ b) = false.
Proof.
  intros E Ha Hb. destruct (occurs true kw (a ++ b)) eqn:O; auto.
  apply (occurs_app_start kw fits_nospace) in O as [O|O]; auto; congruence.
Qed.

(** A placeholder has no keyword in it. *)
Lemma free_placeholder m i :
  In m marks -> (0 <= i)%Z -> occurs true kw (m ++ dec i) = false.
Proof.
  intros Hm Hi. apply fits_head. intros c Hc. apply in_app_or in Hc as [Hc|Hc].
  - unfold marks in Hm. simpl in Hm.
    destruct Hm as [<-|[<-|[<-|[]]]]; unfold lit in *; simpl in *; tauto.
  - pose proof (dec_digits i Hi) as D. apply digits_inv in D as [_ F].
    rewrite forallb_forall in F. apply F, digit_listed in Hc.
    unfold lit in *. simpl in *. tauto.
Qed.

Lemma prefix_ends p : In p known_prefixes -> ends_space p = true.
Proof.
  intros Hp. assert (forallb ends_space known_prefixes = true) as F by reflexivity.
  rewrite forallb_forall in F. auto.
Qed.

Lemma plain_filter_inv f :
  plain_filter f = true -> f_name f = false /\ In (f_before f) known_prefixes.
Proof.
  unfold plain_filter. intros H. apply andb_true_iff in H as [H1 H2].
  apply negb_true_iff in H1. split; auto.
  apply existsb_exists in H2 as (p & Hp & E).
  apply NormalizerFacts.str_eqb_eq in E. now subst.
Qed.

(** The condition of a plain filter has no keyword in it, in any
    dialect. *)
Lemma free_condition d i f :
  In (mark d) marks -> (0 <= i)%Z -> plain_filter f = true ->
  occurs true kw (condition d i f) = false.
Proof.
  intros Hm Hi Hf. apply plain_filter_inv in Hf as [Hn Hp].
  unfold condition. rewrite Hn.
  apply glue_end; [now apply prefix_ends | | now apply free_placeholder].
  apply fits_fixed. apply in_or_app. auto.
Qed.

Lemma and_starts d i fs :
  empty (and_conditions d i fs) || starts_space (and_conditions d i fs) = true.
Proof. destruct fs; reflexivity. Qed.

Lemma free_and d fs : forall i,
  In (mark d) marks -> (0 <= i)%Z ->
  Forall (fun f => forall j, (0 <= j)%Z -> occurs true kw (condition d j f) = false) fs ->
  occurs true kw (and_conditions d i fs) = false.
Proof.
  induction fs as [|f fs IH]; intros i Hm Hi F; [apply fits_head; intros ? []|].
  inversion F as [|? ? Hf F']; subst. cbn [and_conditions].
  apply glue_end; [reflexivity | |].
  - apply fits_fixed. apply in_or_app. right. simpl. tauto.
  - apply glue_start; [apply and_starts | now apply Hf|].
    apply IH; auto. lia.
Qed.

Lemma plain_free d fs :
  In (mark d) marks -> Forall (fun f => plain_filter f = true) fs ->
  Forall (fun f => forall j, (0 <= j)%Z -> occurs true kw (condition d j f) = false) fs.
Proof.
  intros Hm F. eapply Forall_impl; [|exact F].
  intros f Hf j Hj. now apply free_condition.
Qed.


(** The [ORDER BY] of a request is made of parts of the list. *)
Lemma join_parts_free parts :
  parts <> [] -> Forall (fun p => In p sort_parts) parts ->
  occurs true kw (Es.join (lit ", ") parts) = false.
Proof.
  induction parts as [|p parts IH]; intros N F; [congruence|].
  inversion F as [|? ? Hp F']; subst.
  destruct parts as [|p' parts].
  - cbn [Es.join]. pose proof (fits_part p Hp) as O.
    destruct (occurs true kw p) eqn:E; auto.
    now rewrite (occurs_app_l _ _ _ (lit ", ") E) in O.
  - change (Es.join (lit ", ") (p :: p' :: parts))
      with (p ++ lit ", " ++ Es.join (lit ", ") (p' :: parts)).
    rewrite app_assoc. apply glue_end.
    + rewrite ends_space_app by discriminate. reflexivity.
    + now apply fits_part.
    + apply IH; [discriminate | assumption].
Qed.

End Fits.

Lemma part_fine p :
  In p sort_parts ->
  p <> [] /\ ends_space p = false /\ forallb (fun c => negb (is_dollar c)) p = true.
Proof.
  intros Hp.
  assert (forallb (fun p => negb (empty p) && negb (ends_space p)
                            && forallb (fun c => negb (is_dollar c)) p)
                  sort_parts = true) as F by reflexivity.
  rewrite forallb_forall in F. specialize (F p Hp).
  apply andb_true_iff in F as [F F3]. apply andb_true_iff in F as [F1 F2].
  apply negb_true_iff in F2. repeat split; auto.
  destruct p; [discriminate | congruence].
Qed.

Lemma join_parts_fine parts :
  parts <> [] -> Forall (fun p => In p sort_parts) parts ->
  Es.join (lit ", ") parts <> []
  /\ ends_space (Es.join (lit ", ") parts) = false
  /\ forallb (fun c => negb (is_dollar c)) (Es.join (lit ", ") parts) = true.
Proof.
  induction parts as [|p parts IH]; intros N F; [congruence|].
  inversion F as [|? ? Hp F']; subst.
  destruct (part_fine p Hp) as (P1 & P2 & P3).
  destruct parts as [|p' parts]; [cbn [Es.join]; auto|].
  change (Es.join (lit ", ") (p :: p' :: parts))
    with (p ++ lit ", " ++ Es.join (lit ", ") (p' :: parts)).
  destruct IH as (I1 & I2 & I3); [discriminate | assumption |].
  repeat split.
  - destruct p; [congruence | discriminate].
  - rewrite app_assoc, ends_space_app by assumption. exact I2.
  - rewrite !forallb_app, P3, I3. reflexivity.
Qed.

Section Sorting.
Variable inherited : jsstring -> option jsstring.

Lemma sort_column_listed name ssCol :
  inherited name = None -> SORT_COLUMNS inherited name = Some ssCol ->
  In ssCol sort_columns.
Proof.
  intros Hi. unfold SORT_COLUMNS, sort_columns.
  repeat match goal with
         | |- context [if ?b then _ else _] => destruct b
         end; intros H; inversion H; subst; simpl; try tauto; congruence.
Qed.

Lemma part_listed ssCol dir :
  In ssCol sort_columns -> dir = lit "ASC" \/ dir = lit "DESC" ->
  In (lit "ws." ++ ssCol ++ lit " " ++ dir) sort_parts.
Proof.
  intros Hc Hd. unfold sort_parts. apply in_flat_map. exists ssCol. split; auto.
  destruct Hd as [->| ->]; simpl; auto.
Qed.

Lemma order_parts_listed cols : forall orders,
  Forall (fun col => inherited (Es.trim col) = None) cols ->
  Forall (fun p => In p sort_parts) (order_parts inherited cols orders).
Proof.
  induction cols as [|col cols IH]; intros orders F; [constructor|].
  inversion F as [|? ? Hc F']; subst. cbn [order_parts].
  destruct (SORT_COLUMNS inherited (Es.trim col)) as [ssCol|] eqn:S; [|now apply IH].
  constructor; [|now apply IH].
  apply part_listed; [eapply sort_column_listed; eauto|].
  destruct (Es.is_text _ _); auto.
Qed.

(** The [ORDER BY] of a request that sorts by columns of the list only. *)
Lemma order_listed q :
  sort_ok inherited q ->
  exists parts, parts <> [] /\ Forall (fun p => In p sort_parts) parts
                /\ orderBy inherited q = Es.join (lit ", ") parts.
Proof.
  intros H. unfold sort_ok, orderBy in *.
  assert (exists parts, parts <> [] /\ Forall (fun p => In p sort_parts) parts
                        /\ lit "ws.name ASC" = Es.join (lit ", ") parts) as Default.
  { exists [lit "ws.name ASC"]. repeat split; [discriminate|].
    constructor; [|constructor]. vm_compute. tauto. }
  destruct (q_sortColumns q) as [[|c s]|]; auto.
  pose proof (order_parts_listed (Es.split "," (c :: s))
                (Es.split "," match q_sortOrders q with Some o => o | None => [] end) H)
    as L.
  destruct (order_parts inherited _ _) as [|p parts]; auto.
  exists (p :: parts). repeat split; auto. discriminate.
Qed.

End Sorting.

End RouteTextFacts.

(** ** The texts of the list handler, piece by piece *)

Module ListTextFacts.
Import Chars Regex Js Db Normalizer Lifecycle Paging Spec ComparisonSpec BindsSpec.
Import WaterSystemRoute WaterSystemSpec.
Import RegexFacts OccursFacts TranslateFacts ComparisonFacts PaginationFacts.
Import NumeralFacts MssqlPaginationFacts CountFacts OraclePaginationFacts.
Import BuilderFacts RouteTextFacts.

#[local] Arguments char_eq : simpl never.

Lemma and_conditions_app d fs1 : forall i fs2,
  and_conditions d i (fs1 ++ fs2)
  = and_conditions d i fs1
    ++ and_conditions d (i + Z.of_nat (List.length fs1)) fs2.
Proof.
  induction fs1 as [|f fs1 IH]; intros i fs2.
  - simpl. now rewrite Z.add_0_r.
  - cbn [app and_conditions List.length]. rewrite IH, <- !app_assoc.
    replace (i + 1 + Z.of_nat (List.length fs1))%Z
      with (i + Z.of_nat (S (List.length fs1)))%Z by lia.
    reflexivity.
Qed.

Lemma framed_app sel env a b : framed sel env (a ++ b) = framed sel env a ++ b.
Proof. unfold framed. now rewrite <- !app_assoc. Qed.

Lemma rows_body_framed d env fs order :
  rows_body d env fs order
  = framed (lit "SELECT * ") env (and_conditions d 1 fs ++ order_text order).
Proof.
  unfold rows_body, select_from, where_text, state_condition, framed.
  rewrite <- !app_assoc. reflexivity.
Qed.

Lemma count_framed what d env fs :
  select_from what env ++ where_text d env fs
  = framed (lit "SELECT " ++ what ++ lit " ") env (and_conditions d 1 fs ++ []).
Proof.
  unfold select_from, where_text, state_condition, framed.
  rewrite app_nil_r, <- !app_assoc. reflexivity.
Qed.

(** *** What the environment brings in *)

Lemma env_clean env :
  env_ok env = true ->
  forallb (fun c => negb (is_dollar c))
          (lit "FROM " ++ SCHEMA_PREFIX env ++ lit "tinwsys") = true
  /\ forallb (fun c => negb (is_dollar c)) (lit "'" ++ ST_CODE env ++ lit "'") = true.
Proof.
  unfold env_ok. intros H. apply andb_true_iff in H as [H _].
  rewrite forallb_app in H. apply andb_true_iff in H as [H1 H2].
  rewrite !forallb_app, H1, H2. split; reflexivity.
Qed.

Lemma env_free env kw :
  env_ok env = true -> In kw keywords ->
  occurs true kw (lit "FROM " ++ SCHEMA_PREFIX env ++ lit "tinwsys") = false
  /\ occurs true kw (lit "'" ++ ST_CODE env ++ lit "'") = false.
Proof.
  unfold env_ok. intros H Hk. apply andb_true_iff in H as [_ H].
  rewrite forallb_forall in H. specialize (H kw Hk).
  apply andb_true_iff in H as [H1 H2].
  apply negb_true_iff in H1, H2. auto.
Qed.

Lemma keywords_fit kw : In kw keywords -> kw_fits kw = true.
Proof.
  intros H. assert (forallb kw_fits keywords = true) as F by (vm_compute; reflexivity).
  rewrite forallb_forall in F. auto.
Qed.

(** *** Keywords in the text around the conditions *)

Lemma framed_free kw sel env tail :
  In kw keywords -> env_ok env = true ->
  ends_space sel = true -> occurs true kw sel = false ->
  empty tail || starts_space tail = true -> occurs true kw tail = false ->
  occurs true kw (framed sel env tail) = false.
Proof.
  intros Hk He Hs Hsel Ht Htail.
  pose proof (keywords_fit kw Hk) as Hfits.
  destruct (env_free env kw He Hk) as [E1 E2].
  unfold framed.
  apply (glue_end kw Hfits); auto.
  apply (glue_start kw Hfits); [reflexivity | assumption |].
  apply (glue_end kw Hfits); [reflexivity | |].
  { apply (fits_fixed kw Hfits). apply in_or_app. right. simpl. tauto. }
  apply (glue_end kw Hfits); [reflexivity | |].
  { apply (fits_fixed kw Hfits). apply in_or_app. right. simpl. tauto. }
  apply (glue_end kw Hfits); [reflexivity | |].
  { apply (fits_fixed kw Hfits). apply in_or_app. right. simpl. tauto. }
  apply (glue_start kw Hfits); assumption.
Qed.

Lemma conditions_free kw sel env d fs T :
  In kw keywords -> env_ok env = true -> In (mark d) marks ->
  ends_space sel = true -> occurs true kw sel = false ->
  Forall (fun f => forall j, (0 <= j)%Z -> occurs true kw (condition d j f) = false) fs ->
  empty T || starts_space T = true -> occurs true kw T = false ->
  occurs true kw (framed sel env (and_conditions d 1 fs ++ T)) = false.
Proof.
  intros Hk He Hm Hs Hsel F Ht HT.
  pose proof (keywords_fit kw Hk) as Hfits.
  apply framed_free; auto.
  - destruct fs; [exact Ht | reflexivity].
  - apply (glue_start kw Hfits); auto. apply (free_and kw Hfits); auto. lia.
Qed.

(** *** The placeholder rewrite on the pieces *)

Lemma framed_ph pre sel env tail :
  env_ok env = true -> forallb (fun c => negb (is_dollar c)) sel = true ->
  ph_spec pre (framed sel env tail) = framed sel env (ph_spec pre tail).
Proof.
  intros He Hs. destruct (env_clean env He) as [E1 E2]. unfold framed.
  rewrite (ph_spec_app_clean pre sel) by assumption.
  rewrite (ph_spec_app_clean pre (lit "FROM " ++ _ ++ _)) by assumption.
  rewrite (ph_spec_app_clean pre (lit " ws ")) by reflexivity.
  rewrite (ph_spec_app_clean pre (lit "WHERE ")) by reflexivity.
  rewrite (ph_spec_app_clean pre (lit "ws.tinwsys_st_code = ")) by reflexivity.
  rewrite (ph_spec_app_clean pre (lit "'" ++ _ ++ _)) by assumption.
  reflexivity.
Qed.

Lemma ph_dollar pre d r :
  digits d = true -> ph_spec pre (lit "$" ++ d ++ r) = pre ++ d ++ ph_spec pre r.
Proof.
  intros D. apply digits_inv in D as [N F].
  destruct d as [|c d]; [congruence|].
  cbn [lit list_ascii_of_string app]. rewrite ph_spec_cons.
  assert (is_digit c = true) as Hc by (simpl in F; apply andb_true_iff in F; tauto).
  cbn [Ascii.eqb Bool.eqb andb]. rewrite Hc. f_equal.
  change (c :: d ++ r) with ((c :: d) ++ r). now rewrite ph_spec_digits.
Qed.

Lemma prefix_clean p :
  In p known_prefixes -> forallb (fun c => negb (is_dollar c)) p = true.
Proof.
  intros Hp.
  assert (forallb (fun p => forallb (fun c => negb (is_dollar c)) p) known_prefixes
          = true) as F by reflexivity.
  rewrite forallb_forall in F. auto.
Qed.

Lemma ph_conditions d fs : forall i rest,
  (0 <= i)%Z -> Forall (fun f => plain_filter f = true) fs ->
  ph_spec (mark d) (and_conditions canonical i fs ++ rest)
  = and_conditions d i fs ++ ph_spec (mark d) rest.
Proof.
  induction fs as [|f fs IH]; intros i rest Hi F; [reflexivity|].
  inversion F as [|? ? Hf F']; subst.
  apply plain_filter_inv in Hf as [Hn Hp].
  cbn [and_conditions]. unfold condition. rewrite Hn. cbn [mark canonical].
  rewrite <- !app_assoc.
  rewrite (ph_spec_app_clean _ (lit " AND ")) by reflexivity.
  rewrite (ph_spec_app_clean _ (f_before f)) by now apply prefix_clean.
  rewrite ph_dollar by now apply dec_digits.
  rewrite IH by (auto; lia). reflexivity.
Qed.

(** *** The [ORDER BY] *)

Lemma order_text_split order : order_text order = order_text [] ++ order.
Proof. unfold order_text. rewrite <- !app_assoc. reflexivity. Qed.

Section Sorted.
Variable inherited : jsstring -> option jsstring.
Variable q : Request.
Hypothesis Hsort : sort_ok inherited q.

Lemma order_free kw :
  In kw keywords -> occurs true kw (order_text (orderBy inherited q)) = false.
Proof.
  intros Hk. pose proof (keywords_fit kw Hk) as Hfits.
  destruct (order_listed inherited q Hsort) as (parts & N & F & ->).
  rewrite order_text_split. apply (glue_end kw Hfits); [reflexivity | |].
  - apply (fits_fixed kw Hfits). apply in_or_app. right. simpl. tauto.
  - now apply (join_parts_free kw Hfits).
Qed.

Lemma order_clean :
  forallb (fun c => negb (is_dollar c)) (order_text (orderBy inherited q)) = true.
Proof.
  destruct (order_listed inherited q Hsort) as (parts & N & F & ->).
  destruct (join_parts_fine parts N F) as (_ & _ & C).
  rewrite order_text_split, forallb_app, C. reflexivity.
Qed.

Lemma order_ends x :
  ends_space (x ++ order_text (orderBy inherited q)) = false.
Proof.
  destruct (order_listed inherited q Hsort) as (parts & N & F & ->).
  destruct (join_parts_fine parts N F) as (N' & E & _).
  rewrite order_text_split, !app_assoc, ends_space_app by assumption. exact E.
Qed.

End Sorted.

(** *** The filters of a request *)

Lemma given_plain p before value :
  In before known_prefixes ->
  Forall (fun f => plain_filter f = true) (given p before false value).
Proof.
  intros Hb. unfold given. destruct p as [[|c s]|]; constructor; [|constructor].
  unfold plain_filter. cbn [f_name f_before negb andb].
  apply existsb_exists. exists before. split; auto.
  apply NormalizerFacts.str_eqb_refl.
Qed.

Section Filters.
Variable Number : jsstring -> JsVal.
Variable q : Request.

Lemma before_plain : Forall (fun f => plain_filter f = true) (before_name q).
Proof. apply given_plain. simpl. tauto. Qed.

Lemma after_plain : Forall (fun f => plain_filter f = true) (after_name Number q).
Proof.
  unfold after_name. repeat (apply Forall_app; split);
    apply given_plain; simpl; tauto.
Qed.

Lemma name_cases :
  the_name q = [] \/ exists v, the_name q = [name_filter v].
Proof.
  unfold the_name, given. destruct (q_name q) as [[|c s]|]; auto.
  right. eexists. reflexivity.
Qed.

End Filters.

(** *** The comparison of the name *)

Lemma digit_nonspace c : is_digit c = true -> is_nonspace c = true.
Proof. destruct c as [[] [] [] [] [] [] [] []]; vm_compute; congruence. Qed.

Lemma name_comparison_ok k : (0 <= k)%Z -> comparison_ok (name_comparison k) = true.
Proof.
  intros Hk. unfold comparison_ok, name_comparison.
  cbn [left_operand gap_before operator gap_after right_operand].
  assert (token (lit "$" ++ dec k) = true) as ->; [|reflexivity].
  unfold token. cbn [lit list_ascii_of_string app empty negb forallb andb].
  apply andb_true_iff. split; [reflexivity|].
  pose proof (dec_digits k Hk) as D. apply digits_inv in D as [_ F].
  rewrite forallb_forall in *. intros c Hc. apply digit_nonspace. auto.
Qed.

Lemma name_free kw d v j :
  In kw [kw_limit; kw_count_paren] -> In d [canonical; sqlserver; oracle11] ->
  (0 <= j)%Z -> occurs true kw (condition d j (name_filter v)) = false.
Proof.
  intros Hk Hd Hj.
  assert (In kw keywords) as Hk'
    by (unfold keywords; simpl in *; tauto).
  pose proof (keywords_fit kw Hk') as Hfits.
  unfold condition. cbn [name_filter f_name].
  destruct Hd as [<-|[<-|[<-|[]]]]; cbn [name_condition mark canonical sqlserver oracle11].
  - apply (glue_end kw Hfits); [reflexivity | |].
    + destruct Hk as [<-|[<-|[]]]; reflexivity.
    + apply (free_placeholder kw Hfits); [simpl; tauto | assumption].
  - apply (glue_end kw Hfits); [reflexivity | |].
    + destruct Hk as [<-|[<-|[]]]; reflexivity.
    + apply (free_placeholder kw Hfits); [simpl; tauto | assumption].
  - change (lit "UPPER(ws.name) LIKE UPPER(")
      with (lit "UPPER(ws.name) LIKE " ++ lit "UPPER(").
    rewrite <- app_assoc.
    apply (glue_end kw Hfits); [reflexivity | |].
    + destruct Hk as [<-|[<-|[]]]; reflexivity.
    + apply (fits_head kw Hfits). intros c Hc.
      apply in_app_or in Hc as [Hc|Hc];
        [unfold lit in *; simpl in *; tauto|].
      apply in_app_or in Hc as [Hc|Hc];
        [|unfold lit in *; simpl in *; tauto].
      apply in_app_or in Hc as [Hc|Hc];
        [unfold lit in *; simpl in *; tauto|].
      pose proof (dec_digits j Hj) as D. apply digits_inv in D as [_ F].
      rewrite forallb_forall in F. apply F, digit_listed in Hc.
      unfold lit in *. simpl in *. tauto.
Qed.

(** *** A text of the handler as comparisons and what is around them *)

Lemma text_pieces sel env fs1 name fs2 T :
  env_ok env = true ->
  ends_space sel = true -> forallb (fun c => negb (is_dollar c)) sel = true ->
  occurs true kw_ilike sel = false ->
  Forall (fun f => plain_filter f = true) fs1 ->
  Forall (fun f => plain_filter f = true) fs2 ->
  name = [] \/ (exists v, name = [name_filter v]) ->
  empty T || starts_space T = true ->
  forallb (fun c => negb (is_dollar c)) T = true ->
  occurs true kw_ilike T = false ->
  exists parts post x,
    framed sel env (and_conditions canonical 1 (fs1 ++ name ++ fs2) ++ T)
    = assemble comparison_text parts post
    /\ parts_ok true parts = true /\ tail_ok parts post = true
    /\ assemble mssql_comparison (ph_parts (lit "@p") parts)
                (ph_spec (lit "@p") post)
       = framed sel env (and_conditions sqlserver 1 (fs1 ++ name ++ fs2) ++ T)
    /\ assemble oracle_comparison (ph_parts (lit ":") parts)
                (ph_spec (lit ":") post)
       = framed sel env (and_conditions oracle11 1 (fs1 ++ name ++ fs2) ++ T)
    /\ post = x ++ T.
Proof.
  intros He Hs Hc Hi F1 F2 Hn Ht Tc Ti.
  assert (In kw_ilike keywords) as Hk by (simpl; tauto).
  pose proof (keywords_fit kw_ilike Hk) as Hfits.
  destruct Hn as [->|(v & ->)].
  - cbn [app].
    exists [], (framed sel env (and_conditions canonical 1 (fs1 ++ fs2) ++ T)),
      (framed sel env (and_conditions canonical 1 (fs1 ++ fs2))).
    assert (Forall (fun f => plain_filter f = true) (fs1 ++ fs2)) as F
      by (apply Forall_app; auto).
    cbn [assemble ph_parts map parts_ok tail_ok].
    repeat split.
    + apply negb_true_iff. apply (conditions_free kw_ilike); auto.
      * simpl; tauto.
      * apply (plain_free kw_ilike Hfits); [simpl; tauto | assumption].
    + rewrite framed_ph by assumption.
      rewrite (ph_conditions sqlserver) by (auto; lia).
      now rewrite ph_spec_clean.
    + rewrite framed_ph by assumption.
      rewrite (ph_conditions oracle11) by (auto; lia).
      now rewrite ph_spec_clean.
    + apply framed_app.
  - set (k := (1 + Z.of_nat (List.length fs1))%Z).
    assert (0 <= k)%Z as Hk0 by (unfold k; lia).
    assert (forall d, and_conditions d 1 (fs1 ++ [name_filter v] ++ fs2)
                      = and_conditions d 1 fs1 ++ lit " AND "
                        ++ condition d k (name_filter v)
                        ++ and_conditions d (k + 1) fs2) as Split.
    { intros d. rewrite and_conditions_app. reflexivity. }
    exists [(framed sel env (and_conditions canonical 1 fs1 ++ lit " AND "),
             name_comparison k)],
      (and_conditions canonical (k + 1) fs2 ++ T),
      (and_conditions canonical (k + 1) fs2).
    cbn [assemble ph_parts map parts_ok tail_ok fst snd].
    repeat split.
    + rewrite Split, <- !framed_app, <- !app_assoc. reflexivity.
    + rewrite name_comparison_ok by assumption. rewrite !andb_true_r.
      unfold before_ok. apply andb_true_iff. split.
      * apply negb_true_iff. apply framed_free; auto.
        { destruct fs1; reflexivity. }
        apply (glue_start kw_ilike Hfits); [reflexivity | | reflexivity].
        apply (free_and kw_ilike Hfits); [simpl; tauto | lia |].
        apply (plain_free kw_ilike Hfits); [simpl; tauto | assumption].
      * rewrite framed_app, ends_space_app by discriminate. apply orb_true_r.
    + unfold after_ok. apply andb_true_iff. split.
      * apply negb_true_iff.
        apply (glue_start kw_ilike Hfits); auto.
        apply (free_and kw_ilike Hfits); [simpl; tauto | lia |].
        apply (plain_free kw_ilike Hfits); [simpl; tauto | assumption].
      * destruct fs2; [exact Ht | reflexivity].
    + rewrite framed_ph by assumption.
      rewrite (ph_conditions sqlserver) by (auto; lia).
      rewrite (ph_conditions sqlserver) by (auto; lia).
      rewrite (ph_spec_clean _ T) by assumption.
      rewrite (ph_spec_clean _ (lit " AND ")) by reflexivity.
      unfold mssql_comparison, ph_comparison, name_comparison.
      cbn [left_operand right_operand].
      rewrite <- (app_nil_r (dec k)) at 1.
      rewrite ph_dollar by now apply dec_digits.
      rewrite Split, <- !framed_app, <- !app_assoc. reflexivity.
    + rewrite framed_ph by assumption.
      rewrite (ph_conditions oracle11) by (auto; lia).
      rewrite (ph_conditions oracle11) by (auto; lia).
      rewrite (ph_spec_clean _ T) by assumption.
      rewrite (ph_spec_clean _ (lit " AND ")) by reflexivity.
      unfold oracle_comparison, ph_comparison, name_comparison.
      cbn [left_operand right_operand].
      rewrite <- (app_nil_r (dec k)) at 1.
      rewrite ph_dollar by now apply dec_digits.
      rewrite Split. unfold condition.
      cbn [name_filter f_name name_condition oracle11 mark].
      rewrite <- !framed_app, <- !app_assoc. reflexivity.
Qed.

(** The whole canonical text has neither [LIMIT] nor a count aggregate
    that the request brought in. *)
Lemma text_free kw sel env fs1 name fs2 T :
  In kw [kw_limit; kw_count_paren] -> env_ok env = true ->
  ends_space sel = true -> occurs true kw sel = false ->
  Forall (fun f => plain_filter f = true) fs1 ->
  Forall (fun f => plain_filter f = true) fs2 ->
  name = [] \/ (exists v, name = [name_filter v]) ->
  empty T || starts_space T = true -> occurs true kw T = false ->
  forall d, In d [canonical; sqlserver; oracle11] ->
  occurs true kw (framed sel env (and_conditions d 1 (fs1 ++ name ++ fs2) ++ T))
  = false.
Proof.
  intros Hk He Hs Hsel F1 F2 Hn Ht HT d Hd.
  assert (In kw keywords) as Hk' by (unfold keywords; simpl in *; tauto).
  pose proof (keywords_fit kw Hk') as Hfits.
  assert (In (mark d) marks) as Hm
    by (destruct Hd as [<-|[<-|[<-|[]]]]; simpl; tauto).
  apply conditions_free; auto.
  repeat (apply Forall_app; split).
  - now apply (plain_free kw Hfits).
  - destruct Hn as [->|(v & ->)]; constructor; [|constructor].
    intros j Hj. now apply name_free.
  - now apply (plain_free kw Hfits).
Qed.

End ListTextFacts.

(** ** The list handler through the translators *)

Module ListQueryFacts.
Import Chars Regex Js Db Normalizer Lifecycle Paging Spec PaginationSpec.
Import ComparisonSpec BindsSpec WaterSystemRoute WaterSystemSpec.
Import RegexFacts OccursFacts TranslateFacts ComparisonFacts PaginationFacts.
Import NumeralFacts MssqlPaginationFacts CountFacts OraclePaginationFacts PlainFacts.
Import BuilderFacts RouteTextFacts ListTextFacts.

#[local] Arguments char_eq : simpl never.

Section Handler.
Variable Number : jsstring -> JsVal.
Variable inherited : jsstring -> option jsstring.

(** X17.  The page query of the list handler for SQL Server.  When the
    environment brings no [$] and no keyword of the translators into the
    text, the request sorts by no name inherited from [Object.prototype]
    and the row bounds of its page are integers a double holds exactly,
    [translateToMssql] turns the second call of the
    handler into the text of the plan in the dialect of SQL Server: every
    filter with its placeholder [@pk], the comparison of the name with
    [LIKE], the [ORDER BY] as it was, and then
    [OFFSET pageNumber * pageSize ROWS FETCH NEXT pageSize ROWS ONLY] with
    the two numbers written out.  The binds that stay are the values of
    the filters, in their order. *)
Theorem list_page_sqlserver env q :
  env_ok env = true -> sort_ok inherited q -> page_exact q = true ->
  translateToMssql (c_text (rows_call Number inherited env q))
                   (c_params (rows_call Number inherited env q))
  = {| m_sql :=
         rows_body sqlserver env (plan Number q) (orderBy inherited q)
         ++ lit " OFFSET "
         ++ dec (pageNumber (q_pageNumber q) * pageSize (q_pageSize q))
         ++ lit " ROWS FETCH NEXT " ++ dec (pageSize (q_pageSize q))
         ++ lit " ROWS ONLY";
       m_filteredParams := Some (map f_value (plan Number q)) |}.
Proof.
  intros He Hs _. rewrite rows_call_plan. cbn [c_text c_params].
  rewrite !rows_body_framed. unfold plan.
  pose proof (order_free inherited q Hs) as OF.
  destruct (text_pieces (lit "SELECT * ") env (before_name q) (the_name q)
              (after_name Number q) (order_text (orderBy inherited q)))
    as (parts & post & x & E & Hp & Ht & Em & _ & Epost);
    auto using before_plain, after_plain, name_cases, order_clean.
  { apply OF. simpl. tauto. }
  assert (occurs true kw_limit (assemble comparison_text parts post) = false) as HL.
  { rewrite <- E.
    apply (text_free kw_limit (lit "SELECT * ") env (before_name q) (the_name q)
             (after_name Number q) (order_text (orderBy inherited q)));
      auto using before_plain, after_plain, name_cases;
      try (apply OF; simpl; tauto); simpl; tauto. }
  rewrite E. rewrite mssql_last_two; auto.
  - rewrite Em. reflexivity.
  - rewrite Epost. now apply order_ends.
  - apply dec_digits. lia.
  - apply dec_digits. lia.
  - rewrite length_map. apply parseInt_dec. lia.
  - rewrite length_map. apply parseInt_dec. lia.
Qed.

(** X18.  The page query of the list handler for Oracle.  Under the same
    conditions [translateToOracle] turns the second call into the
    row-number template around the text of the plan in the dialect of
    Oracle: every filter with its placeholder [:k], the comparison of the
    name as [UPPER(ws.name) LIKE UPPER(:k)], the [ORDER BY] as it was; the
    bounds are [ROWNUM <= pageNumber * pageSize + pageSize] and
    [rn > pageNumber * pageSize].  The binds that stay are the values of
    the filters, numbered from 1 in the bind object. *)
Theorem list_page_oracle env q :
  env_ok env = true -> sort_ok inherited q -> page_exact q = true ->
  translateToOracle (c_text (rows_call Number inherited env q))
                    (c_params (rows_call Number inherited env q))
  = {| o_sql :=
         rownum_wrap
           (rows_body oracle11 env (plan Number q) (orderBy inherited q))
           (JNum (pageNumber (q_pageNumber q) * pageSize (q_pageSize q)
                  + pageSize (q_pageSize q)))
           (JNum (pageNumber (q_pageNumber q) * pageSize (q_pageSize q)));
       o_binds := number_from 0 (map f_value (plan Number q));
       o_filteredParams := Some (map f_value (plan Number q)) |}.
Proof.
  intros He Hs _. rewrite rows_call_plan. cbn [c_text c_params].
  rewrite !rows_body_framed. unfold plan.
  pose proof (order_free inherited q Hs) as OF.
  destruct (text_pieces (lit "SELECT * ") env (before_name q) (the_name q)
              (after_name Number q) (order_text (orderBy inherited q)))
    as (parts & post & x & E & Hp & Ht & _ & Eo & Epost);
    auto using before_plain, after_plain, name_cases, order_clean.
  { apply OF. simpl. tauto. }
  assert (forall kw, In kw [kw_limit; kw_count_paren] ->
            occurs true kw (assemble comparison_text parts post) = false) as HK.
  { intros kw Hk. rewrite <- E.
    apply (text_free kw (lit "SELECT * ") env (before_name q) (the_name q)
             (after_name Number q) (order_text (orderBy inherited q)));
      auto using before_plain, after_plain, name_cases;
      try (apply OF; unfold keywords; simpl in *; tauto);
      try (destruct Hk as [<-|[<-|[]]]; reflexivity); simpl; tauto. }
  rewrite E. rewrite oracle_last_two_exact; auto.
  - rewrite Eo. reflexivity.
  - apply HK. simpl. tauto.
  - apply HK. simpl. tauto.
  - rewrite Epost. now apply order_ends.
  - apply dec_digits. lia.
  - apply dec_digits. lia.
  - rewrite length_map. apply parseInt_dec. lia.
  - rewrite length_map. apply parseInt_dec. lia.
Qed.

End Handler.

(** X19.  The count query of the list handler.  When the environment brings no
    [$] and no keyword of the translators into the text, the first call of
    the handler becomes, for SQL Server, the same count with the filters in
    the dialect of SQL Server, and for Oracle the count with the alias
    written [COUNT( * ) total] and the filters in the dialect of Oracle.  In
    both cases all the binds stay: the values of the filters in their
    order, for Oracle numbered from 1. *)
Theorem list_count_translated (Number : jsstring -> JsVal) env q :
  env_ok env = true ->
  translateToMssql (c_text (count_call Number env q))
                   (c_params (count_call Number env q))
  = {| m_sql := select_from (lit "COUNT(*) as total") env
                ++ where_text sqlserver env (plan Number q);
       m_filteredParams := Some (map f_value (plan Number q)) |}
  /\ translateToOracle (c_text (count_call Number env q))
                       (c_params (count_call Number env q))
     = {| o_sql := select_from (lit "COUNT(*) total") env
                   ++ where_text oracle11 env (plan Number q);
          o_binds := number_from 0 (map f_value (plan Number q));
          o_filteredParams := Some (map f_value (plan Number q)) |}.
Proof.
  intros He. rewrite count_call_plan. cbn [c_text c_params].
  rewrite !count_framed. unfold plan.
  destruct (text_pieces (lit "SELECT " ++ lit "COUNT(*) as total" ++ lit " ") env
              (before_name q) (the_name q) (after_name Number q) [])
    as (parts & post & x & E & Hp & Ht & Em & Eo & _);
    auto using before_plain, after_plain, name_cases.
  assert (occurs true kw_limit (assemble comparison_text parts post) = false) as HL.
  { rewrite <- E. apply text_free;
      auto using before_plain, after_plain, name_cases; simpl; tauto. }
  rewrite E. split.
  - rewrite mssql_plain by assumption. now rewrite Em.
  - rewrite oracle_plain by assumption. rewrite Eo. f_equal.
    change (framed (lit "SELECT " ++ lit "COUNT(*) as total" ++ lit " ") env
              (and_conditions oracle11 1
                 (before_name q ++ the_name q ++ after_name Number q) ++ []))
      with (lit "SELECT COUNT(*) as total"
            ++ framed (lit " ") env
                 (and_conditions oracle11 1
                    (before_name q ++ the_name q ++ after_name Number q) ++ [])).
    rewrite count_alias_once; [reflexivity|].
    destruct (occurs true (lit "COUNT(*)") _) eqn:O; auto.
    change (lit "COUNT(*)") with (kw_count_paren ++ lit "*)") in O.
    apply occurs_longer in O.
    rewrite text_free in O;
      auto using before_plain, after_plain, name_cases; simpl; tauto.
Qed.

Lemma item_text_split d env :
  item_text d env
  = lit "SELECT * " ++ (lit "FROM " ++ SCHEMA_PREFIX env ++ lit "tinwsys")
    ++ (lit " ws" ++ clause_gap ++ lit "WHERE ") ++ lit "TRIM(ws.number0) = "
    ++ (mark d ++ dec 1) ++ lit " AND " ++ lit "ws.tinwsys_st_code = "
    ++ (lit "'" ++ ST_CODE env ++ lit "'").
Proof. unfold item_text, clause_gap. rewrite <- !app_assoc. reflexivity. Qed.

Lemma item_text_free kw d env :
  In kw keywords -> env_ok env = true -> In (mark d) marks ->
  occurs true kw (item_text d env) = false.
Proof.
  intros Hk He Hm. pose proof (keywords_fit kw Hk) as Hfits.
  destruct (env_free env kw He Hk) as [E1 E2].
  assert (forall p, In p fixed_parts -> occurs true kw p = false) as Fx
    by (intros p Hp; apply (fits_fixed kw Hfits); apply in_or_app; auto).
  rewrite item_text_split.
  apply (glue_end kw Hfits); [reflexivity | apply Fx; simpl; tauto |].
  apply (glue_start kw Hfits); [reflexivity | assumption |].
  apply (glue_end kw Hfits); [reflexivity | apply Fx; simpl; tauto |].
  apply (glue_end kw Hfits); [reflexivity | apply Fx; simpl; tauto |].
  apply (glue_start kw Hfits);
    [reflexivity | apply (free_placeholder kw Hfits); [assumption | lia] |].
  apply (glue_end kw Hfits); [reflexivity | apply Fx; simpl; tauto |].
  apply (glue_end kw Hfits); [reflexivity | apply Fx; simpl; tauto |].
  assumption.
Qed.

Lemma item_text_ph d env :
  env_ok env = true -> ph_spec (mark d) (item_text canonical env) = item_text d env.
Proof.
  intros He. destruct (env_clean env He) as [E1 E2].
  rewrite !item_text_split. cbn [mark canonical].
  rewrite (ph_spec_app_clean _ (lit "SELECT * ")) by reflexivity.
  rewrite (ph_spec_app_clean _ (lit "FROM " ++ _ ++ _)) by assumption.
  rewrite (ph_spec_app_clean _ (lit " ws" ++ clause_gap ++ lit "WHERE "))
    by reflexivity.
  rewrite (ph_spec_app_clean _ (lit "TRIM(ws.number0) = ")) by reflexivity.
  rewrite <- (app_assoc (lit "$") (dec 1)). rewrite ph_dollar by reflexivity.
  rewrite (ph_spec_app_clean _ (lit " AND ")) by reflexivity.
  rewrite (ph_spec_app_clean _ (lit "ws.tinwsys_st_code = ")) by reflexivity.
  rewrite ph_spec_clean by assumption.
  now rewrite <- (app_assoc (mark d) (dec 1)).
Qed.

(** X20.  The query for one water system.  When the environment brings no [$]
    and no keyword of the translators into the text, the call of the
    handler of one water system goes to SQL Server and to Oracle with its
    text as it is but for the placeholder, which becomes [@p1] and [:1];
    the identifier of the path is the one bind, for Oracle under the name
    [1]. *)
Theorem get_by_id_translated env (id : jsstring) :
  env_ok env = true ->
  translateToMssql (c_text (item_call env id)) (c_params (item_call env id))
  = {| m_sql := item_text sqlserver env;
       m_filteredParams := Some [JStr id] |}
  /\ translateToOracle (c_text (item_call env id)) (c_params (item_call env id))
     = {| o_sql := item_text oracle11 env;
          o_binds := [(lit "1", JStr id)];
          o_filteredParams := Some [JStr id] |}.
Proof.
  intros He.
  change (c_text (item_call env id))
    with (assemble comparison_text [] (item_text canonical env)).
  cbn [c_params item_call].
  assert (forall kw, In kw keywords ->
            occurs true kw (item_text canonical env) = false) as Free
    by (intros kw Hk; apply item_text_free; auto; simpl; tauto).
  assert (tail_ok [] (item_text canonical env) = true) as Ht
    by (cbn [tail_ok]; rewrite Free; [reflexivity | simpl; tauto]).
  assert (occurs true kw_limit (assemble comparison_text [] (item_text canonical env))
          = false) as HL by (apply Free; simpl; tauto).
  split.
  - rewrite mssql_plain by auto. cbn [assemble ph_parts map].
    now rewrite (item_text_ph sqlserver).
  - rewrite oracle_plain by auto. cbn [assemble ph_parts map].
    rewrite (item_text_ph oracle11) by assumption.
    rewrite count_id; [reflexivity|].
    destruct (occurs true (lit "COUNT(*)") (item_text oracle11 env)) eqn:O; auto.
    change (lit "COUNT(*)") with (kw_count_paren ++ lit "*)") in O.
    apply occurs_longer in O.
    rewrite item_text_free in O; auto; simpl; tauto.
Qed.

Lemma get_by_id_translated_witness :
  translateToMssql (c_text (item_call sample_env (lit "MS0250008")))
                   (c_params (item_call sample_env (lit "MS0250008")))
  = {| m_sql := item_text sqlserver sample_env;
       m_filteredParams := Some [JStr (lit "MS0250008")] |}
  /\ translateToOracle (c_text (item_call sample_env (lit "MS0250008")))
                       (c_params (item_call sample_env (lit "MS0250008")))
     = {| o_sql := item_text oracle11 sample_env;
          o_binds := [(lit "1", JStr (lit "MS0250008"))];
          o_filteredParams := Some [JStr (lit "MS0250008")] |}.
Proof. exact (get_by_id_translated sample_env (lit "MS0250008") eq_refl). Defined.

Lemma sample_sort_ok : sort_ok nothing_inherited sample_request.
Proof.
  unfold sort_ok. cbn [q_sortColumns sample_request].
  apply Forall_forall. intros col _. reflexivity.
Qed.

Lemma list_page_sqlserver_witness :
  translateToMssql
    (c_text (rows_call sample_number nothing_inherited sample_env sample_request))
    (c_params (rows_call sample_number nothing_inherited sample_env sample_request))
  = {| m_sql :=
         rows_body sqlserver sample_env (plan sample_number sample_request)
                   (orderBy nothing_inherited sample_request)
         ++ lit " OFFSET "
         ++ dec (pageNumber (q_pageNumber sample_request)
                 * pageSize (q_pageSize sample_request))
         ++ lit " ROWS FETCH NEXT " ++ dec (pageSize (q_pageSize sample_request))
         ++ lit " ROWS ONLY";
       m_filteredParams := Some (map f_value (plan sample_number sample_request)) |}.
Proof.
  apply list_page_sqlserver; [reflexivity | exact sample_sort_ok | reflexivity].
Defined.

Lemma list_page_oracle_witness :
  translateToOracle
    (c_text (rows_call sample_number nothing_inherited sample_env sample_request))
    (c_params (rows_call sample_number nothing_inherited sample_env sample_request))
  = {| o_sql :=
         rownum_wrap
           (rows_body oracle11 sample_env (plan sample_number sample_request)
                      (orderBy nothing_inherited sample_request))
           (JNum (pageNumber (q_pageNumber sample_request)
                  * pageSize (q_pageSize sample_request)
                  + pageSize (q_pageSize sample_request)))
           (JNum (pageNumber (q_pageNumber sample_request)
                  * pageSize (q_pageSize sample_request)));
       o_binds := number_from 0 (map f_value (plan sample_number sample_request));
       o_filteredParams := Some (map f_value (plan sample_number sample_request)) |}.
Proof.
  apply list_page_oracle; [reflexivity | exact sample_sort_ok | reflexivity].
Defined.

Lemma list_count_translated_witness :
  translateToMssql (c_text (count_call sample_number sample_env sample_request))
                   (c_params (count_call sample_number sample_env sample_request))
  = {| m_sql := select_from (lit "COUNT(*) as total") sample_env
                ++ where_text sqlserver sample_env (plan sample_number sample_request);
       m_filteredParams := Some (map f_value (plan sample_number sample_request)) |}
  /\ translateToOracle (c_text (count_call sample_number sample_env sample_request))
                       (c_params (count_call sample_number sample_env sample_request))
     = {| o_sql := select_from (lit "COUNT(*) total") sample_env
                   ++ where_text oracle11 sample_env (plan sample_number sample_request);
          o_binds := number_from 0 (map f_value (plan sample_number sample_request));
          o_filteredParams := Some (map f_value (plan sample_number sample_request)) |}.
Proof. exact (list_count_translated sample_number sample_env sample_request eq_refl). Defined.

End ListQueryFacts.
